(** * gocom-fuzzy-search: the hybrid index, its scorer and the result merger

    A shallow embedding of [searchindex/index.go], [nlp/rewriter.go] and the
    [/search] handler of [cmd/server/main.go], and the properties of their
    specification.

    Numbers are the code's: [float32] vector components and [float64]
    scores are IEEE-754 binary floats ([spec_float] of the Standard Library,
    with the precision and exponent range of each format), [int] is [Z],
    [uint] identifiers are [N].  The library functions the code calls
    ([strings.TrimSpace], [strings.ToLower], [smetrics.JaroWinkler],
    [sort.Slice], JSON decoding, map iteration order) are the fields of the
    class [Lib]; the embedding provider and the generative model are events
    of the program monad [prog], answered by the environment.  Every
    floating-point operation is rounded on its own to its format, to
    nearest even, as the amd64 compiler does (no fused multiply-add). *)

From Stdlib Require Import ZArith NArith List Bool Lia.
From Stdlib Require Import Permutation Sorted.
From Stdlib Require Import Floats.SpecFloat.
From stdpp Require Import base option list gmap strings pretty.

Import ListNotations.
Local Open Scope Z_scope.
Local Open Scope string_scope.
Local Open Scope list_scope.

(* ================================================================== *)
(** * IEEE-754 arithmetic of the two Go float types                    *)
(* ================================================================== *)

Definition float32 := spec_float.
Definition float64 := spec_float.

Module F32.
Definition prec : Z := 24.
Definition emax : Z := 128.
Definition valid (x : float32) : bool := valid_binary prec emax x.
Definition mul (x y : float32) : float32 := SFmul prec emax x y.
(** The float32 nearest to [m * 2^e]. *)
Definition of_dyadic (m e : Z) : float32 := binary_normalize prec emax m e false.
End F32.

Module F64.
Definition prec : Z := 53.
Definition emax : Z := 1024.
Definition valid (x : float64) : bool := valid_binary prec emax x.
Definition zero : float64 := S754_zero false.
Definition nan : float64 := S754_nan.
Definition add (x y : float64) : float64 := SFadd prec emax x y.
Definition mul (x y : float64) : float64 := SFmul prec emax x y.
Definition div (x y : float64) : float64 := SFdiv prec emax x y.
Definition sqrt (x : float64) : float64 := SFsqrt prec emax x.
(** Go's [x == y], [x < y], [x <= y], [x > y], [x >= y] on float64. *)
Definition eqb (x y : float64) : bool := SFeqb x y.
Definition ltb (x y : float64) : bool := SFltb x y.
Definition leb (x y : float64) : bool := SFleb x y.
Definition gtb (x y : float64) : bool := SFltb y x.
Definition geb (x y : float64) : bool := SFleb y x.
Definition is_nan (x : float64) : bool :=
  match x with S754_nan => true | _ => false end.
(** [float64(x)] for [x : float32]: every float32 is a float64. *)
Definition of_float32 (x : float32) : float64 :=
  match x with
  | S754_finite s m e => binary_normalize prec emax (cond_Zopp s (Zpos m)) e s
  | _ => x
  end.
(** The float64 nearest to [m * 2^e]. *)
Definition of_dyadic (m e : Z) : float64 := binary_normalize prec emax m e false.
Definition one : float64 := of_dyadic 1 0.
End F64.

(** Go's [math.Max], with its special cases: [+Inf] wins, then [NaN], and
    [+0] is above [-0]. *)
Definition math_Max (x y : float64) : float64 :=
  match x, y with
  | S754_infinity false, _ | _, S754_infinity false => S754_infinity false
  | S754_nan, _ | _, S754_nan => S754_nan
  | S754_zero sx, S754_zero _ => if sx then y else x
  | _, _ => if F64.gtb x y then x else y
  end.

(** [max3], index.go line 146. *)
Definition max3 (a b c : float64) : float64 := math_Max a (math_Max b c).

(* ================================================================== *)
(** * Cosine similarity (index.go, lines 123-138)                      *)
(* ================================================================== *)

(** The arithmetic [cosine] is written with: the operations of the two
    float formats, each rounded on its own ([ieee]). *)
Record arith : Type := {
  num32 : Type;
  num64 : Type;
  mul32 : num32 -> num32 -> num32;
  widen : num32 -> num64;
  zero64 : num64;
  add64 : num64 -> num64 -> num64;
  mul64 : num64 -> num64 -> num64;
  div64 : num64 -> num64 -> num64;
  sqrt64 : num64 -> num64;
  eqb64 : num64 -> num64 -> bool
}.

Definition ieee : arith := {|
  num32 := float32; num64 := float64;
  mul32 := F32.mul; widen := F64.of_float32;
  zero64 := F64.zero;
  add64 := F64.add; mul64 := F64.mul; div64 := F64.div;
  sqrt64 := F64.sqrt; eqb64 := F64.eqb
|}.

Section Cosine.
Variable A : arith.

(** The three accumulators [dot], [na], [nb] of the loop. *)
Definition cosine_acc : Type := (num64 A * num64 A * num64 A)%type.

Definition cosine_step (acc : cosine_acc) (xy : num32 A * num32 A) : cosine_acc :=
  let '(dot, na, nb) := acc in
  let '(x, y) := xy in
  (add64 A dot (widen A (mul32 A x y)),
   add64 A na (widen A (mul32 A x x)),
   add64 A nb (widen A (mul32 A y y))).

(** The loop [for i := range a], run once the lengths are known equal. *)
Definition cosine_sums (a b : list (num32 A)) : cosine_acc :=
  fold_left cosine_step (combine a b) (zero64 A, zero64 A, zero64 A).



Definition cosine_gen (a b : list (num32 A)) : num64 A :=
  if (length a =? 0)%nat || (length b =? 0)%nat || negb (length a =? length b)%nat
  then zero64 A
  else
    let '(dot, na, nb) := cosine_sums a b in
    let den := mul64 A (sqrt64 A na) (sqrt64 A nb) in
    if eqb64 A den (zero64 A) then zero64 A
    else div64 A dot den.
End Cosine.

(** [cosine] as the program runs it. *)
Definition cosine (a b : list float32) : float64 := cosine_gen ieee a b.






(* ================================================================== *)
(** * Data model (index.go lines 15-49, rewriter.go lines 14-17)       *)
(* ================================================================== *)

Record Product : Type := {
  ID : N;
  SellerID : N;
  CategoryID : N;
  Title : string;
  Description : string;
  Brand : string;
  Status : Z;
  Score : Z
}.

Record productDoc : Type := {
  P : Product;
  Embedding : list float32;
  SearchText : string
}.

(** The anonymous struct [Why] of a [SearchResult]; the fields carry the
    names of their JSON tags. *)
Record Why : Type := {
  semantic : float64;
  fuzzy : float64
}.

Record SearchResult : Type := {
  product : Product;
  score : float64;
  why : Why
}.

(** The fields of [Index] that hold data: the two weights, fixed by [New],
    and the corpus.  The embedding model [em] is the environment that
    answers [EmbedContent]; the mutex [mu] is the lock of the events
    [Lock], [Unlock], [RLock] and [RUnlock]. *)
Record Index : Type := {
  semanticWeight : float64;
  fuzzyWeight : float64;
  docs : list productDoc
}.

Definition New (semanticWeight fuzzyWeight : float64) : Index :=
  {| semanticWeight := semanticWeight; fuzzyWeight := fuzzyWeight; docs := [] |}.

Record Rewrite : Type := {
  Primary : string;
  Alternatives : list string
}.

(** Go [error] values: what the provider, the generative model or the
    request context returned, and the errors this code builds. *)
Inductive error : Type :=
| ExternalError (msg : string)
| EmbedProductError (id : N) (cause : error)
| EmbedQueryError (cause : error)
| EmptyQueryError.

(** The generative model's response, as far as [extractText] reads it. *)
Inductive Part : Type :=
| Text (s : string)
| OtherPart (printed : string).

Record Content : Type := { Parts : list Part }.
Record Candidate : Type := { CandidateContent : option Content }.
Record GenerateContentResponse : Type := { Candidates : list (option Candidate) }.

(** What [EmbedContent] returns: the embedding values, or an error. *)
Definition embed_result : Type := (list float32 + error)%type.
(** What [GenerateContent] returns: a response pointer, or an error. *)
Definition generate_result : Type := (option GenerateContentResponse + error)%type.

(** The body of the handler's JSON answer. *)
Record Response : Type := {
  Query : string;
  Normalized : Rewrite;
  Results : list SearchResult
}.

(* ================================================================== *)
(** * Programs                                                         *)
(* ================================================================== *)

(** A call of the code is a tree of the events it performs on what it
    shares with the rest of the process: requests to the embedding
    provider and the generative model, the operations of [ix.mu], and
    the reads and the one write of the fields of [ix]. *)
Inductive prog (A : Type) : Type :=
| Ret (a : A)
| EmbedContent (text : string) (k : embed_result -> prog A)
| GenerateContent (parts : list string) (k : generate_result -> prog A)
| Lock (k : prog A)
| Unlock (k : prog A)
| RLock (k : prog A)
| RUnlock (k : prog A)
| GetDocs (k : list productDoc -> prog A)
| GetSemanticWeight (k : float64 -> prog A)
| GetFuzzyWeight (k : float64 -> prog A)
| SetDocs (ds : list productDoc) (k : prog A).

Arguments Ret {A} a.
Arguments EmbedContent {A} text k.
Arguments GenerateContent {A} parts k.
Arguments Lock {A} k.
Arguments Unlock {A} k.
Arguments RLock {A} k.
Arguments RUnlock {A} k.
Arguments GetDocs {A} k.
Arguments GetSemanticWeight {A} k.
Arguments GetFuzzyWeight {A} k.
Arguments SetDocs {A} ds k.

Fixpoint bind {A B : Type} (p : prog A) (f : A -> prog B) : prog B :=
  match p with
  | Ret a => f a
  | EmbedContent text k => EmbedContent text (fun r => bind (k r) f)
  | GenerateContent parts k => GenerateContent parts (fun r => bind (k r) f)
  | Lock k => Lock (bind k f)
  | Unlock k => Unlock (bind k f)
  | RLock k => RLock (bind k f)
  | RUnlock k => RUnlock (bind k f)
  | GetDocs k => GetDocs (fun ds => bind (k ds) f)
  | GetSemanticWeight k => GetSemanticWeight (fun w => bind (k w) f)
  | GetFuzzyWeight k => GetFuzzyWeight (fun w => bind (k w) f)
  | SetDocs ds k => SetDocs ds (bind k f)
  end.

Notation "x <- p ;; q" := (bind p (fun x => q))
  (at level 100, p at next level, right associativity).
Notation "p ;; q" := (bind p (fun _ => q))
  (at level 100, right associativity).

Definition em_EmbedContent (text : string) : prog embed_result := EmbedContent text Ret.
Definition gm_GenerateContent (parts : list string) : prog generate_result :=
  GenerateContent parts Ret.
Definition mu_Lock : prog unit := Lock (Ret tt).
Definition mu_Unlock : prog unit := Unlock (Ret tt).
Definition mu_RLock : prog unit := RLock (Ret tt).
Definition mu_RUnlock : prog unit := RUnlock (Ret tt).
Definition ix_docs : prog (list productDoc) := GetDocs Ret.
Definition ix_semanticWeight : prog float64 := GetSemanticWeight Ret.
Definition ix_fuzzyWeight : prog float64 := GetFuzzyWeight Ret.
Definition set_ix_docs (ds : list productDoc) : prog unit := SetDocs ds (Ret tt).

(* ================================================================== *)
(** * The library functions the code calls                             *)
(* ================================================================== *)

Class Lib : Type := {
  (** [strings.TrimSpace] and [strings.ToLower] *)
  TrimSpace : string -> string;
  ToLower : string -> string;
  (** [smetrics.JaroWinkler a b boostThreshold prefixSize] *)
  JaroWinkler : string -> string -> float64 -> Z -> float64;
  (** [sort.Slice], given the comparison of two elements *)
  sort_Slice : forall A : Type, (A -> A -> bool) -> list A -> list A;
  (** the order in which [range] visits the values of a map *)
  range_values : gmap N SearchResult -> list SearchResult;
  (** [fmt.Sprintf] of the verb [%q] *)
  Quote : string -> string;
  (** decoding a [Rewrite] from JSON, unknown fields refused *)
  json_Decode : string -> option Rewrite;
  (** the instruction text sent to the generative model *)
  prompt : string
}.

Arguments sort_Slice {_} {A} less l.

(** Go requires of [less] a transitive ordering: [less] transitive, and
    "neither less than the other" transitive too.  Floating-point [>] is
    one when no NaN is compared. *)
Definition transitive_ordering {A : Type} (less : A -> A -> bool) (l : list A) : Prop :=
  (forall x, In x l -> less x x = false) /\
  (forall x y z, In x l -> In y l -> In z l ->
     less x y = true -> less y z = true -> less x z = true) /\
  (forall x y z, In x l -> In y l -> In z l ->
     less x y = false -> less y z = false -> less x z = false).

(** What the code relies on: sorting permutes its argument, and orders it
    when [less] is a transitive ordering of its elements; ranging over a
    map visits each value once, in some order. *)
Class LibLaws (L : Lib) : Prop := {
  sort_Slice_Permutation :
    forall (A : Type) (less : A -> A -> bool) (l : list A),
      Permutation (sort_Slice less l) l;
  sort_Slice_Sorted :
    forall (A : Type) (less : A -> A -> bool) (l : list A),
      transitive_ordering less l ->
      StronglySorted (fun x y => less y x = false) (sort_Slice less l);
  range_values_Permutation :
    forall m : gmap N SearchResult,
      Permutation (range_values m) (map snd (map_to_list m))
}.

(** Insertion sort as Go's [sort] package runs it on slices shorter than
    twelve elements: each element moves left past the elements it is
    [less] than.  [ins] works on the reversed prefix. *)
Fixpoint insertion_ins {A : Type} (less : A -> A -> bool) (x : A) (rev_prefix : list A) : list A :=
  match rev_prefix with
  | [] => [x]
  | y :: rest => if less x y then y :: insertion_ins less x rest else x :: y :: rest
  end.

Definition insertionSort {A : Type} (less : A -> A -> bool) (l : list A) : list A :=
  rev (fold_left (fun acc x => insertion_ins less x acc) l []).

(* ================================================================== *)
(** * searchindex/index.go                                             *)
(* ================================================================== *)

Section Code.
Context {L : Lib}.

(** The float64 constant [0.7]. *)
Definition boostThreshold : float64 := F64.of_dyadic 6305039478318694 (-53).

(** [jaroWinkler], lines 140-144. *)
Definition jaroWinkler (a b : string) : float64 :=
  let a := ToLower (TrimSpace a) in
  let b := ToLower (TrimSpace b) in
  JaroWinkler a b boostThreshold 4.

(** [strings.Join] of three strings with [" "]. *)
Definition joined (p : Product) : string :=
  TrimSpace (Title p +:+ " " +:+ Brand p +:+ " " +:+ Description p).

(** The loop of [Rebuild], lines 62-76, from the products still to visit
    and the local [docs] built so far; it returns early on the first
    embedding error. *)
Fixpoint Rebuild_loop (products : list Product) (docs : list productDoc)
  : prog (list productDoc + error) :=
  match products with
  | [] => Ret (inl docs)
  | p :: products' =>
      let joined := joined p in
      if String.eqb joined "" then Rebuild_loop products' docs
      else
        resp <- em_EmbedContent joined ;;
        match resp with
        | inr err => Ret (inr (EmbedProductError (ID p) err))
        | inl values =>
            Rebuild_loop products'
              (docs ++ [{| P := p; Embedding := values; SearchText := joined |}])
        end
  end.

(** [Index.Rebuild], lines 60-81; [None] is the [nil] error. *)
Definition Rebuild (products : list Product) : prog (option error) :=
  r <- Rebuild_loop products [] ;;
  match r with
  | inr err => Ret (Some err)
  | inl docs =>
      mu_Lock ;;
      set_ix_docs docs ;;
      mu_Unlock ;;
      Ret None
  end.

(** One iteration of the scoring loop, lines 100-113, given the weights
    read from [ix]. *)
Definition score_doc (semanticWeight fuzzyWeight : float64)
    (q : string) (qVec : list float32) (d : productDoc) : SearchResult :=
  let sem := cosine qVec (Embedding d) in
  let fuz := max3 (jaroWinkler q (Title (P d)))
                  (jaroWinkler q (Brand (P d)))
                  (jaroWinkler q (Description (P d))) in
  let score := F64.add (F64.mul semanticWeight sem) (F64.mul fuzzyWeight fuz) in
  {| product := P d; score := score; why := {| semantic := sem; fuzzy := fuz |} |}.

(** The loop [for _, d := range ix.docs], lines 99-114. *)
Fixpoint Search_loop (q : string) (qVec : list float32)
    (ds : list productDoc) (results : list SearchResult) : prog (list SearchResult) :=
  match ds with
  | [] => Ret results
  | d :: ds' =>
      semW <- ix_semanticWeight ;;
      fuzW <- ix_fuzzyWeight ;;
      Search_loop q qVec ds' (results ++ [score_doc semW fuzW q qVec d])
  end.

(** The comparison given to [sort.Slice], lines 116 and main.go 131. *)
Definition by_score_desc (x y : SearchResult) : bool := F64.gtb (score x) (score y).

(** [if topK > 0 && topK < len(results) { results = results[:topK] }] *)
Definition truncate (topK : Z) (results : list SearchResult) : list SearchResult :=
  if (0 <? topK)%Z && (topK <? Z.of_nat (length results))%Z
  then firstn (Z.to_nat topK) results
  else results.

(** [Index.Search], lines 83-121.  The read lock is released by the
    deferred [RUnlock] when the function returns. *)
Definition Search (query : string) (topK : Z) : prog (list SearchResult * option error) :=
  let q := TrimSpace query in
  if String.eqb q "" then Ret ([], None)
  else
    qResp <- em_EmbedContent q ;;
    match qResp with
    | inr err => Ret ([], Some (EmbedQueryError err))
    | inl qVec =>
        mu_RLock ;;
        capacity <- ix_docs ;;
        ds <- ix_docs ;;
        results <- Search_loop q qVec ds [] ;;
        let results := sort_Slice by_score_desc results in
        let results := truncate topK results in
        mu_RUnlock ;;
        Ret (results, None)
    end.

(* ================================================================== *)
(** * nlp/rewriter.go                                                  *)
(* ================================================================== *)

(** [fmt.Sprint] of a part. *)
Definition Sprint (p : Part) : string :=
  match p with Text s => s | OtherPart printed => printed end.

(** [extractText], lines 20-33. *)
Definition extractText (resp : option GenerateContentResponse) : string :=
  match resp with
  | None => ""
  | Some resp =>
      match Candidates resp with
      | [] | None :: _ => ""
      | Some c :: _ =>
          match CandidateContent c with
          | None => ""
          | Some c => String.concat "" (map Sprint (Parts c))
          end
      end
  end.

(** The closure [clean] of [normalize], with the set [seen] it updates. *)
Definition clean (seen : gset string) (s : string) : option string * gset string :=
  let s := TrimSpace s in
  if String.eqb s "" then (None, seen)
  else if decide (ToLower s ∈ seen) then (None, seen)
  else (Some s, {[ ToLower s ]} ∪ seen).

Fixpoint normalize_alternatives (seen : gset string) (alts out : list string) : list string :=
  match alts with
  | [] => out
  | a :: alts' =>
      match clean seen a with
      | (Some v, seen') =>
          let out' := out ++ [v] in
          if (3 <=? length out')%nat then out' else normalize_alternatives seen' alts' out'
      | (None, seen') => normalize_alternatives seen' alts' out
      end
  end.

(** [normalize], lines 36-62. *)
Definition normalize (r : Rewrite) : Rewrite :=
  let '(p, seen) := clean ∅ (Primary r) in
  {| Primary := match p with Some p => p | None => "" end;
     Alternatives := normalize_alternatives seen (Alternatives r) [] |}.

(** [RewriteQuery], lines 66-114. *)
Definition RewriteQuery (raw : string) : prog (Rewrite * option error) :=
  let raw := TrimSpace raw in
  if String.eqb raw "" then
    Ret ({| Primary := ""; Alternatives := [] |}, Some EmptyQueryError)
  else
    let inp := "Input: " +:+ Quote raw in
    resp <- gm_GenerateContent [prompt; inp] ;;
    match resp with
    | inr err => Ret ({| Primary := ""; Alternatives := [] |}, Some err)
    | inl resp =>
        let txt := extractText resp in
        match json_Decode txt with
        | None => Ret ({| Primary := raw; Alternatives := [] |}, None)
        | Some r =>
            let r := normalize r in
            let r := if String.eqb (Primary r) ""
                     then {| Primary := raw; Alternatives := Alternatives r |}
                     else r in
            Ret (r, None)
        end
    end.

(* ================================================================== *)
(** * The /search handler of cmd/server/main.go (lines 84-146)         *)
(* ================================================================== *)

(** One step of the closure [merge], lines 104-108. *)
Definition merge_one (best : gmap N SearchResult) (it : SearchResult) : gmap N SearchResult :=
  let id := ID (product it) in
  match best !! id with
  | Some prev => if F64.gtb (score it) (score prev) then <[ id := it ]> best else best
  | None => <[ id := it ]> best
  end.

(** The closure [merge], lines 103-110. *)
Definition merge (best : gmap N SearchResult) (list : list SearchResult) : gmap N SearchResult :=
  fold_left merge_one list best.

(** What a variant adds to [best]: its results when its search succeeded. *)
Definition merge_variant (best : gmap N SearchResult)
    (res : list SearchResult * option error) : gmap N SearchResult :=
  match res with
  | (list, None) => merge best list
  | (_, Some _) => best
  end.

(** The loop over [rw.Alternatives], lines 119-124. *)
Fixpoint search_alternatives (alts : list string) (topK : Z)
    (best : gmap N SearchResult) : prog (gmap N SearchResult) :=
  match alts with
  | [] => Ret best
  | alt :: alts' =>
      resAlt <- Search alt topK ;;
      search_alternatives alts' topK (merge_variant best resAlt)
  end.

(** Lines 127-134: flatten [best], sort, cut. *)
Definition flatten_sort (topK : Z) (best : gmap N SearchResult) : list SearchResult :=
  let out := range_values best in
  let out := sort_Slice by_score_desc out in
  truncate topK out.

(** The handler, from the query [q] and the parsed [topK]. *)
Definition search_handler (q : string) (topK : Z) : prog Response :=
  r <- RewriteQuery q ;;
  let rw := match r with
            | (rw, None) => rw
            | (_, Some _) => {| Primary := q; Alternatives := [] |}
            end in
  resPrimary <- Search (Primary rw) topK ;;
  let best := merge_variant ∅ resPrimary in
  best <- search_alternatives (Alternatives rw) topK best ;;
  Ret {| Query := q; Normalized := rw; Results := flatten_sort topK best |}.

End Code.

(* ================================================================== *)
(** * One call run alone                                               *)
(* ================================================================== *)

(** The environment: a state of the outside world, and the answers of
    the embedding provider and of the generative model in it.  An
    expired deadline or a cancelled context is an error answer. *)
Class Env : Type := {
  World : Type;
  embed_answer : World -> string -> embed_result * World;
  generate_answer : World -> list string -> generate_result * World
}.

Inductive event : Type :=
| EvEmbedContent (text : string) (r : embed_result)
| EvGenerateContent (parts : list string) (r : generate_result)
| EvLock
| EvUnlock
| EvRLock
| EvRUnlock
| EvGetDocs (ds : list productDoc)
| EvGetSemanticWeight
| EvGetFuzzyWeight
| EvSetDocs (ds : list productDoc).

Definition set_docs (ix : Index) (ds : list productDoc) : Index :=
  {| semanticWeight := semanticWeight ix; fuzzyWeight := fuzzyWeight ix; docs := ds |}.

(** What a call leaves: its result, the world, the index, and the events
    it performed, in order. *)
Record outcome (E : Env) (A : Type) : Type := {
  result : A;
  world : World;
  index : Index;
  trace : list event
}.

Arguments result {E A} o.
Arguments world {E A} o.
Arguments index {E A} o.
Arguments trace {E A} o.

Definition logged {E : Env} {A : Type} (e : event) (o : outcome E A) : outcome E A :=
  {| result := result o; world := world o; index := index o; trace := e :: trace o |}.

(** [run p w ix]: the call [p] executed from the world [w] and the index
    [ix], with no other call in between. *)
Fixpoint run {E : Env} {A : Type} (p : prog A) (w : World) (ix : Index) : outcome E A :=
  match p with
  | Ret a => {| result := a; world := w; index := ix; trace := [] |}
  | EmbedContent text k =>
      let '(r, w') := embed_answer w text in
      logged (EvEmbedContent text r) (run (k r) w' ix)
  | GenerateContent parts k =>
      let '(r, w') := generate_answer w parts in
      logged (EvGenerateContent parts r) (run (k r) w' ix)
  | Lock k => logged EvLock (run k w ix)
  | Unlock k => logged EvUnlock (run k w ix)
  | RLock k => logged EvRLock (run k w ix)
  | RUnlock k => logged EvRUnlock (run k w ix)
  | GetDocs k => logged (EvGetDocs (docs ix)) (run (k (docs ix)) w ix)
  | GetSemanticWeight k => logged EvGetSemanticWeight (run (k (semanticWeight ix)) w ix)
  | GetFuzzyWeight k => logged EvGetFuzzyWeight (run (k (fuzzyWeight ix)) w ix)
  | SetDocs ds k => logged (EvSetDocs ds) (run k w (set_docs ix ds))
  end.

(** The embedding requests among the events, with their answers. *)
Definition embed_requests (tr : list event) : list (string * embed_result) :=
  omap (fun e => match e with EvEmbedContent text r => Some (text, r) | _ => None end) tr.

(** Every document of a corpus built by [Rebuild] carries the search text
    of its product, which is not empty. *)
Definition corpus_ok {L : Lib} (ds : list productDoc) : Prop :=
  Forall (fun d => SearchText d = joined (P d) /\ joined (P d) <> "") ds.

(** The products of the input that [Rebuild] keeps. *)
Definition surviving {L : Lib} (products : list Product) : list Product :=
  filter (fun p => joined p <> "") products.

(** [NaN] is no score of the list. *)
Definition no_nan_score (l : list SearchResult) : Prop :=
  Forall (fun r => F64.is_nan (score r) = false) l.

(** In non-increasing order of score. *)
Definition sorted_desc (l : list SearchResult) : Prop :=
  StronglySorted (fun x y => F64.geb (score x) (score y) = true) l.

(* ================================================================== *)
(** * The ways a call ends                                             *)
(* ================================================================== *)

Section Outcomes.
Context {L : Lib} {E : Env}.

(** The embedding request that [Rebuild] makes for a document. *)
Definition request_of (d : productDoc) : string * embed_result :=
  (SearchText d, inl (Embedding d)).

Definition request_event (r : string * embed_result) : event :=
  EvEmbedContent (fst r) (snd r).

(** The two ways the loop of [Rebuild] ends. *)
Inductive Rebuild_loop_ends (products : list Product) (docs : list productDoc)
    (ix : Index) (o : outcome E (list productDoc + error)) : Prop :=
| loop_completes (new : list productDoc) :
    result o = inl (docs ++ new) ->
    map P new = surviving products ->
    corpus_ok new ->
    trace o = map request_event (map request_of new) ->
    index o = ix ->
    Rebuild_loop_ends products docs ix o
| loop_fails (before after : list Product) (p : Product) (cause : error)
             (new : list productDoc) :
    result o = inr (EmbedProductError (ID p) cause) ->
    products = before ++ p :: after ->
    joined p <> "" ->
    map P new = surviving before ->
    corpus_ok new ->
    trace o = map request_event (map request_of new ++ [(joined p, inr cause)]) ->
    index o = ix ->
    Rebuild_loop_ends products docs ix o.

(** The two ways [Rebuild] ends: it publishes the complete new corpus
    after its last request, or leaves the index as it found it. *)
Inductive Rebuild_ends (products : list Product) (ix : Index)
    (o : outcome E (option error)) : Prop :=
| Rebuild_succeeds (new : list productDoc) :
    result o = None ->
    map P new = surviving products ->
    corpus_ok new ->
    trace o = map request_event (map request_of new)
              ++ [EvLock; EvSetDocs new; EvUnlock] ->
    index o = set_docs ix new ->
    Rebuild_ends products ix o
| Rebuild_fails (before after : list Product) (p : Product) (cause : error)
                (new : list productDoc) :
    result o = Some (EmbedProductError (ID p) cause) ->
    products = before ++ p :: after ->
    joined p <> "" ->
    map P new = surviving before ->
    corpus_ok new ->
    trace o = map request_event (map request_of new ++ [(joined p, inr cause)]) ->
    index o = ix ->
    Rebuild_ends products ix o.

(** The results of the scoring loop over the corpus, before sorting. *)
Definition scored (ix : Index) (q : string) (qVec : list float32) : list SearchResult :=
  map (score_doc (semanticWeight ix) (fuzzyWeight ix) q qVec) (docs ix).

(** The events of the scoring loop: the two weights, read per document. *)
Definition weight_reads (ds : list productDoc) : list event :=
  flat_map (fun _ => [EvGetSemanticWeight; EvGetFuzzyWeight]) ds.

(** The three ways [Search] ends. *)
Inductive Search_ends (query : string) (topK : Z) (w : World) (ix : Index)
    (o : outcome E (list SearchResult * option error)) : Prop :=
| Search_of_nothing :
    TrimSpace query = "" ->
    o = {| result := ([], None); world := w; index := ix; trace := [] |} ->
    Search_ends query topK w ix o
| Search_fails (err : error) (w' : World) :
    TrimSpace query <> "" ->
    embed_answer w (TrimSpace query) = (inr err, w') ->
    o = {| result := ([], Some (EmbedQueryError err)); world := w'; index := ix;
           trace := [EvEmbedContent (TrimSpace query) (inr err)] |} ->
    Search_ends query topK w ix o
| Search_ranks (qVec : list float32) (w' : World) :
    TrimSpace query <> "" ->
    embed_answer w (TrimSpace query) = (inl qVec, w') ->
    o = {| result := (truncate topK (sort_Slice by_score_desc
                                       (scored ix (TrimSpace query) qVec)), None);
           world := w'; index := ix;
           trace := EvEmbedContent (TrimSpace query) (inl qVec) :: EvRLock ::
                    EvGetDocs (docs ix) :: EvGetDocs (docs ix) ::
                    weight_reads (docs ix) ++ [EvRUnlock] |} ->
    Search_ends query topK w ix o.

(** The index after further calls of [Rebuild] and [Search]. *)
Inductive later (ix : Index) : Index -> Prop :=
| later_now : later ix ix
| later_Rebuild (ix' : Index) (products : list Product) (w : World) :
    later ix ix' -> later ix (index (run (Rebuild products) w ix'))
| later_Search (ix' : Index) (query : string) (topK : Z) (w : World) :
    later ix ix' -> later ix (index (run (Search query topK) w ix')).

Definition succeeded (res : list SearchResult * option error) : bool :=
  match snd res with None => true | Some _ => false end.

(** The searches of the variants [vs], one after the other. *)
Fixpoint variant_outcomes (vs : list string) (topK : Z) (w : World) (ix : Index)
  : list (outcome E (list SearchResult * option error)) :=
  match vs with
  | [] => []
  | v :: vs' =>
      run (Search v topK) w ix
        :: variant_outcomes vs' topK (world (run (Search v topK) w ix)) ix
  end.

(** The result lists of the searches that returned no error. *)
Definition successful_lists
    (os : list (outcome E (list SearchResult * option error))) : list (list SearchResult) :=
  map fst (List.filter succeeded (map result os)).

(** The rewrite the handler goes on with. *)
Definition rewrite_used (q : string) (w : World) (ix : Index) : Rewrite :=
  match result (run (RewriteQuery q) w ix) with
  | (rw, None) => rw
  | (_, Some _) => {| Primary := q; Alternatives := [] |}
  end.

(** The searches of a request: the primary, then the alternatives. *)
Definition handler_outcomes (q : string) (topK : Z) (w : World) (ix : Index)
  : list (outcome E (list SearchResult * option error)) :=
  variant_outcomes (Primary (rewrite_used q w ix) :: Alternatives (rewrite_used q w ix))
                   topK (world (run (RewriteQuery q) w ix)) ix.

(** The map [best] when the loop over the alternatives is over. *)
Definition handler_best (q : string) (topK : Z) (w : World) (ix : Index)
  : gmap N SearchResult :=
  fold_left merge (successful_lists (handler_outcomes q topK w ix)) ∅.

End Outcomes.

(** [best] holds, for each identifier met in [seen], one result of [seen]
    with that identifier, which no other beats when no score is NaN. *)
Definition merged_from (best : gmap N SearchResult) (seen : list SearchResult) : Prop :=
  (forall id r, best !! id = Some r ->
     ID (product r) = id /\ In r seen /\
     (no_nan_score seen ->
      forall r', In r' seen -> ID (product r') = id ->
                 F64.geb (score r) (score r') = true)) /\
  (forall r', In r' seen -> is_Some (best !! ID (product r'))).

(* ================================================================== *)
(** * Several calls at once                                            *)
(* ================================================================== *)

(** A goroutine runs one call of the index. *)
Inductive call : Type :=
| CallRebuild (products : list Product)
| CallSearch (query : string) (topK : Z).

Inductive returned : Type :=
| RebuildReturned (err : option error)
| SearchReturned (res : list SearchResult * option error).

Definition code_of {L : Lib} (c : call) : prog returned :=
  match c with
  | CallRebuild products => err <- Rebuild products ;; Ret (RebuildReturned err)
  | CallSearch query topK => res <- Search query topK ;; Ret (SearchReturned res)
  end.

(** What a goroutine holds of [ix.mu]: nothing, the exclusive lock before
    or after its write of [ix.docs], or a read lock. *)
Inductive mode : Type := Unlocked | Writing | Written | Reading.

(** A goroutine: the call it runs, what is left of it, and two records
    kept for the proofs: the lock it holds, and the corpus that was
    current when it took the read lock. *)
Record thread : Type := {
  origin : call;
  code : prog returned;
  held : mode;
  view : option (list productDoc)
}.

Definition spawn {L : Lib} (c : call) : thread :=
  {| origin := c; code := code_of c; held := Unlocked; view := None |}.

(** The process: the world, the index, the state of the RWMutex
    (a writer holds it, or some number of readers do), the goroutines. *)
Record machine (E : Env) : Type := {
  m_world : World;
  m_index : Index;
  writer : bool;
  readers : nat;
  threads : list thread
}.

Arguments m_world {E} m.
Arguments m_index {E} m.
Arguments writer {E} m.
Arguments readers {E} m.
Arguments threads {E} m.

Definition boot {L : Lib} {E : Env} (calls : list call) (w : World) (ix : Index) : machine E :=
  {| m_world := w; m_index := ix; writer := false; readers := 0;
     threads := map spawn calls |}.

Definition continue (t : thread) (k : prog returned) : thread :=
  {| origin := origin t; code := k; held := held t; view := view t |}.

Definition continue_as (t : thread) (k : prog returned) (m : mode)
    (v : option (list productDoc)) : thread :=
  {| origin := origin t; code := k; held := m; view := v |}.

(** One step of goroutine [i]: its next event, when the event can
    happen.  [Lock] waits until nobody holds the mutex, [RLock] until no
    writer does; a goroutine that has returned does nothing. *)
Definition step {E : Env} (i : nat) (c : machine E) : option (machine E) :=
  match threads c !! i with
  | None => None
  | Some t =>
      match code t with
      | Ret _ => None
      | EmbedContent text k =>
          let '(r, w') := embed_answer (m_world c) text in
          Some {| m_world := w'; m_index := m_index c; writer := writer c;
                  readers := readers c;
                  threads := <[ i := continue t (k r) ]> (threads c) |}
      | GenerateContent parts k =>
          let '(r, w') := generate_answer (m_world c) parts in
          Some {| m_world := w'; m_index := m_index c; writer := writer c;
                  readers := readers c;
                  threads := <[ i := continue t (k r) ]> (threads c) |}
      | Lock k =>
          if negb (writer c) && (readers c =? 0)%nat then
            Some {| m_world := m_world c; m_index := m_index c; writer := true;
                    readers := readers c;
                    threads := <[ i := continue_as t k Writing (view t) ]> (threads c) |}
          else None
      | Unlock k =>
          Some {| m_world := m_world c; m_index := m_index c; writer := false;
                  readers := readers c;
                  threads := <[ i := continue_as t k Unlocked (view t) ]> (threads c) |}
      | RLock k =>
          if negb (writer c) then
            Some {| m_world := m_world c; m_index := m_index c; writer := writer c;
                    readers := S (readers c);
                    threads := <[ i := continue_as t k Reading
                                         (Some (docs (m_index c))) ]> (threads c) |}
          else None
      | RUnlock k =>
          Some {| m_world := m_world c; m_index := m_index c; writer := writer c;
                  readers := pred (readers c);
                  threads := <[ i := continue_as t k Unlocked None ]> (threads c) |}
      | GetDocs k =>
          Some {| m_world := m_world c; m_index := m_index c; writer := writer c;
                  readers := readers c;
                  threads := <[ i := continue t (k (docs (m_index c))) ]> (threads c) |}
      | GetSemanticWeight k =>
          Some {| m_world := m_world c; m_index := m_index c; writer := writer c;
                  readers := readers c;
                  threads := <[ i := continue t (k (semanticWeight (m_index c))) ]>
                               (threads c) |}
      | GetFuzzyWeight k =>
          Some {| m_world := m_world c; m_index := m_index c; writer := writer c;
                  readers := readers c;
                  threads := <[ i := continue t (k (fuzzyWeight (m_index c))) ]>
                               (threads c) |}
      | SetDocs ds k =>
          Some {| m_world := m_world c; m_index := set_docs (m_index c) ds;
                  writer := writer c; readers := readers c;
                  threads := <[ i := continue_as t k Written (view t) ]> (threads c) |}
      end
  end.

(** The machine after a schedule: the goroutines named take a step each,
    in order; a goroutine that cannot move leaves the machine as it is. *)
Fixpoint exec {E : Env} (schedule : list nat) (c : machine E) : machine E :=
  match schedule with
  | [] => c
  | i :: schedule' =>
      exec schedule' (match step i c with Some c' => c' | None => c end)
  end.

(** The locking discipline of a piece of code that starts holding [m]
    and ends holding [e]: requests to the provider and the model are
    made holding nothing; [ix.docs] is written once, holding the
    exclusive lock, and read holding a read lock. *)
Fixpoint disciplined_until {A : Type} (e m : mode) (p : prog A) : Prop :=
  match p with
  | Ret _ => m = e
  | EmbedContent _ k => m = Unlocked /\ forall r, disciplined_until e Unlocked (k r)
  | GenerateContent _ k => m = Unlocked /\ forall r, disciplined_until e Unlocked (k r)
  | Lock k => m = Unlocked /\ disciplined_until e Writing k
  | SetDocs _ k => m = Writing /\ disciplined_until e Written k
  | Unlock k => m = Written /\ disciplined_until e Unlocked k
  | RLock k => m = Unlocked /\ disciplined_until e Reading k
  | RUnlock k => m = Reading /\ disciplined_until e Unlocked k
  | GetDocs k => m = Reading /\ forall ds, disciplined_until e Reading (k ds)
  | GetSemanticWeight k => forall x, disciplined_until e m (k x)
  | GetFuzzyWeight k => forall x, disciplined_until e m (k x)
  end.

(** A call, or what is left of it, returns holding nothing. *)
Definition disciplined {A : Type} (m : mode) (p : prog A) : Prop :=
  disciplined_until Unlocked m p.

(** Every value the code may return satisfies [Q]. *)
Fixpoint returns {A : Type} (Q : A -> Prop) (p : prog A) : Prop :=
  match p with
  | Ret a => Q a
  | EmbedContent _ k => forall r, returns Q (k r)
  | GenerateContent _ k => forall r, returns Q (k r)
  | Lock k | Unlock k | RLock k | RUnlock k | SetDocs _ k => returns Q k
  | GetDocs k => forall ds, returns Q (k ds)
  | GetSemanticWeight k | GetFuzzyWeight k => forall x, returns Q (k x)
  end.

(** Every corpus the code may write satisfies [S]. *)
Fixpoint publishes {A : Type} (S : list productDoc -> Prop) (p : prog A) : Prop :=
  match p with
  | Ret _ => True
  | EmbedContent _ k => forall r, publishes S (k r)
  | GenerateContent _ k => forall r, publishes S (k r)
  | Lock k | Unlock k | RLock k | RUnlock k => publishes S k
  | GetDocs k => forall ds, publishes S (k ds)
  | GetSemanticWeight k | GetFuzzyWeight k => forall x, publishes S (k x)
  | SetDocs ds k => S ds /\ publishes S k
  end.

(** The complete new corpus of a [Rebuild]: one document per surviving
    item, in order, each with its search text. *)
Definition complete_corpus {L : Lib} (products : list Product) (ds : list productDoc) : Prop :=
  map P ds = surviving products /\ corpus_ok ds.

(** What a call may write to [ix.docs]. *)
Definition may_publish {L : Lib} (c : call) (ds : list productDoc) : Prop :=
  match c with
  | CallRebuild products => complete_corpus products ds
  | CallSearch _ _ => False
  end.

Definition write_locks (m : mode) : nat :=
  match m with Writing | Written => 1 | _ => 0 end.

Definition read_locks (m : mode) : nat :=
  match m with Reading => 1 | _ => 0 end.

Definition holds_write (t : thread) : nat := write_locks (held t).
Definition holds_read (t : thread) : nat := read_locks (held t).

(** A corpus that was published: the initial one, or the complete
    corpus of one of the calls of [Rebuild]. *)
Definition published {L : Lib} (calls : list call) (ix0 : Index)
    (corpus : list productDoc) : Prop :=
  corpus = docs ix0 \/
  exists products, In (CallRebuild products) calls /\ complete_corpus products corpus.

(** What holds of the machine at any time. *)
Record consistent {L : Lib} {E : Env} (calls : list call) (ix0 : Index) (c : machine E) : Prop := {
  origins : map origin (threads c) = calls;
  discipline : Forall (fun t => disciplined (held t) (code t)) (threads c);
  writes_complete : Forall (fun t => publishes (may_publish (origin t)) (code t)) (threads c);
  readers_counted : sum_list (map holds_read (threads c)) = readers c;
  writer_counted : sum_list (map holds_write (threads c)) = if writer c then 1%nat else 0%nat;
  writer_alone : writer c = true -> readers c = 0%nat;
  views_current :
    Forall (fun t => held t = Reading -> view t = Some (docs (m_index c))) (threads c);
  corpus_published : published calls ix0 (docs (m_index c));
  weights_fixed :
    semanticWeight (m_index c) = semanticWeight ix0 /\
    fuzzyWeight (m_index c) = fuzzyWeight ix0
}.

(** The part of [Search] that runs under the read lock: lines 98-120,
    up to the deferred [RUnlock]. *)
Definition Search_reading {L : Lib} (q : string) (qVec : list float32) (topK : Z)
  : prog (list SearchResult * option error) :=
  capacity <- ix_docs ;;
  ds <- ix_docs ;;
  results <- Search_loop q qVec ds [] ;;
  let results := sort_Slice by_score_desc results in
  let results := truncate topK results in
  mu_RUnlock ;;
  Ret (results, None).

(** The part of [Search] that runs once the query has its embedding. *)
Definition Search_scoring {L : Lib} (q : string) (qVec : list float32) (topK : Z)
  : prog (list SearchResult * option error) :=
  mu_RLock ;; Search_reading q qVec topK.

(** [Search] after the answer of the provider. *)
Definition Search_embedded {L : Lib} (q : string) (topK : Z) (r : embed_result)
  : prog (list SearchResult * option error) :=
  match r with
  | inr err => Ret ([], Some (EmbedQueryError err))
  | inl qVec => Search_scoring q qVec topK
  end.

(** The ranking [Search] computes from one corpus. *)
Definition ranking {L : Lib} (ix0 : Index) (q : string) (qVec : list float32)
    (corpus : list productDoc) (topK : Z) : list SearchResult :=
  truncate topK
    (sort_Slice by_score_desc
       (map (score_doc (semanticWeight ix0) (fuzzyWeight ix0) q qVec) corpus)).

(** Code that only reads the index and then unlocks and returns. *)
Fixpoint reading_tail {A : Type} (p : prog A) : Prop :=
  match p with
  | GetDocs k => forall ds, reading_tail (k ds)
  | GetSemanticWeight k | GetFuzzyWeight k => forall x, reading_tail (k x)
  | RUnlock (Ret _) => True
  | _ => False
  end.

(** What a call of [Search] returns is right for the request: nothing
    for an empty query, nothing and an error when the provider failed,
    or the ranking of one published corpus. *)
Definition Search_result_ok {L : Lib} (calls : list call) (ix0 : Index)
    (query : string) (topK : Z) (v : returned) : Prop :=
  (TrimSpace query = "" /\ v = SearchReturned ([], None)) \/
  (exists err, v = SearchReturned ([], Some (EmbedQueryError err))) \/
  (exists qVec corpus,
      published calls ix0 corpus /\
      v = SearchReturned (ranking ix0 (TrimSpace query) qVec corpus topK, None)).

(** Where a goroutine running [Search query topK] stands. *)
Inductive Search_stands {L : Lib} {E : Env} (calls : list call) (ix0 : Index)
    (query : string) (topK : Z) (t : thread) : Prop :=
| stands_at_start :
    held t = Unlocked ->
    code t = code_of (CallSearch query topK) ->
    Search_stands calls ix0 query topK t
| stands_embedded (r : embed_result) :
    held t = Unlocked ->
    TrimSpace query <> "" ->
    code t = (res <- Search_embedded (TrimSpace query) topK r ;; Ret (SearchReturned res)) ->
    Search_stands calls ix0 query topK t
| stands_reading (qVec : list float32) (corpus : list productDoc) :
    held t = Reading ->
    view t = Some corpus ->
    published calls ix0 corpus ->
    reading_tail (code t) ->
    (forall (w : World) (ix : Index),
        docs ix = corpus ->
        semanticWeight ix = semanticWeight ix0 ->
        fuzzyWeight ix = fuzzyWeight ix0 ->
        result (run (code t) w ix)
          = SearchReturned (ranking ix0 (TrimSpace query) qVec corpus topK, None)) ->
    Search_stands calls ix0 query topK t
| stands_returned (v : returned) :
    held t = Unlocked ->
    code t = Ret v ->
    Search_result_ok calls ix0 query topK v ->
    Search_stands calls ix0 query topK t.

(** Every goroutine that runs [Search] stands somewhere. *)
Definition searches_stand {L : Lib} {E : Env} (calls : list call) (ix0 : Index)
    (c : machine E) : Prop :=
  Forall (fun t => forall query topK,
              origin t = CallSearch query topK ->
              Search_stands calls ix0 query topK t)
         (threads c).

(* ================================================================== *)
(** * A concrete library and environment, for the examples             *)
(* ================================================================== *)

Definition ascii_space (c : Ascii.ascii) : bool :=
  let n := Ascii.nat_of_ascii c in
  ((n =? 32) || ((9 <=? n) && (n <=? 13)))%nat.

Definition ascii_lower (c : Ascii.ascii) : Ascii.ascii :=
  let n := Ascii.nat_of_ascii c in
  if ((65 <=? n) && (n <=? 90))%nat then Ascii.ascii_of_nat (n + 32) else c.

Fixpoint drop_spaces (l : list Ascii.ascii) : list Ascii.ascii :=
  match l with
  | c :: l' => if ascii_space c then drop_spaces l' else l
  | [] => []
  end.

Definition ascii_TrimSpace (s : string) : string :=
  String.string_of_list_ascii
    (rev (drop_spaces (rev (drop_spaces (String.list_ascii_of_string s))))).

Definition ascii_ToLower (s : string) : string :=
  String.string_of_list_ascii (map ascii_lower (String.list_ascii_of_string s)).

(** A stand-in for the JSON of the examples: the primary and the
    alternatives, separated by semicolons. *)
Fixpoint split_semicolons (s cur : string) : list string :=
  match s with
  | EmptyString => [cur]
  | String c s' =>
      if (Ascii.nat_of_ascii c =? 59)%nat then cur :: split_semicolons s' ""
      else split_semicolons s' (cur +:+ String c "")
  end.

Definition demo_Decode (txt : string) : option Rewrite :=
  match split_semicolons txt "" with
  | p :: alts => Some {| Primary := p; Alternatives := alts |}
  | [] => None
  end.

(** The library of the examples: trimming and lower-casing of ASCII,
    insertion sort, the map's values by increasing key, and a similarity
    that is 1 on equal strings and 0 otherwise. *)
Definition demo_Lib : Lib := {|
  TrimSpace := ascii_TrimSpace;
  ToLower := ascii_ToLower;
  JaroWinkler := fun a b _ _ => if String.eqb a b then F64.one else F64.zero;
  sort_Slice := @insertionSort;
  range_values := fun m => map snd (map_to_list m);
  Quote := fun s => s;
  json_Decode := demo_Decode;
  prompt := "rewrite"
|}.

(** The environment of the examples: the world is the answers the
    provider and the generative model will give, in order; with none
    left, the answer is an error. *)
Definition scripted_Env : Env := {|
  World := (list embed_result * list generate_result)%type;
  embed_answer := fun w _ =>
    match fst w with
    | r :: rs => (r, (rs, snd w))
    | [] => (inr (ExternalError "no answer"), w)
    end;
  generate_answer := fun w _ =>
    match snd w with
    | r :: rs => (r, (fst w, rs))
    | [] => (inr (ExternalError "no answer"), w)
    end
|}.

(** A world where only the embedding provider answers. *)
Definition answers (rs : list embed_result) : @World scripted_Env := (rs, []).

(** The generative model's answer with the text [txt]. *)
Definition says (txt : string) : generate_result :=
  inl (Some {| Candidates := [Some {| CandidateContent := Some {| Parts := [Text txt] |} |}] |}).

(** The vectors [[1]], [[-1]], [[2^100]] and the float32 nearest to the
    square root of 3. *)
Definition vec_one : list float32 := [F32.of_dyadic 1 0].
Definition vec_minus_one : list float32 := [F32.of_dyadic (-1) 0].
Definition vec_huge : list float32 := [F32.of_dyadic 1 100].
Definition vec_sqrt3 : list float32 := [F32.of_dyadic 14529495 (-23)].
(** The vector [[0]], and two parallel vectors whose squares are
    subnormal in float32, [[1.5 * 2^-75]] and [[2^-74]]. *)
Definition vec_zero : list float32 := [F32.of_dyadic 0 0].
Definition vec_tiny : list float32 := [F32.of_dyadic 3 (-76)].
Definition vec_tiny' : list float32 := [F32.of_dyadic 1 (-74)].

Definition mk_product (id : N) (title brand description : string) : Product :=
  {| ID := id; SellerID := 0; CategoryID := 0; Title := title;
     Description := description; Brand := brand; Status := 0; Score := 0 |}.

Definition iphone : Product :=
  mk_product 1 "Apple iPhone 14 Pro" "Apple" "6.1-inch, A16 Bionic, 48MP camera".
Definition galaxy : Product :=
  mk_product 2 "Samsung Galaxy S23" "Samsung" "Dynamic AMOLED 2X, Snapdragon".
Definition blank : Product := mk_product 5 "" " " "".

(** The weights 0.70 and 0.30 of main.go. *)
Definition semW : float64 := F64.of_dyadic 6305039478318694 (-53).
Definition fuzW : float64 := F64.of_dyadic 5404319552844595 (-54).

Definition provider_down : embed_result := inr (ExternalError "unavailable").

(** An index holding [iphone] and [galaxy], built by [Rebuild]. *)
Definition demo_index : Index :=
  index (run (E := scripted_Env) (Rebuild (L := demo_Lib) [iphone; blank; galaxy])
             (answers [inl vec_one; inl vec_minus_one]) (New semW fuzW)).

Definition id_and_score (r : SearchResult) : N * float64 := (ID (product r), score r).

Definition demo_Search (query : string) (topK : Z) (w : list embed_result) (ix : Index)
  : outcome scripted_Env (list SearchResult * option error) :=
  run (E := scripted_Env) (Search (L := demo_Lib) query topK) (answers w) ix.

Definition demo_Rebuild (products : list Product) (w : list embed_result) (ix : Index)
  : outcome scripted_Env (option error) :=
  run (E := scripted_Env) (Rebuild (L := demo_Lib) products) (answers w) ix.

(** An index of three documents, the second with the embedding
    [[2^100]]. *)
Definition pixel : Product :=
  mk_product 3 "Google Pixel 8" "Google" "Tensor G3, excellent camera".
Definition mixed_index : Index :=
  index (demo_Rebuild [galaxy; pixel; iphone]
           [inl vec_one; inl vec_huge; inl vec_one] (New semW fuzW)).

Definition demo_handler (q : string) (topK : Z) (w : @World scripted_Env) (ix : Index)
  : outcome scripted_Env Response :=
  run (E := scripted_Env) (search_handler (L := demo_Lib) q topK) w ix.

(** A world where the rewriter proposes "apple" and the two queries get
    the embeddings [[1]] and [[-1]]. *)
Definition calm_world : @World scripted_Env :=
  ([inl vec_one; inl vec_minus_one], [says "iphone;apple"]).

(** A search and a rebuild interleaved: the search embeds its query, the
    rebuild embeds its item, the search takes the read lock and reads
    the corpus; the rebuild cannot take the lock before the search has
    released it, and the search returns the ranking of the two documents
    of the old corpus. *)
Definition race : machine scripted_Env :=
  boot (L := demo_Lib) [CallSearch "apple" 0; CallRebuild [galaxy]]
       (answers [inl vec_one; inl vec_one]) demo_index.

(* ================================================================== *)
(** * models/product.go and the other handlers of cmd/server/main.go   *)
(* ================================================================== *)

(** A [time.Time]; this code only carries it. *)
Inductive Time : Type := UnixNano (ns : Z).

(** [models.Product], product.go lines 5-16. *)
Module models.
Record Product : Type := {
  ID : N;
  SellerID : N;
  CategoryID : N;
  Title : string;
  Description : string;
  Brand : string;
  Status : Z;
  Score : Z;
  CreatedAt : Time;
  UpdatedAt : Time
}.
End models.

(** [toIndexProducts], main.go lines 179-189. *)
Definition toIndexProducts (ps : list models.Product) : list Product :=
  map (fun p => {| ID := models.ID p; SellerID := models.SellerID p;
                   CategoryID := models.CategoryID p;
                   Title := models.Title p; Description := models.Description p;
                   Brand := models.Brand p;
                   Status := models.Status p; Score := models.Score p |}) ps.

(** [err.Error()]: the texts built by [fmt.Errorf] (index.go lines 69
    and 91) and [errors.New] (rewriter.go line 69); [%d] prints the
    identifier in decimal. *)
Fixpoint Error (e : error) : string :=
  match e with
  | ExternalError msg => msg
  | EmbedProductError id cause => "embed product " +:+ pretty id +:+ ": " +:+ Error cause
  | EmbedQueryError cause => "embed query: " +:+ Error cause
  | EmptyQueryError => "empty query"
  end.

(** What the handlers of [main] call besides: [strconv.Atoi], and the
    decoding of a JSON array of products. *)
Class ServerLib : Type := {
  Atoi : string -> option Z;
  json_Decode_products : string -> option (list models.Product)
}.

(** What a handler does to its [http.ResponseWriter]. *)
Inductive reply : Type :=
| http_Error (error : string) (code : Z)
| w_WriteHeader (code : Z).

Definition MethodPost : string := "POST".
Definition StatusNoContent : Z := 204.
Definition StatusBadRequest : Z := 400.
Definition StatusMethodNotAllowed : Z := 405.
Definition StatusInternalServerError : Z := 500.

(** [url.Values] and its method [Get]: the first value of the key, or
    the empty string. *)
Definition Values : Type := gmap string (list string).

Definition Values_Get (v : Values) (key : string) : string :=
  match v !! key with
  | Some (x :: _) => x
  | _ => ""
  end.

Section Server.
Context {L : Lib} {SL : ServerLib}.

(** [parseIntDefault], main.go lines 160-168. *)
Definition parseIntDefault (s : string) (def : Z) : Z :=
  if String.eqb s "" then def
  else match Atoi s with
       | Some n => n
       | None => def
       end.

(** The handler of [/reindex], main.go lines 64-81, from the method and
    the body of the request. *)
Definition reindex_handler (method body : string) : prog reply :=
  if negb (String.eqb method MethodPost) then
    Ret (http_Error "POST only" StatusMethodNotAllowed)
  else
    match json_Decode_products body with
    | None => Ret (http_Error "invalid JSON" StatusBadRequest)
    | Some products =>
        err <- Rebuild (toIndexProducts products) ;;
        match err with
        | Some err => Ret (http_Error (Error err) StatusInternalServerError)
        | None => Ret (w_WriteHeader StatusNoContent)
        end
    end.

(** The handler of [/search], main.go lines 84-146, from the query
    parameters of the request. *)
Definition search_endpoint (query : Values) : prog Response :=
  let q := Values_Get query "q" in
  let topK := parseIntDefault (Values_Get query "topK") 10 in
  search_handler q topK.

End Server.

(** The requests to the generative model among the events, with their
    answers. *)
Definition generate_requests (tr : list event) : list (list string * generate_result) :=
  omap (fun e => match e with EvGenerateContent parts r => Some (parts, r) | _ => None end) tr.

(** The read locks taken among the events. *)
Definition read_lock_count (tr : list event) : nat :=
  length (List.filter (fun e => match e with EvRLock => true | _ => false end) tr).

(** The library of the examples, for the handlers: decimal digits for
    [Atoi], and a body that lists product titles separated by
    semicolons. *)
Fixpoint digits_value (s : string) (acc : Z) : option Z :=
  match s with
  | EmptyString => Some acc
  | String c s' =>
      let n := Ascii.nat_of_ascii c in
      if ((48 <=? n) && (n <=? 57))%nat
      then digits_value s' (10 * acc + Z.of_nat (n - 48))
      else None
  end.

Definition demo_ServerLib : ServerLib := {|
  Atoi := fun s => digits_value s 0;
  json_Decode_products := fun body =>
    if String.eqb body "" then None
    else Some (imap (fun i title =>
                       {| models.ID := N.of_nat (S i); models.SellerID := 0;
                          models.CategoryID := 0; models.Title := title;
                          models.Description := ""; models.Brand := "";
                          models.Status := 0; models.Score := 0;
                          models.CreatedAt := UnixNano 0; models.UpdatedAt := UnixNano 0 |})
                    (split_semicolons body ""))
|}.

(** The library of the examples with a decoder that, like
    [encoding/json], refuses an empty text. *)
Definition strict_Lib : Lib := {|
  TrimSpace := ascii_TrimSpace;
  ToLower := ascii_ToLower;
  JaroWinkler := fun a b _ _ => if String.eqb a b then F64.one else F64.zero;
  sort_Slice := @insertionSort;
  range_values := fun m => map snd (map_to_list m);
  Quote := fun s => s;
  json_Decode := fun txt => if String.eqb txt "" then None else demo_Decode txt;
  prompt := "rewrite"
|}.

(* ================================================================== *)
(** * Theorems                                                         *)
(* ================================================================== *)

(** ** Order of float64 values *)

Ltac float_cases :=
  unfold F64.gtb, F64.geb, F64.ltb, F64.leb, F64.eqb, F64.is_nan,
         SFltb, SFleb, SFeqb, SFcompare;
  repeat match goal with
  | x : float64 |- _ => destruct x as [[]|[]| |[] ? ?]
  | x : spec_float |- _ => destruct x as [[]|[]| |[] ? ?]
  end; simpl;
  change (Pos.compare_cont Eq) with Pos.compare;
  repeat match goal with
  | |- context [Z.compare ?a ?b] => destruct (Z.compare_spec a b); simpl
  | |- context [Pos.compare ?a ?b] => destruct (Pos.compare_spec a b); simpl
  end;
  try (intros; subst; first [ reflexivity | discriminate | congruence | lia ]).

Lemma gtb_irrefl (x : float64) : F64.gtb x x = false.
Proof. float_cases. Qed.

Lemma gtb_trans (x y z : float64) :
  F64.gtb x y = true -> F64.gtb y z = true -> F64.gtb x z = true.
Proof. float_cases. Qed.

Lemma gtb_negtrans (x y z : float64) :
  F64.is_nan y = false ->
  F64.gtb x y = false -> F64.gtb y z = false -> F64.gtb x z = false.
Proof. float_cases. Qed.

Lemma not_gtb_geb (x y : float64) :
  F64.is_nan x = false -> F64.is_nan y = false ->
  F64.gtb y x = false -> F64.geb x y = true.
Proof. float_cases. Qed.

Lemma gtb_geb (x y : float64) : F64.gtb x y = true -> F64.geb x y = true.
Proof. float_cases. Qed.

Lemma geb_refl (x : float64) : F64.is_nan x = false -> F64.geb x x = true.
Proof. float_cases. Qed.

Lemma geb_trans (x y z : float64) :
  F64.geb x y = true -> F64.geb y z = true -> F64.geb x z = true.
Proof. float_cases. Qed.

Lemma geb_not_nan (x y : float64) :
  F64.geb x y = true -> F64.is_nan x = false /\ F64.is_nan y = false.
Proof. float_cases; intros; split; reflexivity || discriminate. Qed.

Lemma geb_nan_l (y : float64) : F64.geb F64.nan y = false.
Proof. float_cases. Qed.

Lemma geb_nan_r (x : float64) : F64.geb x F64.nan = false.
Proof. float_cases. Qed.

(** ** [math.Max] and [max3] *)

Lemma math_Max_choice (x y : float64) : math_Max x y = x \/ math_Max x y = y.
Proof.
  destruct x as [[]|[]| |[] mx ex], y as [[]|[]| |[] my ey]; simpl; auto;
    match goal with |- context [if ?c then _ else _] => destruct c; auto end.
Qed.

Lemma math_Max_not_nan (x y : float64) :
  F64.is_nan x = false -> F64.is_nan y = false -> F64.is_nan (math_Max x y) = false.
Proof.
  intros Hx Hy. destruct (math_Max_choice x y) as [-> | ->]; assumption.
Qed.

Lemma math_Max_upper (x y : float64) :
  F64.is_nan x = false -> F64.is_nan y = false ->
  F64.geb (math_Max x y) x = true /\ F64.geb (math_Max x y) y = true.
Proof.
  unfold math_Max.
  destruct x as [[]|[]| |[] mx ex], y as [[]|[]| |[] my ey]; simpl;
    try discriminate; intros _ _;
    repeat match goal with
    | |- context [if F64.gtb ?a ?b then _ else _] => destruct (F64.gtb a b) eqn:E
    end;
    split;
    first [ reflexivity
          | apply geb_refl; reflexivity
          | apply gtb_geb; assumption
          | apply not_gtb_geb; [reflexivity | reflexivity | assumption] ].
Qed.

Lemma max3_choice (a b c : float64) :
  max3 a b c = a \/ max3 a b c = b \/ max3 a b c = c.
Proof.
  unfold max3. destruct (math_Max_choice a (math_Max b c)) as [-> | ->]; auto.
  destruct (math_Max_choice b c) as [-> | ->]; auto.
Qed.

Lemma max3_upper (a b c : float64) :
  F64.is_nan a = false -> F64.is_nan b = false -> F64.is_nan c = false ->
  F64.geb (max3 a b c) a = true /\
  F64.geb (max3 a b c) b = true /\
  F64.geb (max3 a b c) c = true.
Proof.
  intros Ha Hb Hc. unfold max3.
  pose proof (math_Max_not_nan b c Hb Hc) as Hbc.
  destruct (math_Max_upper a _ Ha Hbc) as [H1 H2].
  destruct (math_Max_upper b c Hb Hc) as [H3 H4].
  repeat split; eauto using geb_trans.
Qed.

(** ** Cosine similarity *)






(** *** Signs *)















(** *** Zero magnitudes *)





Lemma example_vectors_valid :
  forallb F32.valid (vec_one ++ vec_minus_one ++ vec_huge ++ vec_sqrt3
                       ++ vec_zero ++ vec_tiny ++ vec_tiny') = true.
Proof. reflexivity. Qed.

(** On IEEE floats the quotient leaves [[-1,1]] by rounding, and is NaN
    once a product of components overflows float32. *)
Lemma cosine_above_one :
  cosine vec_sqrt3 vec_sqrt3 = F64.of_dyadic 4503599627370497 (-52) /\
  F64.gtb (cosine vec_sqrt3 vec_sqrt3) F64.one = true.
Proof. vm_compute. split; reflexivity. Qed.

Lemma cosine_nan : cosine vec_huge vec_huge = F64.nan.
Proof. vm_compute. reflexivity. Qed.



(** ** Running a call alone *)

Section Sequential.
Context {L : Lib} {E : Env}.

Lemma run_bind {A B : Type} (p : prog A) (f : A -> prog B) (w : World) (ix : Index) :
  run (bind p f) w ix =
    {| result := result (run (f (result (run p w ix))) (world (run p w ix)) (index (run p w ix)));
       world := world (run (f (result (run p w ix))) (world (run p w ix)) (index (run p w ix)));
       index := index (run (f (result (run p w ix))) (world (run p w ix)) (index (run p w ix)));
       trace := trace (run p w ix) ++
                trace (run (f (result (run p w ix))) (world (run p w ix)) (index (run p w ix))) |}.
Proof.
  revert w ix.
  induction p as [a | text k IH | parts k IH | k IH | k IH | k IH | k IH
                 | k IH | k IH | k IH | ds k IH]; intros w ix; simpl.
  - now destruct (run (f a) w ix).
  - destruct (embed_answer w text) as [r w']. now rewrite IH.
  - destruct (generate_answer w parts) as [r w']. now rewrite IH.
  - now rewrite IH.
  - now rewrite IH.
  - now rewrite IH.
  - now rewrite IH.
  - now rewrite IH.
  - now rewrite IH.
  - now rewrite IH.
  - now rewrite IH.
Qed.

Lemma embed_requests_app (t1 t2 : list event) :
  embed_requests (t1 ++ t2) = embed_requests t1 ++ embed_requests t2.
Proof. unfold embed_requests. apply omap_app. Qed.

(** *** [Rebuild] *)

Lemma embed_requests_events (rs : list (string * embed_result)) :
  embed_requests (map request_event rs) = rs.
Proof.
  induction rs as [|[t r] rs IH]; simpl; [reflexivity|].
  unfold embed_requests in *. simpl. now rewrite IH.
Qed.

Lemma surviving_app (l1 l2 : list Product) :
  surviving (l1 ++ l2) = surviving l1 ++ surviving l2.
Proof. unfold surviving. apply filter_app. Qed.

Lemma surviving_cons_empty (p : Product) (l : list Product) :
  joined p = "" -> surviving (p :: l) = surviving l.
Proof.
  intros H. unfold surviving. rewrite filter_cons.
  destruct (decide (joined p <> "")) as [n|_]; [contradiction|reflexivity].
Qed.

Lemma surviving_cons_keep (p : Product) (l : list Product) :
  joined p <> "" -> surviving (p :: l) = p :: surviving l.
Proof.
  intros H. unfold surviving. rewrite filter_cons.
  destruct (decide (joined p <> "")) as [_|n]; [reflexivity|contradiction].
Qed.

Lemma Rebuild_loop_run (products : list Product) :
  forall (docs : list productDoc) (w : World) (ix : Index),
    Rebuild_loop_ends products docs ix (run (Rebuild_loop products docs) w ix).
Proof.
  induction products as [|p products IH]; intros docs w ix.
  - simpl. apply loop_completes with (new := []); simpl; auto.
    + now rewrite app_nil_r.
    + constructor.
  - cbn [Rebuild_loop].
    destruct (String.eqb_spec (joined p) "") as [Hp | Hp].
    + destruct (IH docs w ix) as [new H1 H2 H3 H4 H5 | before after p' cause new H1 H2 H3 H4 H5 H6 H7].
      * apply loop_completes with (new := new); auto.
        now rewrite surviving_cons_empty.
      * apply loop_fails with (before := p :: before) (after := after) (p := p')
                              (cause := cause) (new := new); auto.
        -- now rewrite H2.
        -- now rewrite surviving_cons_empty.
    + simpl. destruct (embed_answer w (joined p)) as [[values | err] w'].
      * set (d := {| P := p; Embedding := values; SearchText := joined p |}).
        destruct (IH (docs ++ [d]) w' ix)
          as [new H1 H2 H3 H4 H5 | before after p' cause new H1 H2 H3 H4 H5 H6 H7].
        -- apply loop_completes with (new := d :: new); simpl; auto.
           ++ rewrite H1. f_equal. now rewrite <- app_assoc.
           ++ rewrite surviving_cons_keep by assumption. now f_equal.
           ++ constructor; [split; [reflexivity | exact Hp] | exact H3].
           ++ now rewrite H4.
        -- apply loop_fails with (before := p :: before) (after := after) (p := p')
                                 (cause := cause) (new := d :: new); simpl; auto.
           ++ now rewrite H2.
           ++ rewrite surviving_cons_keep by assumption. now f_equal.
           ++ constructor; [split; [reflexivity | exact Hp] | exact H5].
           ++ now rewrite H6.
      * apply loop_fails with (before := []) (after := products) (p := p)
                              (cause := err) (new := []); simpl; auto.
        constructor.
Qed.

Lemma Rebuild_run (products : list Product) (w : World) (ix : Index) :
  Rebuild_ends products ix (run (Rebuild products) w ix).
Proof.
  unfold Rebuild. rewrite run_bind.
  destruct (Rebuild_loop_run products [] w ix)
    as [new H1 H2 H3 H4 H5 | before after p cause new H1 H2 H3 H4 H5 H6 H7].
  - rewrite H1. simpl. rewrite H5.
    apply Rebuild_succeeds with (new := new); simpl; auto.
    now rewrite H4.
  - rewrite H1. simpl.
    apply Rebuild_fails with (before := before) (after := after) (p := p)
                             (cause := cause) (new := new); simpl; auto.
    now rewrite app_nil_r.
Qed.

(** *** [Search] *)

Lemma Search_loop_run (q : string) (qVec : list float32) (ds : list productDoc) :
  forall (results : list SearchResult) (w : World) (ix : Index),
    run (Search_loop q qVec ds results) w ix =
      {| result := results ++ map (score_doc (semanticWeight ix) (fuzzyWeight ix) q qVec) ds;
         world := w; index := ix; trace := weight_reads ds |}.
Proof.
  induction ds as [|d ds IH]; intros results w ix; simpl.
  - now rewrite app_nil_r.
  - rewrite IH. unfold logged. simpl. now rewrite <- app_assoc.
Qed.

Lemma Search_run (query : string) (topK : Z) (w : World) (ix : Index) :
  Search_ends query topK w ix (run (Search query topK) w ix).
Proof.
  unfold Search.
  destruct (String.eqb_spec (TrimSpace query) "") as [Hq | Hq].
  - now apply Search_of_nothing.
  - simpl. destruct (embed_answer w (TrimSpace query)) as [[qVec | err] w'] eqn:Ea.
    + apply Search_ranks with (qVec := qVec) (w' := w'); auto.
      simpl. rewrite run_bind, Search_loop_run. reflexivity.
    + apply Search_fails with (err := err) (w' := w'); auto.
Qed.

Lemma truncate_length (topK : Z) (l : list SearchResult) :
  (length (truncate topK l) <= length l)%nat /\
  (0 < topK -> Z.of_nat (length (truncate topK l)) <= topK).
Proof.
  unfold truncate.
  destruct (Z.ltb_spec 0 topK) as [H0 | H0];
    destruct (Z.ltb_spec topK (Z.of_nat (length l))) as [H1 | H1]; simpl;
    rewrite ?length_firstn; lia.
Qed.

Lemma truncate_all (topK : Z) (l : list SearchResult) :
  topK <= 0 -> truncate topK l = l.
Proof.
  intros H. unfold truncate.
  destruct (Z.ltb_spec 0 topK); [lia | reflexivity].
Qed.

Lemma truncate_prefix (topK : Z) (l : list SearchResult) :
  exists rest, l = truncate topK l ++ rest.
Proof.
  unfold truncate. destruct (_ && _).
  - exists (skipn (Z.to_nat topK) l). now rewrite firstn_skipn.
  - exists []. now rewrite app_nil_r.
Qed.

Lemma truncate_In (topK : Z) (l : list SearchResult) (r : SearchResult) :
  In r (truncate topK l) -> In r l.
Proof.
  destruct (truncate_prefix topK l) as [rest H]. intros Hr.
  rewrite H. apply in_or_app. now left.
Qed.

Lemma StronglySorted_prefix {A : Type} (R : A -> A -> Prop) (l1 l2 : list A) :
  StronglySorted R (l1 ++ l2) -> StronglySorted R l1.
Proof.
  induction l1 as [|x l1 IH]; simpl; intros H.
  - constructor.
  - inversion H as [|? ? Hs Hf]; subst. constructor.
    + now apply IH.
    + rewrite Forall_app in Hf. tauto.
Qed.

Lemma truncate_sorted (topK : Z) (l : list SearchResult) :
  sorted_desc l -> sorted_desc (truncate topK l).
Proof.
  unfold sorted_desc. destruct (truncate_prefix topK l) as [rest H].
  intros Hs. rewrite H in Hs. now apply StronglySorted_prefix in Hs.
Qed.

Lemma by_score_desc_ordering (l : list SearchResult) :
  no_nan_score l -> transitive_ordering by_score_desc l.
Proof.
  unfold no_nan_score. rewrite List.Forall_forall. intros H.
  unfold transitive_ordering, by_score_desc. repeat split.
  - intros x _. apply gtb_irrefl.
  - intros x y z _ _ _. apply gtb_trans.
  - intros x y z _ Hy _. apply gtb_negtrans. now apply H.
Qed.

(** Sorting orders the scores when none of them is NaN. *)
Lemma sort_by_score_sorted {HL : LibLaws L} (l : list SearchResult) :
  no_nan_score l -> sorted_desc (sort_Slice by_score_desc l).
Proof.
  intros Hn.
  pose proof (sort_Slice_Sorted _ by_score_desc l (by_score_desc_ordering l Hn)) as Hs.
  assert (Hn' : no_nan_score (sort_Slice by_score_desc l)).
  { unfold no_nan_score in *.
    eapply Permutation_Forall; [|exact Hn].
    symmetry. apply sort_Slice_Permutation. }
  unfold sorted_desc, no_nan_score in *.
  induction Hs as [|x s Hs IH Hx]; [constructor|].
  inversion Hn' as [|? ? Hnx Hns]; subst.
  constructor; [now apply IH|].
  rewrite List.Forall_forall in *. intros y Hy.
  apply not_gtb_geb; auto. apply (Hx y Hy).
Qed.

End Sequential.

(** ** The library of the examples meets the laws *)

Lemma insertion_ins_Permutation {A : Type} (less : A -> A -> bool) (x : A) (l : list A) :
  Permutation (insertion_ins less x l) (x :: l).
Proof.
  induction l as [|y l IH]; simpl; [reflexivity|].
  destruct (less x y); [|reflexivity].
  rewrite IH. apply perm_swap.
Qed.

Lemma insertion_fold_Permutation {A : Type} (less : A -> A -> bool) (l : list A) :
  forall acc, Permutation (fold_left (fun acc x => insertion_ins less x acc) l acc)
                          (l ++ acc).
Proof.
  induction l as [|x l IH]; intros acc; simpl; [reflexivity|].
  rewrite IH, insertion_ins_Permutation. symmetry. apply Permutation_middle.
Qed.

Lemma insertionSort_Permutation {A : Type} (less : A -> A -> bool) (l : list A) :
  Permutation (insertionSort less l) l.
Proof.
  unfold insertionSort. rewrite <- Permutation_rev, insertion_fold_Permutation.
  now rewrite app_nil_r.
Qed.

Lemma insertion_ins_sorted {A : Type} (less : A -> A -> bool) (all : list A)
    (x : A) (l : list A) :
  transitive_ordering less all ->
  In x all -> incl l all ->
  StronglySorted (fun a b => less a b = false) l ->
  StronglySorted (fun a b => less a b = false) (insertion_ins less x l).
Proof.
  intros (Hirr & Htr & Hneg) Hx.
  induction l as [|y l IH]; simpl; intros Hl Hs.
  - repeat constructor.
  - assert (Hy : In y all) by (apply Hl; now left).
    assert (Hl' : incl l all) by (intros z Hz; apply Hl; now right).
    inversion Hs as [|? ? Hs' Hall]; subst.
    destruct (less x y) eqn:Exy.
    + constructor; [now apply IH|].
      eapply Permutation_Forall;
        [symmetry; apply insertion_ins_Permutation|].
      constructor; [|exact Hall].
      destruct (less y x) eqn:Eyx; [|reflexivity].
      rewrite <- (Hirr x Hx). symmetry. now apply (Htr x y x).
    + constructor; [exact Hs|].
      constructor; [exact Exy|].
      rewrite List.Forall_forall in *. intros z Hz.
      apply (Hneg x y z); auto.
Qed.

Lemma StronglySorted_snoc {A : Type} (R : A -> A -> Prop) (l : list A) (x : A) :
  StronglySorted R l -> Forall (fun y => R y x) l -> StronglySorted R (l ++ [x]).
Proof.
  induction 1 as [|y l Hs IH Hy]; simpl; intros Hx.
  - repeat constructor.
  - inversion Hx; subst. constructor; [now apply IH|].
    rewrite Forall_app. split; [exact Hy | now constructor].
Qed.

Lemma StronglySorted_rev {A : Type} (R : A -> A -> Prop) (l : list A) :
  StronglySorted R l -> StronglySorted (fun x y => R y x) (rev l).
Proof.
  induction 1 as [|x l Hs IH Hx]; simpl; [constructor|].
  apply StronglySorted_snoc; [exact IH|].
  rewrite List.Forall_forall in *. intros y Hy. apply Hx. now apply in_rev.
Qed.

Lemma insertionSort_Sorted {A : Type} (less : A -> A -> bool) (l : list A) :
  transitive_ordering less l ->
  StronglySorted (fun x y => less y x = false) (insertionSort less l).
Proof.
  intros Hord. unfold insertionSort.
  apply (StronglySorted_rev (fun a b => less a b = false)).
  assert (H : forall todo acc,
             incl todo l -> incl acc l ->
             StronglySorted (fun a b => less a b = false) acc ->
             StronglySorted (fun a b => less a b = false)
               (fold_left (fun acc x => insertion_ins less x acc) todo acc)).
  { induction todo as [|x todo IH]; intros acc Ht Ha Hs; simpl; [exact Hs|].
    assert (Hx : In x l) by (apply Ht; now left).
    apply IH.
    - intros z Hz. apply Ht. now right.
    - intros z Hz.
      apply (Permutation_in _ (insertion_ins_Permutation less x acc)) in Hz.
      destruct Hz as [<- | Hz]; auto.
    - now apply (insertion_ins_sorted less l). }
  apply H; [apply incl_refl | intros z [] | constructor].
Qed.

Lemma demo_LibLaws : LibLaws demo_Lib.
Proof.
  constructor.
  - intros A less l. apply insertionSort_Permutation.
  - intros A less l. apply insertionSort_Sorted.
  - intros m. reflexivity.
Qed.

(** ** [Rebuild] and [Search] run alone *)

Section IndexProperties.
Context {L : Lib} {E : Env}.


(** C8: a query that trims to the empty string gets the empty list and
    no error; the call performs no event at all (no embedding request),
    and leaves the world and the index as they were, whatever the limit
    and the corpus. *)
Theorem Search_empty_query (query : string) (topK : Z) (w : World) (ix : Index) :
  TrimSpace query = "" ->
  run (Search query topK) w ix =
    {| result := ([], None); world := w; index := ix; trace := [] |}.
Proof.
  intros Hq. unfold Search. now rewrite Hq.
Qed.

Lemma Search_index (query : string) (topK : Z) (w : World) (ix : Index) :
  index (run (Search query topK) w ix) = ix.
Proof.
  now destruct (Search_run query topK w ix) as [Hq -> | err w' Hq He -> | qVec w' Hq He ->].
Qed.

(** C10: [Search] leaves the index as it found it, the document slice
    (every item, embedding and search text) and both weights, whether it
    returns results or an error; none of its events writes the corpus. *)
Theorem Search_keeps_index (query : string) (topK : Z) (w : World) (ix : Index) :
  index (run (Search query topK) w ix) = ix /\
  docs (index (run (Search query topK) w ix)) = docs ix /\
  semanticWeight (index (run (Search query topK) w ix)) = semanticWeight ix /\
  fuzzyWeight (index (run (Search query topK) w ix)) = fuzzyWeight ix /\
  Forall (fun e => forall ds, e <> EvSetDocs ds) (trace (run (Search query topK) w ix)).
Proof.
  destruct (Search_run query topK w ix) as [Hq -> | err w' Hq He -> | qVec w' Hq He ->];
    simpl; repeat split; repeat constructor; try discriminate.
  rewrite Forall_app. split.
  - unfold weight_reads. induction (docs ix); simpl; repeat constructor;
      try discriminate; assumption.
  - repeat constructor. discriminate.
Qed.

(** C3: for a query that does not trim to empty and whose embedding is
    [qVec], the loop gives each document of the corpus, in order, a
    result holding the document's product, the cosine of [qVec] and the
    document's embedding, and as fuzzy sub-score the [max3] of the three
    similarities [smetrics.JaroWinkler] gives, with boost threshold 0.7
    and prefix size 4, between the query and the title, the brand and
    the description, each side trimmed and lower-cased; the combined
    score is semanticWeight * semantic + fuzzyWeight * fuzzy.  [Search]
    returns these results unchanged, sorted and cut at the limit.  The
    threshold is the float64 nearest to 7/10 (within half a unit in the
    last place, [2^-54]).  [max3] is one of its arguments and, when none
    is NaN, not below any. *)
Theorem Search_combined_score {HL : LibLaws L}
    (query : string) (topK : Z) (w w' : World) (ix : Index) (qVec : list float32) :
  TrimSpace query <> "" ->
  embed_answer w (TrimSpace query) = (inl qVec, w') ->
  exists results sorted : list SearchResult,
    Forall2 (fun d r =>
               product r = P d /\
               semantic (why r) = cosine qVec (Embedding d) /\
               fuzzy (why r) =
                 max3 (JaroWinkler (ToLower (TrimSpace (TrimSpace query)))
                                   (ToLower (TrimSpace (Title (P d))))
                                   (S754_finite false 6305039478318694 (-53)) 4)
                      (JaroWinkler (ToLower (TrimSpace (TrimSpace query)))
                                   (ToLower (TrimSpace (Brand (P d))))
                                   (S754_finite false 6305039478318694 (-53)) 4)
                      (JaroWinkler (ToLower (TrimSpace (TrimSpace query)))
                                   (ToLower (TrimSpace (Description (P d))))
                                   (S754_finite false 6305039478318694 (-53)) 4) /\
               score r = F64.add (F64.mul (semanticWeight ix) (semantic (why r)))
                                 (F64.mul (fuzzyWeight ix) (fuzzy (why r))))
            (docs ix) results /\
    Permutation sorted results /\
    result (run (Search query topK) w ix) = (truncate topK sorted, None) /\
    (forall r, In r (fst (result (run (Search query topK) w ix))) -> In r results) /\
    (boostThreshold = S754_finite false 6305039478318694 (-53) /\
     F64.valid boostThreshold = true /\
     Z.abs (10 * 6305039478318694 - 7 * 2 ^ 53) <= 5) /\
    (forall a b c : float64,
        (max3 a b c = a \/ max3 a b c = b \/ max3 a b c = c) /\
        (F64.is_nan a = false -> F64.is_nan b = false -> F64.is_nan c = false ->
         F64.geb (max3 a b c) a = true /\
         F64.geb (max3 a b c) b = true /\
         F64.geb (max3 a b c) c = true)).
Proof.
  intros Hq He.
  exists (scored ix (TrimSpace query) qVec),
         (sort_Slice by_score_desc (scored ix (TrimSpace query) qVec)).
  assert (Hrun : result (run (Search query topK) w ix) =
                 (truncate topK (sort_Slice by_score_desc
                                   (scored ix (TrimSpace query) qVec)), None)).
  { destruct (Search_run query topK w ix)
      as [Hq' _ | err w1 _ He' _ | qVec1 w1 _ He' ->]; [contradiction | congruence |].
    simpl. congruence. }
  split; [|split; [|split; [|split; [|split]]]].
  - unfold scored. induction (docs ix) as [|d ds IH]; simpl; constructor; auto.
  - apply sort_Slice_Permutation.
  - exact Hrun.
  - rewrite Hrun. simpl. intros r Hr. apply truncate_In in Hr.
    eapply Permutation_in; [apply sort_Slice_Permutation | exact Hr].
  - repeat split. vm_compute. discriminate.
  - intros a b c. split; [apply max3_choice | apply max3_upper].
Qed.

(** C7, amended: the list [Search] returns is never longer than the
    corpus, and never longer than a positive limit; under a limit of
    zero or less it holds exactly the results of the scoring loop, one
    per document, provided the query does not trim to empty and its
    embedding request succeeds (otherwise the list is empty); it is in
    non-increasing order of combined score provided no combined score of
    the corpus is NaN. *)
Theorem Search_length_and_order {HL : LibLaws L}
    (query : string) (topK : Z) (w : World) (ix : Index) :
  (0 < topK ->
     Z.of_nat (length (fst (result (run (Search query topK) w ix)))) <= topK) /\
  (length (fst (result (run (Search query topK) w ix))) <= length (docs ix))%nat /\
  (topK <= 0 ->
     forall qVec w', TrimSpace query <> "" ->
       embed_answer w (TrimSpace query) = (inl qVec, w') ->
       Permutation (fst (result (run (Search query topK) w ix)))
                   (scored ix (TrimSpace query) qVec) /\
       length (fst (result (run (Search query topK) w ix))) = length (docs ix)) /\
  ((forall qVec w', embed_answer w (TrimSpace query) = (inl qVec, w') ->
                    no_nan_score (scored ix (TrimSpace query) qVec)) ->
   sorted_desc (fst (result (run (Search query topK) w ix)))).
Proof.
  destruct (Search_run query topK w ix) as [Hq -> | err w' Hq He -> | qVec w' Hq He ->];
    simpl.
  - repeat split; try lia; try constructor; intros; contradiction.
  - repeat split; try lia; try constructor; intros; congruence.
  - set (all := scored ix (TrimSpace query) qVec).
    assert (Hlen : length (sort_Slice by_score_desc all) = length (docs ix)).
    { rewrite (Permutation_length (sort_Slice_Permutation _ by_score_desc all)).
      unfold all, scored. apply length_map. }
    pose proof (truncate_length topK (sort_Slice by_score_desc all)) as [Hl1 Hl2].
    split; [exact Hl2|]. split; [lia|]. split.
    + intros Hk qVec1 w1 _ He1. rewrite truncate_all by assumption.
      assert (qVec1 = qVec) by congruence. subst qVec1.
      split; [apply sort_Slice_Permutation | exact Hlen].
    + intros Hn. apply truncate_sorted, sort_by_score_sorted. eapply Hn, He.
Qed.

(** Every reachable corpus is one built by [Rebuild]. *)
Lemma Rebuild_corpus_ok (products : list Product) (w : World) (ix : Index) :
  corpus_ok (docs ix) -> corpus_ok (docs (index (run (Rebuild products) w ix))).
Proof.
  intros Hok.
  destruct (Rebuild_run products w ix)
    as [new H1 H2 H3 H4 H5 | before after p cause new H1 H2 H3 H4 Hc H5 H6].
  - now rewrite H5.
  - now rewrite H6.
Qed.

Lemma later_corpus_ok (ix ix' : Index) :
  corpus_ok (docs ix) -> later ix ix' -> corpus_ok (docs ix').
Proof.
  intros Hok. induction 1 as [|ix' products w _ IH | ix' query topK w _ IH].
  - exact Hok.
  - now apply Rebuild_corpus_ok.
  - now rewrite Search_index.
Qed.

Lemma Search_results_from_corpus {HL : LibLaws L}
    (query : string) (topK : Z) (w : World) (ix : Index) (r : SearchResult) :
  In r (fst (result (run (Search query topK) w ix))) ->
  exists d, In d (docs ix) /\ product r = P d.
Proof.
  destruct (Search_run query topK w ix) as [Hq -> | err w' Hq He -> | qVec w' Hq He ->];
    simpl; try contradiction.
  intros Hr. apply truncate_In in Hr.
  apply (Permutation_in _ (sort_Slice_Permutation _ _ _)) in Hr.
  unfold scored in Hr. apply in_map_iff in Hr. destruct Hr as (d & <- & Hd).
  exists d. now split.
Qed.

(** C6, amended: an input item whose search text is empty is no document
    of the corpus after [Rebuild], the corpus before the call being one
    built by [Rebuild]; no embedding request of the call carries its
    text, and the call makes no more requests than there are items with
    a non-empty text; no [Search] on the index, then or after further
    calls, returns the item; and when [Rebuild] succeeds, the corpus is
    the items with a non-empty text, fewer than the input. *)
Theorem Rebuild_skips_empty_text {HL : LibLaws L}
    (products : list Product) (p : Product) (w : World) (ix : Index) :
  corpus_ok (docs ix) ->
  In p products ->
  joined p = "" ->
  Forall (fun d => P d <> p) (docs (index (run (Rebuild products) w ix))) /\
  Forall (fun request => fst request <> joined p /\ fst request <> "")
         (embed_requests (trace (run (Rebuild products) w ix))) /\
  (length (embed_requests (trace (run (Rebuild products) w ix)))
     <= length (surviving products))%nat /\
  (result (run (Rebuild products) w ix) = None ->
     map P (docs (index (run (Rebuild products) w ix))) = surviving products /\
     (length (docs (index (run (Rebuild products) w ix))) < length products)%nat) /\
  (forall ix', later (index (run (Rebuild products) w ix)) ix' ->
     forall query topK w' r,
       In r (fst (result (run (Search query topK) w' ix'))) -> product r <> p).
Proof.
  intros Hok Hin Hp.
  pose proof (Rebuild_corpus_ok products w ix Hok) as Hok'.
  assert (Hnot : forall ds, corpus_ok ds -> Forall (fun d => P d <> p) ds).
  { intros ds H. unfold corpus_ok in H. rewrite List.Forall_forall in *.
    intros d Hd Heq. destruct (H d Hd) as [_ Hne]. apply Hne. now rewrite Heq. }
  assert (Hreq : forall new : list productDoc, corpus_ok new ->
            Forall (fun request : string * embed_result =>
                      fst request <> joined p /\ fst request <> "")
                   (map request_of new)).
  { intros new H. unfold corpus_ok in H. rewrite List.Forall_forall in *.
    intros rq Hrq. apply in_map_iff in Hrq. destruct Hrq as (d & <- & Hd).
    destruct (H d Hd) as [Hs Hne]. simpl. rewrite Hp, Hs. now split. }
  assert (Hlt : (length (surviving products) < length products)%nat).
  { apply in_split in Hin. destruct Hin as (l1 & l2 & ->).
    rewrite surviving_app, surviving_cons_empty by assumption.
    rewrite !length_app. simpl. unfold surviving.
    pose proof (length_filter (fun p => joined p <> "") l1).
    pose proof (length_filter (fun p => joined p <> "") l2). lia. }
  assert (Hlater : forall ix', later (index (run (Rebuild products) w ix)) ix' ->
     forall query topK w' r,
       In r (fst (result (run (Search query topK) w' ix'))) -> product r <> p).
  { intros ix' Hl query topK w' r Hr.
    destruct (Search_results_from_corpus query topK w' ix' r Hr) as (d & Hd & ->).
    pose proof (later_corpus_ok _ _ Hok' Hl) as Hc.
    apply Hnot in Hc. rewrite List.Forall_forall in Hc. now apply Hc. }
  split; [now apply Hnot|].
  split; [|split; [|split; [|exact Hlater]]]; clear Hlater;
    destruct (Rebuild_run products w ix)
      as [new H1 H2 H3 H4 H5 | before after p' cause new H1 H2 H3 H4 Hc H5 H6].
  - rewrite H4, embed_requests_app, embed_requests_events. simpl.
    rewrite app_nil_r. now apply Hreq.
  - rewrite H5, embed_requests_events, Forall_app. split; [now apply Hreq|].
    constructor; [|constructor]. simpl. rewrite Hp. split; exact H3.
  - rewrite H4, embed_requests_app, embed_requests_events. simpl.
    rewrite app_nil_r, length_map, <- (length_map P new), H2. lia.
  - rewrite H5, embed_requests_events, length_app, length_map.
    rewrite <- (length_map P new), H4.
    rewrite H2, surviving_app, surviving_cons_keep, length_app by assumption.
    simpl. lia.
  - intros _. rewrite H5. simpl. split; [exact H2|].
    now rewrite <- (length_map P new), H2.
  - rewrite H1. discriminate.
Qed.

End IndexProperties.

(** ** Examples of the theorems *)


Lemma Search_empty_query_witness :
  TrimSpace (Lib := demo_Lib) "  " = "" /\
  demo_Search "  " 10 [inl vec_one] demo_index =
    Build_outcome scripted_Env _ ([], None) (answers [inl vec_one]) demo_index [].
Proof.
  split; [reflexivity|].
  apply (@Search_empty_query demo_Lib scripted_Env "  " 10
           (answers [inl vec_one]) demo_index).
  reflexivity.
Defined.

Lemma Search_combined_score_witness :
  exists results sorted : list SearchResult,
    Forall2 (fun d r =>
               product r = P d /\
               semantic (why r) = cosine vec_one (Embedding d) /\
               fuzzy (why r) =
                 max3 (JaroWinkler (Lib := demo_Lib) "apple"
                                   (ToLower (Lib := demo_Lib)
                                      (TrimSpace (Lib := demo_Lib) (Title (P d))))
                                   (S754_finite false 6305039478318694 (-53)) 4)
                      (JaroWinkler (Lib := demo_Lib) "apple"
                                   (ToLower (Lib := demo_Lib)
                                      (TrimSpace (Lib := demo_Lib) (Brand (P d))))
                                   (S754_finite false 6305039478318694 (-53)) 4)
                      (JaroWinkler (Lib := demo_Lib) "apple"
                                   (ToLower (Lib := demo_Lib)
                                      (TrimSpace (Lib := demo_Lib) (Description (P d))))
                                   (S754_finite false 6305039478318694 (-53)) 4) /\
               score r = F64.add (F64.mul semW (semantic (why r)))
                                 (F64.mul fuzW (fuzzy (why r))))
            (docs demo_index) results /\
    Permutation sorted results /\
    result (demo_Search " Apple " 1 [inl vec_one] demo_index)
      = (truncate 1 sorted, None) /\
    map id_and_score (fst (result (demo_Search " Apple " 1 [inl vec_one] demo_index)))
      = [(1%N, F64.add (F64.mul semW F64.one) (F64.mul fuzW F64.one))] /\
    (forall r, In r (fst (result (demo_Search " Apple " 1 [inl vec_one] demo_index))) ->
               In r results).
Proof.
  assert (H1 : TrimSpace (Lib := demo_Lib) " Apple " <> "") by (vm_compute; discriminate).
  assert (H2 : embed_answer (Env := scripted_Env) (answers [inl vec_one])
                 (TrimSpace (Lib := demo_Lib) " Apple ")
               = (inl vec_one, answers [])) by reflexivity.
  destruct (@Search_combined_score demo_Lib scripted_Env demo_LibLaws
              " Apple " 1 (answers [inl vec_one]) (answers []) demo_index vec_one H1 H2)
    as (results & sorted & Hall & Hperm & Hres & Hin & _).
  exists results, sorted.
  split; [exact Hall|]. split; [exact Hperm|]. split; [exact Hres|].
  split; [vm_compute; reflexivity | exact Hin].
Defined.

Lemma Search_length_and_order_witness :
  LibLaws demo_Lib /\
  (0 < 1 -> Z.of_nat (length (fst (result (demo_Search "apple" 1 [inl vec_one] demo_index)))) <= 1) /\
  (length (fst (result (demo_Search "apple" 0 [inl vec_one] demo_index)))
     <= length (docs demo_index))%nat /\
  Permutation (fst (result (demo_Search "apple" 0 [inl vec_one] demo_index)))
              (scored (L := demo_Lib) demo_index "apple" vec_one) /\
  no_nan_score (scored (L := demo_Lib) demo_index "apple" vec_one) /\
  sorted_desc (fst (result (demo_Search "apple" 0 [inl vec_one] demo_index))).
Proof.
  split; [exact demo_LibLaws|].
  pose proof (@Search_length_and_order demo_Lib scripted_Env demo_LibLaws
                "apple" 1 (answers [inl vec_one]) demo_index) as H1.
  pose proof (@Search_length_and_order demo_Lib scripted_Env demo_LibLaws
                "apple" 0 (answers [inl vec_one]) demo_index) as H0.
  assert (Hn : no_nan_score (scored (L := demo_Lib) demo_index "apple" vec_one))
    by (vm_compute; repeat constructor).
  split; [exact (proj1 H1)|].
  split; [exact (proj1 (proj2 H0))|].
  split; [|split; [exact Hn|]].
  - refine (proj1 (proj1 (proj2 (proj2 H0)) _ vec_one (answers []) _ _)).
    + lia.
    + vm_compute. discriminate.
    + reflexivity.
  - apply (proj2 (proj2 (proj2 H0))).
    intros qVec w' He. vm_compute in He. injection He as <- _. exact Hn.
Defined.

Lemma Rebuild_skips_empty_text_witness :
  LibLaws demo_Lib /\
  corpus_ok (L := demo_Lib) (docs (New semW fuzW)) /\
  In blank [iphone; blank; galaxy] /\
  joined (L := demo_Lib) blank = "" /\
  Forall (fun d => P d <> blank)
    (docs (index (demo_Rebuild [iphone; blank; galaxy]
                    [inl vec_one; inl vec_minus_one] (New semW fuzW)))) /\
  map P (docs (index (demo_Rebuild [iphone; blank; galaxy]
                        [inl vec_one; inl vec_minus_one] (New semW fuzW))))
    = [iphone; galaxy] /\
  (length (docs (index (demo_Rebuild [iphone; blank; galaxy]
                          [inl vec_one; inl vec_minus_one] (New semW fuzW)))) < 3)%nat.
Proof.
  split; [exact demo_LibLaws|].
  assert (H1 : corpus_ok (L := demo_Lib) (docs (New semW fuzW))) by constructor.
  assert (H2 : In blank [iphone; blank; galaxy]) by (right; left; reflexivity).
  assert (H3 : joined (L := demo_Lib) blank = "") by reflexivity.
  pose proof (@Rebuild_skips_empty_text demo_Lib scripted_Env demo_LibLaws
                [iphone; blank; galaxy] blank
                (answers [inl vec_one; inl vec_minus_one])
                (New semW fuzW) H1 H2 H3) as H.
  assert (Hok : result (demo_Rebuild [iphone; blank; galaxy]
                          [inl vec_one; inl vec_minus_one] (New semW fuzW)) = None)
    by reflexivity.
  destruct (proj1 (proj2 (proj2 (proj2 H))) Hok) as [Hm Hl].
  repeat split; try assumption.
  exact (proj1 H).
Defined.

(** C6, as stated, fails: [blank] has an empty search text, the request
    for [galaxy] fails, and the corpus after the call is the one before
    it, of two documents, not fewer than the two input items. *)
Lemma Rebuild_failure_leaves_old_size :
  joined (L := demo_Lib) blank = "" /\
  result (demo_Rebuild [blank; galaxy] [provider_down] demo_index)
    = Some (EmbedProductError 2 (ExternalError "unavailable")) /\
  length (docs (index (demo_Rebuild [blank; galaxy] [provider_down] demo_index))) = 2%nat /\
  length [blank; galaxy] = 2%nat /\
  ~ (length (docs (index (demo_Rebuild [blank; galaxy] [provider_down] demo_index)))
     < length [blank; galaxy])%nat.
Proof. vm_compute. repeat split. lia. Qed.

Lemma sorted_desc_scores (l : list SearchResult) :
  sorted_desc l -> StronglySorted (fun x y => F64.geb x y = true) (map score l).
Proof.
  induction 1 as [|r l Hs IH Hf]; simpl; constructor; [exact IH|].
  rewrite List.Forall_forall in *. intros y Hy.
  apply in_map_iff in Hy. destruct Hy as (r' & <- & Hr'). now apply Hf.
Qed.

(** C7, as stated, fails.  With a limit of zero, a query that trims to
    empty gets no result from a corpus of two documents.  And with the
    query embedding [[2^100]], the three documents of [mixed_index] get
    the combined scores 0, NaN and 0.3; no comparison with NaN holds, so
    the insertion sort of [sort.Slice] moves nothing, and the returned
    list ends with the highest score. *)
Lemma Search_not_one_result_per_document :
  length (docs demo_index) = 2%nat /\
  fst (result (demo_Search " " 0 [inl vec_one] demo_index)) = [] /\
  map P (docs mixed_index) = [galaxy; pixel; iphone] /\
  map id_and_score (fst (result (demo_Search "apple" 0 [inl vec_huge] mixed_index)))
    = [(2%N, F64.zero); (3%N, F64.nan); (1%N, fuzW)] /\
  F64.gtb fuzW F64.zero = true /\
  ~ sorted_desc (fst (result (demo_Search "apple" 0 [inl vec_huge] mixed_index))).
Proof.
  assert (Hs : map score (fst (result (demo_Search "apple" 0 [inl vec_huge] mixed_index)))
               = [F64.zero; F64.nan; fuzW]) by (vm_compute; reflexivity).
  repeat split; try (vm_compute; reflexivity).
  intros H. apply sorted_desc_scores in H. rewrite Hs in H.
  inversion H as [|? ? _ Hf]; subst.
  inversion Hf as [|? ? Hge _]; subst.
  discriminate Hge.
Qed.

(** ** The merge of the handler *)

Lemma merged_from_empty : merged_from ∅ [].
Proof.
  split.
  - intros id r H. now rewrite lookup_empty in H.
  - intros r' [].
Qed.

Lemma no_nan_score_app (l1 l2 : list SearchResult) :
  no_nan_score (l1 ++ l2) <-> no_nan_score l1 /\ no_nan_score l2.
Proof. unfold no_nan_score. apply Forall_app. Qed.

Lemma no_nan_score_In (l : list SearchResult) (r : SearchResult) :
  no_nan_score l -> In r l -> F64.is_nan (score r) = false.
Proof.
  unfold no_nan_score. rewrite List.Forall_forall. intros H Hr. now apply H.
Qed.

Lemma merge_one_merged_from (best : gmap N SearchResult) (seen : list SearchResult)
    (it : SearchResult) :
  merged_from best seen -> merged_from (merge_one best it) (seen ++ [it]).
Proof.
  intros [Hval Hdom]. unfold merge_one.
  assert (Hit : In it (seen ++ [it])) by (apply in_or_app; right; now left).
  destruct (best !! ID (product it)) as [prev|] eqn:Hprev.
  - destruct (Hval _ _ Hprev) as (Hid & Hin & Hmax).
    destruct (F64.gtb (score it) (score prev)) eqn:Hgt.
    + split.
      * intros id r Hl. rewrite lookup_insert in Hl.
        destruct (decide (ID (product it) = id)) as [<- | Hne]; simpl in Hl.
        -- injection Hl as <-. repeat split; auto.
           intros Hn r' Hr' Hid'.
           apply no_nan_score_app in Hn as Hn'. destruct Hn' as [Hn1 _].
           apply in_app_or in Hr'. destruct Hr' as [Hr' | [<- | []]].
           ++ apply geb_trans with (score prev); [now apply gtb_geb|].
              now apply Hmax.
           ++ apply geb_refl. now apply (no_nan_score_In _ _ Hn).
        -- destruct (Hval _ _ Hl) as (Hid1 & Hin1 & Hmax1).
           repeat split; auto; [apply in_or_app; now left|].
           intros Hn r' Hr' Hid'.
           apply no_nan_score_app in Hn. destruct Hn as [Hn1 _].
           apply in_app_or in Hr'. destruct Hr' as [Hr' | [<- | []]].
           ++ now apply Hmax1.
           ++ congruence.
      * intros r' Hr'. rewrite lookup_insert_is_Some.
        destruct (decide (ID (product it) = ID (product r'))) as [He | Hne];
          [now left | right; split; [exact Hne|]].
        apply in_app_or in Hr'. destruct Hr' as [Hr' | [<- | []]];
          [now apply Hdom | congruence].
    + split.
      * intros id r Hl.
        destruct (Hval _ _ Hl) as (Hid1 & Hin1 & Hmax1).
        repeat split; auto; [apply in_or_app; now left|].
        intros Hn r' Hr' Hid'.
        apply no_nan_score_app in Hn as Hn'. destruct Hn' as [Hn1 _].
        apply in_app_or in Hr'. destruct Hr' as [Hr' | [<- | []]].
        -- now apply Hmax1.
        -- assert (r = prev) by congruence. subst r.
           apply not_gtb_geb; auto.
           ++ apply (no_nan_score_In _ _ Hn). apply in_or_app. now left.
           ++ now apply (no_nan_score_In _ _ Hn).
      * intros r' Hr'.
        apply in_app_or in Hr'. destruct Hr' as [Hr' | [<- | []]];
          [now apply Hdom | now rewrite Hprev].
  - split.
    + intros id r Hl. rewrite lookup_insert in Hl.
      destruct (decide (ID (product it) = id)) as [<- | Hne]; simpl in Hl.
      * injection Hl as <-. repeat split; auto.
        intros Hn r' Hr' Hid'.
        apply in_app_or in Hr'. destruct Hr' as [Hr' | [<- | []]].
        -- apply Hdom in Hr'. rewrite Hid', Hprev in Hr'. now destruct Hr'.
        -- apply geb_refl. now apply (no_nan_score_In _ _ Hn).
      * destruct (Hval _ _ Hl) as (Hid1 & Hin1 & Hmax1).
        repeat split; auto; [apply in_or_app; now left|].
        intros Hn r' Hr' Hid'.
        apply no_nan_score_app in Hn. destruct Hn as [Hn1 _].
        apply in_app_or in Hr'. destruct Hr' as [Hr' | [<- | []]].
        -- now apply Hmax1.
        -- congruence.
    + intros r' Hr'. rewrite lookup_insert_is_Some.
      destruct (decide (ID (product it) = ID (product r'))) as [He | Hne];
        [now left | right; split; [exact Hne|]].
      apply in_app_or in Hr'. destruct Hr' as [Hr' | [<- | []]];
        [now apply Hdom | congruence].
Qed.

Lemma merge_merged_from (results : list SearchResult) :
  forall (best : gmap N SearchResult) (seen : list SearchResult),
    merged_from best seen -> merged_from (merge best results) (seen ++ results).
Proof.
  unfold merge. induction results as [|it results IH]; intros best seen H; simpl.
  - now rewrite app_nil_r.
  - replace (seen ++ it :: results) with ((seen ++ [it]) ++ results)
      by (now rewrite <- app_assoc).
    apply IH. now apply merge_one_merged_from.
Qed.

Lemma merge_all_merged_from (lists : list (list SearchResult)) :
  forall (best : gmap N SearchResult) (seen : list SearchResult),
    merged_from best seen ->
    merged_from (fold_left merge lists best) (seen ++ concat lists).
Proof.
  induction lists as [|l lists IH]; intros best seen H; simpl.
  - now rewrite app_nil_r.
  - rewrite app_assoc. apply IH. now apply merge_merged_from.
Qed.

(** ** The handler run alone *)

Section Handler.
Context {L : Lib} {E : Env}.

Lemma RewriteQuery_index (q : string) (w : World) (ix : Index) :
  index (run (RewriteQuery q) w ix) = ix.
Proof.
  unfold RewriteQuery.
  destruct (String.eqb (TrimSpace q) ""); [reflexivity|].
  simpl. destruct (generate_answer w _) as [[resp | err] w']; simpl; [|reflexivity].
  now destruct (json_Decode (extractText resp)).
Qed.

Lemma merge_variants_successful (rs : list (list SearchResult * option error))
    (best : gmap N SearchResult) :
  fold_left merge_variant rs best =
  fold_left merge (map fst (List.filter succeeded rs)) best.
Proof.
  revert best. induction rs as [|[l [e|]] rs IH]; intros best; simpl; auto.
Qed.

Lemma search_alternatives_run (alts : list string) (topK : Z) :
  forall (best : gmap N SearchResult) (w : World) (ix : Index),
    result (run (search_alternatives alts topK best) w ix)
      = fold_left merge_variant (map result (variant_outcomes alts topK w ix)) best /\
    index (run (search_alternatives alts topK best) w ix) = ix /\
    trace (run (search_alternatives alts topK best) w ix)
      = concat (map trace (variant_outcomes alts topK w ix)).
Proof.
  induction alts as [|alt alts IH]; intros best w ix; simpl.
  - auto.
  - rewrite run_bind. simpl.
    rewrite Search_index.
    destruct (IH (merge_variant best (result (run (Search alt topK) w ix)))
                 (world (run (Search alt topK) w ix)) ix) as (H1 & H2 & H3).
    now rewrite H1, H2, H3.
Qed.

Lemma search_handler_run (q : string) (topK : Z) (w : World) (ix : Index) :
  result (run (search_handler q topK) w ix)
    = {| Query := q; Normalized := rewrite_used q w ix;
         Results := flatten_sort topK (handler_best q topK w ix) |} /\
  index (run (search_handler q topK) w ix) = ix /\
  trace (run (search_handler q topK) w ix)
    = trace (run (RewriteQuery q) w ix)
      ++ concat (map trace (handler_outcomes q topK w ix)).
Proof.
  assert (Hb : handler_best q topK w ix =
               fold_left merge_variant (map result (handler_outcomes q topK w ix)) ∅).
  { unfold handler_best, successful_lists. now rewrite <- merge_variants_successful. }
  rewrite Hb. clear Hb.
  unfold search_handler, handler_outcomes.
  rewrite run_bind. simpl.
  fold (rewrite_used q w ix).
  rewrite RewriteQuery_index.
  set (rw := rewrite_used q w ix).
  set (w1 := world (run (RewriteQuery q) w ix)).
  rewrite run_bind. simpl.
  rewrite Search_index.
  rewrite run_bind. simpl.
  destruct (search_alternatives_run (Alternatives rw) topK
              (merge_variant ∅ (result (run (Search (Primary rw) topK) w1 ix)))
              (world (run (Search (Primary rw) topK) w1 ix)) ix) as (H1 & H2 & H3).
  rewrite H1, H2, H3, app_nil_r. auto.
Qed.

Lemma variant_requests (vs : list string) (topK : Z) :
  forall (w : World) (ix : Index),
    map fst (embed_requests (concat (map trace (variant_outcomes vs topK w ix))))
    = filter (fun t => t <> "") (map TrimSpace vs).
Proof.
  induction vs as [|v vs IH]; intros w ix; simpl; [reflexivity|].
  rewrite embed_requests_app, map_app, IH, filter_cons.
  destruct (Search_run v topK w ix) as [Hq -> | err w' Hq He -> | qVec w' Hq He ->];
    simpl.
  - destruct (decide (TrimSpace v <> "")); [contradiction | reflexivity].
  - destruct (decide (TrimSpace v <> "")); [reflexivity | contradiction].
  - destruct (decide (TrimSpace v <> "")); [|contradiction].
    unfold embed_requests. simpl. rewrite omap_app. simpl.
    assert (Hw : omap (fun e => match e with
                               | EvEmbedContent text r => Some (text, r)
                               | _ => None
                               end) (weight_reads (docs ix)) = []).
    { unfold weight_reads. induction (docs ix); simpl; auto. }
    now rewrite Hw.
Qed.

Lemma variant_outcomes_length (vs : list string) (topK : Z) (ix : Index) :
  forall w : World, length (variant_outcomes vs topK w ix) = length vs.
Proof.
  induction vs as [|v vs IH]; intros w; simpl; [reflexivity | now rewrite IH].
Qed.

Lemma variant_failed_empty (vs : list string) (topK : Z) (ix : Index) :
  forall (w : World) (o : outcome E (list SearchResult * option error)),
    In o (variant_outcomes vs topK w ix) ->
    succeeded (result o) = false -> fst (result o) = [].
Proof.
  induction vs as [|v vs IH]; intros w o; simpl; [intros []|].
  intros [<- | Ho]; [|now apply (IH _ o Ho)].
  destruct (Search_run v topK w ix) as [Hq -> | err w' Hq He -> | qVec w' Hq He ->];
    simpl; auto. discriminate.
Qed.

End Handler.

Section HandlerProperties.
Context {L : Lib} {E : Env}.




(** C9: the handler always answers.  A failure of the rewriter is
    absorbed: the raw query is then the primary and there is no
    alternative.  The primary and every alternative are searched, in
    that order, whatever became of the searches before them: the
    embedding requests of the request are the trimmed variants that are
    not empty, in order.  A search that fails returns no result, and the
    map [best] is merged from the lists of the searches that succeeded,
    each of whose results has its identifier in [best].  The index is
    left as it was. *)
Theorem handler_absorbs_failures (q : string) (topK : Z) (w : World) (ix : Index) :
  (snd (result (run (RewriteQuery q) w ix)) <> None ->
     rewrite_used q w ix = {| Primary := q; Alternatives := [] |}) /\
  (forall rw, result (run (RewriteQuery q) w ix) = (rw, None) ->
     rewrite_used q w ix = rw) /\
  result (run (search_handler q topK) w ix)
    = {| Query := q; Normalized := rewrite_used q w ix;
         Results := flatten_sort topK (handler_best q topK w ix) |} /\
  trace (run (search_handler q topK) w ix)
    = trace (run (RewriteQuery q) w ix)
      ++ concat (map trace (handler_outcomes q topK w ix)) /\
  length (handler_outcomes q topK w ix)
    = S (length (Alternatives (rewrite_used q w ix))) /\
  map fst (embed_requests (concat (map trace (handler_outcomes q topK w ix))))
    = filter (fun t => t <> "")
        (map TrimSpace (Primary (rewrite_used q w ix)
                          :: Alternatives (rewrite_used q w ix))) /\
  (forall o, In o (handler_outcomes q topK w ix) ->
     succeeded (result o) = false -> fst (result o) = []) /\
  merged_from (handler_best q topK w ix)
    (concat (successful_lists (handler_outcomes q topK w ix))) /\
  index (run (search_handler q topK) w ix) = ix.
Proof.
  destruct (search_handler_run q topK w ix) as (Hr & Hi & Ht).
  split; [|split; [|split; [|split; [|split; [|split; [|split; [|split]]]]]]].
  - unfold rewrite_used. destruct (result (run (RewriteQuery q) w ix)) as [rw [e|]];
      simpl; [reflexivity | contradiction].
  - intros rw H. unfold rewrite_used. now rewrite H.
  - exact Hr.
  - exact Ht.
  - unfold handler_outcomes. now rewrite variant_outcomes_length.
  - apply variant_requests.
  - apply variant_failed_empty.
  - apply (merge_all_merged_from _ ∅ []). apply merged_from_empty.
  - exact Hi.
Qed.


End HandlerProperties.



(** ** The locking discipline of [Rebuild] and [Search] *)

Lemma disciplined_until_bind {A B : Type} (p : prog A) (f : A -> prog B) :
  forall e e' m,
    disciplined_until e' m p ->
    (forall a, disciplined_until e e' (f a)) ->
    disciplined_until e m (bind p f).
Proof.
  induction p as [a | text k IH | parts k IH | k IH | k IH | k IH | k IH
                 | k IH | k IH | k IH | ds k IH]; intros e e' m Hp Hf; simpl in *.
  - subst. apply Hf.
  - destruct Hp as [Hm Hp]. split; eauto.
  - destruct Hp as [Hm Hp]. split; eauto.
  - destruct Hp as [Hm Hp]. split; eauto.
  - destruct Hp as [Hm Hp]. split; eauto.
  - destruct Hp as [Hm Hp]. split; eauto.
  - destruct Hp as [Hm Hp]. split; eauto.
  - destruct Hp as [Hm Hp]. split; eauto.
  - eauto.
  - eauto.
  - destruct Hp as [Hm Hp]. split; eauto.
Qed.

Lemma publishes_bind {A B : Type} (S : list productDoc -> Prop) (Q : A -> Prop)
    (p : prog A) (f : A -> prog B) :
  publishes S p -> returns Q p ->
  (forall a, Q a -> publishes S (f a)) ->
  publishes S (bind p f).
Proof.
  induction p as [a | text k IH | parts k IH | k IH | k IH | k IH | k IH
                 | k IH | k IH | k IH | ds k IH]; intros Hp Hr Hf; simpl in *; eauto.
  destruct Hp as [Hs Hp]. split; [exact Hs | eauto].
Qed.

Section Discipline.
Context {L : Lib}.

Lemma Rebuild_loop_disciplined (products : list Product) :
  forall docs, disciplined Unlocked (Rebuild_loop products docs).
Proof.
  unfold disciplined.
  induction products as [|p products IH]; intros docs; simpl; [reflexivity|].
  destruct (String.eqb (joined p) ""); [apply IH|].
  simpl. split; [reflexivity|]. intros [values | err]; simpl; [apply IH | reflexivity].
Qed.

Lemma Rebuild_loop_publishes (S : list productDoc -> Prop) (products : list Product) :
  forall docs, publishes S (Rebuild_loop products docs).
Proof.
  induction products as [|p products IH]; intros docs; simpl; [exact I|].
  destruct (String.eqb (joined p) ""); [apply IH|].
  simpl. intros [values | err]; simpl; [apply IH | exact I].
Qed.

(** When the loop ends without error, the local [docs] is complete. *)
Lemma Rebuild_loop_returns (all : list Product) (products : list Product) :
  forall (before : list Product) (docs : list productDoc),
    all = before ++ products ->
    complete_corpus before docs ->
    returns (fun r => match r with
                      | inl ds => complete_corpus all ds
                      | inr _ => True
                      end) (Rebuild_loop products docs).
Proof.
  induction products as [|p products IH]; intros before docs Hall [Hm Hok]; simpl.
  - rewrite app_nil_r in Hall. subst. now split.
  - assert (Hall' : all = (before ++ [p]) ++ products)
      by (now rewrite <- app_assoc).
    destruct (String.eqb_spec (joined p) "") as [Hp | Hp].
    + apply (IH (before ++ [p])); [exact Hall'|].
      split; [|exact Hok].
      rewrite surviving_app, surviving_cons_empty, app_nil_r by assumption.
      exact Hm.
    + simpl. intros [values | err]; simpl; [|exact I].
      apply (IH (before ++ [p])); [exact Hall'|].
      split.
      * rewrite map_app, surviving_app, surviving_cons_keep by assumption.
        simpl. now rewrite Hm.
      * unfold corpus_ok in *. rewrite Forall_app. split; [exact Hok|].
        constructor; [|constructor]. simpl. now split.
Qed.

Lemma Rebuild_disciplined (products : list Product) :
  disciplined Unlocked (Rebuild products).
Proof.
  unfold disciplined, Rebuild.
  apply disciplined_until_bind with (e' := Unlocked).
  - apply Rebuild_loop_disciplined.
  - intros [docs | err]; simpl; auto.
Qed.

Lemma Rebuild_publishes (products : list Product) :
  publishes (complete_corpus products) (Rebuild products).
Proof.
  unfold Rebuild.
  eapply publishes_bind.
  - apply Rebuild_loop_publishes.
  - apply (Rebuild_loop_returns products products []); [reflexivity|].
    split; [reflexivity | constructor].
  - intros [docs | err] H; simpl; auto.
Qed.

Lemma Search_loop_disciplined (q : string) (qVec : list float32) (ds : list productDoc) :
  forall results, disciplined_until Reading Reading (Search_loop q qVec ds results).
Proof.
  induction ds as [|d ds IH]; intros results; simpl; [reflexivity|].
  intros semW0 fuzW0. apply IH.
Qed.

Lemma Search_loop_publishes (S : list productDoc -> Prop) (q : string)
    (qVec : list float32) (ds : list productDoc) :
  forall results, publishes S (Search_loop q qVec ds results).
Proof.
  induction ds as [|d ds IH]; intros results; simpl; [exact I|].
  intros semW0 fuzW0. apply IH.
Qed.

Lemma Search_disciplined (query : string) (topK : Z) :
  disciplined Unlocked (Search query topK).
Proof.
  unfold disciplined, Search.
  destruct (String.eqb (TrimSpace query) ""); [reflexivity|].
  simpl. split; [reflexivity|].
  intros [qVec | err]; simpl; [|reflexivity].
  split; [reflexivity|]. split; [reflexivity|]. intros capacity.
  split; [reflexivity|]. intros ds.
  apply disciplined_until_bind with (e' := Reading).
  - apply Search_loop_disciplined.
  - intros results. simpl. auto.
Qed.

Lemma Search_publishes (S : list productDoc -> Prop) (query : string) (topK : Z) :
  publishes S (Search query topK).
Proof.
  unfold Search.
  destruct (String.eqb (TrimSpace query) ""); [exact I|].
  simpl. intros [qVec | err]; simpl; [|exact I].
  intros capacity ds.
  apply publishes_bind with (Q := fun _ => True).
  - apply Search_loop_publishes.
  - clear. generalize (@nil SearchResult).
    induction ds as [|d ds IH]; intros results; simpl; auto.
  - intros results _. simpl. exact I.
Qed.

Lemma code_of_disciplined (c : call) : disciplined Unlocked (code_of c).
Proof.
  unfold disciplined. destruct c as [products | query topK]; simpl.
  - apply disciplined_until_bind with (e' := Unlocked);
      [apply Rebuild_disciplined | reflexivity].
  - apply disciplined_until_bind with (e' := Unlocked);
      [apply Search_disciplined | reflexivity].
Qed.

Lemma code_of_publishes (c : call) : publishes (may_publish c) (code_of c).
Proof.
  destruct c as [products | query topK]; simpl.
  - apply publishes_bind with (Q := fun _ => True); simpl; auto.
    + apply Rebuild_publishes.
    + generalize (Rebuild products). clear.
      induction p; simpl; auto.
  - apply publishes_bind with (Q := fun _ => True); simpl; auto.
    + apply Search_publishes.
    + generalize (Search query topK). clear.
      induction p; simpl; auto.
Qed.

End Discipline.

(** ** Interleavings *)

Lemma insert_map_same {A B : Type} (f : A -> B) (l : list A) (i : nat) (x y : A) :
  l !! i = Some x -> f y = f x -> map f (<[ i := y ]> l) = map f l.
Proof.
  revert i. induction l as [|a l IH]; intros [|i] Hl Hf; simpl in *;
    try discriminate.
  - injection Hl as ->. now rewrite Hf.
  - now rewrite IH.
Qed.

Lemma insert_sum (f : thread -> nat) (l : list thread) (i : nat) (x y : thread) :
  l !! i = Some x ->
  (sum_list (map f (<[ i := y ]> l)) + f x = sum_list (map f l) + f y)%nat.
Proof.
  revert i. induction l as [|a l IH]; intros [|i] Hl; simpl in *;
    try discriminate.
  - injection Hl as ->. lia.
  - specialize (IH i Hl). lia.
Qed.

Lemma sum_zero_each (f : thread -> nat) (l : list thread) :
  sum_list (map f l) = 0%nat -> Forall (fun t => f t = 0%nat) l.
Proof.
  induction l as [|a l IH]; simpl; intros H; constructor; [lia | apply IH; lia].
Qed.

Section Interleavings.
Context {L : Lib} {E : Env}.

Lemma boot_consistent (calls : list call) (w : World) (ix0 : Index) :
  consistent calls ix0 (boot calls w ix0).
Proof.
  constructor; simpl; auto.
  - rewrite map_map. simpl. apply map_id.
  - induction calls as [|c calls IH]; simpl; constructor; auto.
    apply code_of_disciplined.
  - induction calls as [|c calls IH]; simpl; constructor; auto.
    apply code_of_publishes.
  - induction calls as [|c calls IH]; simpl; auto.
  - induction calls as [|c calls IH]; simpl; auto.
  - induction calls as [|c calls IH]; simpl; constructor; auto. discriminate.
  - now left.
Qed.

(** Nobody reads while a goroutine is between [Lock] and [Unlock]. *)
Lemma writer_excludes_readers (calls : list call) (ix0 : Index) (c : machine E)
    (i : nat) (t : thread) :
  consistent calls ix0 c ->
  threads c !! i = Some t -> holds_write t = 1%nat ->
  writer c = true /\ Forall (fun t' => held t' <> Reading) (threads c).
Proof.
  intros Hc Ht Hw.
  assert (Hwr : writer c = true).
  { pose proof (writer_counted _ _ _ Hc) as H.
    destruct (writer c); [reflexivity|].
    apply sum_zero_each in H.
    pose proof (Forall_lookup_1 _ _ _ _ H Ht) as H0. simpl in H0. lia. }
  split; [exact Hwr|].
  pose proof (writer_alone _ _ _ Hc Hwr) as Hr.
  pose proof (readers_counted _ _ _ Hc) as Hn. rewrite Hr in Hn.
  apply sum_zero_each in Hn.
  eapply Forall_impl; [exact Hn|].
  intros t' H Heq. unfold holds_read in H. now rewrite Heq in H.
Qed.

(** The machine stays consistent when goroutine [i] becomes [t'] and
    the shared state changes as the event says. *)
Lemma update_consistent (calls : list call) (ix0 : Index) (c c' : machine E)
    (i : nat) (t t' : thread) :
  consistent calls ix0 c ->
  threads c !! i = Some t ->
  threads c' = <[ i := t' ]> (threads c) ->
  origin t' = origin t ->
  disciplined (held t') (code t') ->
  publishes (may_publish (origin t)) (code t') ->
  (readers c' + read_locks (held t) = readers c + read_locks (held t'))%nat ->
  ((if writer c' then 1 else 0) + write_locks (held t)
   = (if writer c then 1 else 0) + write_locks (held t'))%nat ->
  (writer c' = true -> readers c' = 0%nat) ->
  (held t' = Reading -> view t' = Some (docs (m_index c'))) ->
  (docs (m_index c') = docs (m_index c) \/
   (held t = Writing /\ may_publish (origin t) (docs (m_index c')))) ->
  semanticWeight (m_index c') = semanticWeight (m_index c) ->
  fuzzyWeight (m_index c') = fuzzyWeight (m_index c) ->
  consistent calls ix0 c'.
Proof.
  intros Hc Ht Hts Ho Hd Hp Hr Hw Hwa Hv Hdocs Hsw Hfw.
  pose proof (insert_sum holds_read (threads c) i t t' Ht) as Hsr.
  pose proof (insert_sum holds_write (threads c) i t t' Ht) as Hsw'.
  unfold holds_read at 2 4 in Hsr. unfold holds_write at 2 4 in Hsw'.
  pose proof (readers_counted _ _ _ Hc) as Hrc.
  pose proof (writer_counted _ _ _ Hc) as Hwc.
  constructor; rewrite ?Hts.
  - rewrite (insert_map_same origin _ _ t); auto. apply (origins _ _ _ Hc).
  - apply Forall_insert; [apply (discipline _ _ _ Hc) | exact Hd].
  - apply Forall_insert; [apply (writes_complete _ _ _ Hc) | now rewrite Ho].
  - lia.
  - destruct (writer c'), (writer c); lia.
  - exact Hwa.
  - apply Forall_insert; [|exact Hv].
    destruct Hdocs as [-> | [Hwr Hpub]]; [apply (views_current _ _ _ Hc)|].
    assert (Hw1 : holds_write t = 1%nat)
      by (unfold holds_write; now rewrite Hwr).
    destruct (writer_excludes_readers _ _ _ _ _ Hc Ht Hw1) as [_ Hnr].
    eapply Forall_impl; [exact Hnr|]. intros t0 Hn Hr0. contradiction.
  - destruct Hdocs as [-> | [Hwr Hpub]]; [apply (corpus_published _ _ _ Hc)|].
    right. destruct (origin t) as [products | query topK] eqn:Hot; [|contradiction].
    exists products. split; [|exact Hpub].
    rewrite <- (origins _ _ _ Hc). apply in_map_iff. exists t. split; [exact Hot|].
    apply list_elem_of_In. eapply list_elem_of_lookup_2. exact Ht.
  - rewrite Hsw, Hfw. apply (weights_fixed _ _ _ Hc).
Qed.

Lemma step_consistent (calls : list call) (ix0 : Index) (c c' : machine E) (i : nat) :
  consistent calls ix0 c -> step i c = Some c' -> consistent calls ix0 c'.
Proof.
  intros Hc Hstep. unfold step in Hstep.
  destruct (threads c !! i) as [t|] eqn:Ht; [|discriminate].
  pose proof (Forall_lookup_1 _ _ _ _ (discipline _ _ _ Hc) Ht) as Hd.
  pose proof (Forall_lookup_1 _ _ _ _ (writes_complete _ _ _ Hc) Ht) as Hp.
  pose proof (writer_alone _ _ _ Hc) as Hwa.
  pose proof (Forall_lookup_1 _ _ _ _ (views_current _ _ _ Hc) Ht) as Hv.
  cbv beta in Hd, Hp, Hv. unfold disciplined in Hd.
  destruct (code t) as [a | text k | parts k | k | k | k | k | k | k | k | ds k] eqn:Hcode;
    simpl in Hd, Hp.
  - discriminate.
  - (* EmbedContent *)
    destruct (embed_answer (m_world c) text) as [r w']. injection Hstep as <-.
    destruct Hd as [Hm Hd].
    apply (update_consistent calls ix0 c _ i t (continue t (k r)));
      simpl; auto. rewrite Hm. apply Hd.
  - (* GenerateContent *)
    destruct (generate_answer (m_world c) parts) as [r w']. injection Hstep as <-.
    destruct Hd as [Hm Hd].
    apply (update_consistent calls ix0 c _ i t (continue t (k r)));
      simpl; auto. rewrite Hm. apply Hd.
  - (* Lock *)
    destruct (writer c) eqn:Hw; [discriminate|].
    destruct (Nat.eqb_spec (readers c) 0) as [Hr0 | Hr0]; [|discriminate].
    simpl in Hstep. injection Hstep as <-.
    destruct Hd as [Hm Hd].
    apply (update_consistent calls ix0 c _ i t (continue_as t k Writing (view t)));
      simpl; auto; try discriminate.
    + now rewrite Hm.
    + now rewrite Hm, Hw.
  - (* Unlock *)
    injection Hstep as <-.
    destruct Hd as [Hm Hd].
    assert (Hw1 : holds_write t = 1%nat) by (unfold holds_write; now rewrite Hm).
    destruct (writer_excludes_readers _ _ _ _ _ Hc Ht Hw1) as [Hw _].
    apply (update_consistent calls ix0 c _ i t (continue_as t k Unlocked (view t)));
      simpl; auto; try discriminate.
    + now rewrite Hm.
    + now rewrite Hm, Hw.
  - (* RLock *)
    destruct (writer c) eqn:Hw; [discriminate|].
    simpl in Hstep. injection Hstep as <-.
    destruct Hd as [Hm Hd].
    apply (update_consistent calls ix0 c _ i t
             (continue_as t k Reading (Some (docs (m_index c)))));
      simpl; auto; try (rewrite ?Hw; discriminate).
    + rewrite Hm. simpl. lia.
    + now rewrite Hm, Hw.
  - (* RUnlock *)
    injection Hstep as <-.
    destruct Hd as [Hm Hd].
    assert (Hr1 : (1 <= readers c)%nat).
    { pose proof (insert_sum holds_read (threads c) i t t Ht) as Hs.
      pose proof (readers_counted _ _ _ Hc) as Hrc.
      assert (Hin : In t (threads c))
        by (apply list_elem_of_In; eapply list_elem_of_lookup_2; exact Ht).
      clear Hs. rewrite <- Hrc.
      clear - Hin Hm. induction (threads c) as [|t0 l IH]; [destruct Hin|].
      simpl. destruct Hin as [-> | Hin].
      - unfold holds_read at 1. rewrite Hm. simpl. lia.
      - specialize (IH Hin). lia. }
    apply (update_consistent calls ix0 c _ i t (continue_as t k Unlocked None));
      simpl; auto; try discriminate.
    + rewrite Hm. simpl. lia.
    + now rewrite Hm.
    + intros Hw. specialize (Hwa Hw). lia.
  - (* GetDocs *)
    injection Hstep as <-.
    destruct Hd as [Hm Hd].
    apply (update_consistent calls ix0 c _ i t (continue t (k (docs (m_index c)))));
      simpl; auto. rewrite Hm. apply Hd.
  - (* GetSemanticWeight *)
    injection Hstep as <-.
    apply (update_consistent calls ix0 c _ i t
             (continue t (k (semanticWeight (m_index c)))));
      simpl; auto. apply Hd.
  - (* GetFuzzyWeight *)
    injection Hstep as <-.
    apply (update_consistent calls ix0 c _ i t
             (continue t (k (fuzzyWeight (m_index c)))));
      simpl; auto. apply Hd.
  - (* SetDocs *)
    injection Hstep as <-.
    destruct Hd as [Hm Hd]. destruct Hp as [Hs Hp].
    assert (Hw1 : holds_write t = 1%nat) by (unfold holds_write; now rewrite Hm).
    destruct (writer_excludes_readers _ _ _ _ _ Hc Ht Hw1) as [Hw _].
    apply (update_consistent calls ix0 c _ i t (continue_as t k Written (view t)));
      simpl; auto; try discriminate.
    now rewrite Hm.
Qed.

Lemma exec_consistent (calls : list call) (ix0 : Index) (schedule : list nat) :
  forall c : machine E, consistent calls ix0 c -> consistent calls ix0 (exec schedule c).
Proof.
  induction schedule as [|i schedule IH]; intros c Hc; simpl; [exact Hc|].
  apply IH. destruct (step i c) as [c'|] eqn:Hs; [|exact Hc].
  eapply step_consistent; eauto.
Qed.

End Interleavings.

(** ** What a [Search] returns in an interleaving *)

Section Observation.
Context {L : Lib} {E : Env}.

Lemma code_of_Search_empty (query : string) (topK : Z) :
  TrimSpace query = "" ->
  code_of (CallSearch query topK) = Ret (SearchReturned ([], None)).
Proof.
  intros Hq. simpl. unfold Search. now rewrite Hq.
Qed.

Lemma code_of_Search_start (query : string) (topK : Z) :
  TrimSpace query <> "" ->
  code_of (CallSearch query topK)
  = EmbedContent (TrimSpace query)
      (fun r => res <- Search_embedded (TrimSpace query) topK r ;;
                Ret (SearchReturned res)).
Proof.
  intros Hq. simpl. unfold Search.
  destruct (String.eqb_spec (TrimSpace query) ""); [contradiction|].
  simpl. f_equal.
Qed.

Lemma Search_loop_reading_tail {A B : Type} (q : string) (qVec : list float32)
    (ds : list productDoc) :
  forall (results : list SearchResult) (f : list SearchResult -> prog A) (g : A -> prog B),
    (forall res, reading_tail (bind (f res) g)) ->
    reading_tail (bind (bind (Search_loop q qVec ds results) f) g).
Proof.
  induction ds as [|d ds IH]; intros results f g H; simpl.
  - apply H.
  - intros semW0 fuzW0. apply IH, H.
Qed.

Lemma Search_reading_tail (q : string) (qVec : list float32) (topK : Z) :
  reading_tail (res <- Search_reading q qVec topK ;; Ret (SearchReturned res)).
Proof.
  unfold Search_reading. simpl. intros capacity ds.
  apply Search_loop_reading_tail. intros res. simpl. exact I.
Qed.

Lemma Search_reading_run (q : string) (qVec : list float32) (topK : Z)
    (w : World) (ix : Index) :
  result (run (res <- Search_reading q qVec topK ;; Ret (SearchReturned res)) w ix)
  = SearchReturned
      (truncate topK
         (sort_Slice by_score_desc
            (map (score_doc (semanticWeight ix) (fuzzyWeight ix) q qVec) (docs ix))), None).
Proof.
  unfold Search_reading. simpl. rewrite !run_bind, Search_loop_run. reflexivity.
Qed.

Lemma boot_searches_stand (calls : list call) (w : World) (ix0 : Index) :
  searches_stand calls ix0 (boot calls w ix0).
Proof.
  unfold searches_stand, boot. simpl.
  generalize calls at 2. intros l.
  induction l as [|c l IH]; simpl; constructor; [|exact IH].
  simpl. intros query topK ->. now apply stands_at_start.
Qed.

(** A goroutine that has returned from [Search] returned the right
    thing. *)
Lemma returned_Search_ok (calls : list call) (ix0 : Index) (query : string) (topK : Z)
    (t : thread) (v : returned) :
  Search_stands calls ix0 query topK t ->
  code t = Ret v ->
  Search_result_ok calls ix0 query topK v.
Proof.
  intros [Hh Hc | r Hh Hq Hc | qVec corpus Hh Hv Hp Ht Hr | v' Hh Hc Hok] Hret.
  - destruct (String.eqb_spec (TrimSpace query) "") as [Hq | Hq].
    + rewrite (code_of_Search_empty _ _ Hq) in Hc. left. split; [exact Hq|]. congruence.
    + rewrite (code_of_Search_start _ _ Hq) in Hc. congruence.
  - destruct r as [qVec | err]; simpl in Hc; [congruence|].
    right. left. exists err. congruence.
  - rewrite Hret in Ht. destruct Ht.
  - congruence.
Qed.

Lemma step_searches_stand (calls : list call) (ix0 : Index) (c c' : machine E) (i : nat) :
  consistent calls ix0 c -> searches_stand calls ix0 c ->
  step i c = Some c' -> searches_stand calls ix0 c'.
Proof.
  intros Hc Hs Hstep. unfold searches_stand in *. unfold step in Hstep.
  destruct (threads c !! i) as [t|] eqn:Ht; [|discriminate].
  pose proof (Forall_lookup_1 _ _ _ _ Hs Ht) as Hst.
  pose proof (Forall_lookup_1 _ _ _ _ (views_current _ _ _ Hc) Ht) as Hv.
  pose proof (corpus_published _ _ _ Hc) as Hcp.
  pose proof (weights_fixed _ _ _ Hc) as [Hsw Hfw].
  cbv beta in Hst, Hv.
  assert (Hstart : forall query topK text k,
             code_of (CallSearch query topK) = EmbedContent text k ->
             TrimSpace query <> "" /\
             k = (fun r => res <- Search_embedded (TrimSpace query) topK r ;;
                           Ret (SearchReturned res))).
  { intros query topK text k Heq.
    destruct (String.eqb_spec (TrimSpace query) "") as [Hq | Hq].
    - rewrite (code_of_Search_empty _ _ Hq) in Heq. discriminate.
    - rewrite (code_of_Search_start _ _ Hq) in Heq. split; [exact Hq|].
      now injection Heq as _ <-. }
  destruct (code t) as [a | text k | parts k | k | k | k | k | k | k | k | ds k] eqn:Hcode.
  - discriminate.
  - (* EmbedContent *)
    destruct (embed_answer (m_world c) text) as [r w']. injection Hstep as <-. simpl.
    apply Forall_insert; [exact Hs|]. simpl. intros query topK Ho.
    destruct (Hst query topK Ho)
      as [Hh Hc0 | r0 Hh Hq Hc0 | qVec corpus Hh Hv0 Hp Ht0 Hr | v' Hh Hc0 Hok];
      [rewrite Hcode in Hc0 | rewrite Hcode in Hc0
      | rewrite Hcode in Ht0, Hr | rewrite Hcode in Hc0].
    + destruct (Hstart _ _ _ _ (eq_sym Hc0)) as [Hq ->].
      now apply stands_embedded with (r := r).
    + destruct r0; simpl in Hc0; discriminate.
    + destruct Ht0.
    + discriminate.
  - (* GenerateContent *)
    destruct (generate_answer (m_world c) parts) as [r w']. injection Hstep as <-. simpl.
    apply Forall_insert; [exact Hs|]. simpl. intros query topK Ho.
    destruct (Hst query topK Ho)
      as [Hh Hc0 | r0 Hh Hq Hc0 | qVec corpus Hh Hv0 Hp Ht0 Hr | v' Hh Hc0 Hok];
      [rewrite Hcode in Hc0 | rewrite Hcode in Hc0
      | rewrite Hcode in Ht0, Hr | rewrite Hcode in Hc0].
    + destruct (String.eqb_spec (TrimSpace query) "") as [Hq | Hq].
      * rewrite (code_of_Search_empty _ _ Hq) in Hc0. discriminate.
      * rewrite (code_of_Search_start _ _ Hq) in Hc0. discriminate.
    + destruct r0; simpl in Hc0; discriminate.
    + destruct Ht0.
    + discriminate.
  - (* Lock *)
    destruct (negb (writer c) && (readers c =? 0)%nat); [|discriminate].
    injection Hstep as <-. simpl.
    apply Forall_insert; [exact Hs|]. simpl. intros query topK Ho.
    destruct (Hst query topK Ho)
      as [Hh Hc0 | r0 Hh Hq Hc0 | qVec corpus Hh Hv0 Hp Ht0 Hr | v' Hh Hc0 Hok];
      [rewrite Hcode in Hc0 | rewrite Hcode in Hc0
      | rewrite Hcode in Ht0, Hr | rewrite Hcode in Hc0].
    + destruct (String.eqb_spec (TrimSpace query) "") as [Hq | Hq].
      * rewrite (code_of_Search_empty _ _ Hq) in Hc0. discriminate.
      * rewrite (code_of_Search_start _ _ Hq) in Hc0. discriminate.
    + destruct r0; simpl in Hc0; discriminate.
    + destruct Ht0.
    + discriminate.
  - (* Unlock *)
    injection Hstep as <-. simpl.
    apply Forall_insert; [exact Hs|]. simpl. intros query topK Ho.
    destruct (Hst query topK Ho)
      as [Hh Hc0 | r0 Hh Hq Hc0 | qVec corpus Hh Hv0 Hp Ht0 Hr | v' Hh Hc0 Hok];
      [rewrite Hcode in Hc0 | rewrite Hcode in Hc0
      | rewrite Hcode in Ht0, Hr | rewrite Hcode in Hc0].
    + destruct (String.eqb_spec (TrimSpace query) "") as [Hq | Hq].
      * rewrite (code_of_Search_empty _ _ Hq) in Hc0. discriminate.
      * rewrite (code_of_Search_start _ _ Hq) in Hc0. discriminate.
    + destruct r0; simpl in Hc0; discriminate.
    + destruct Ht0.
    + discriminate.
  - (* RLock *)
    destruct (negb (writer c)); [|discriminate].
    injection Hstep as <-. simpl.
    apply Forall_insert; [exact Hs|]. simpl. intros query topK Ho.
    destruct (Hst query topK Ho)
      as [Hh Hc0 | r0 Hh Hq Hc0 | qVec corpus Hh Hv0 Hp Ht0 Hr | v' Hh Hc0 Hok];
      [rewrite Hcode in Hc0 | rewrite Hcode in Hc0
      | rewrite Hcode in Ht0, Hr | rewrite Hcode in Hc0].
    + destruct (String.eqb_spec (TrimSpace query) "") as [Hq | Hq].
      * rewrite (code_of_Search_empty _ _ Hq) in Hc0. discriminate.
      * rewrite (code_of_Search_start _ _ Hq) in Hc0. discriminate.
    + destruct r0 as [qVec | err]; simpl in Hc0; [|discriminate].
      injection Hc0 as ->.
      apply stands_reading with (qVec := qVec) (corpus := docs (m_index c)); simpl; auto.
      * apply Search_reading_tail.
      * intros w ix Hd Hw1 Hw2.
        change (result (run (res <- Search_reading (TrimSpace query) qVec topK ;;
                             Ret (SearchReturned res)) w ix)
                = SearchReturned (ranking ix0 (TrimSpace query) qVec (docs (m_index c)) topK,
                                  None)).
        rewrite Search_reading_run. unfold ranking. now rewrite Hd, Hw1, Hw2.
    + destruct Ht0.
    + discriminate.
  - (* RUnlock *)
    injection Hstep as <-. simpl.
    apply Forall_insert; [exact Hs|]. simpl. intros query topK Ho.
    destruct (Hst query topK Ho)
      as [Hh Hc0 | r0 Hh Hq Hc0 | qVec corpus Hh Hv0 Hp Ht0 Hr | v' Hh Hc0 Hok];
      [rewrite Hcode in Hc0 | rewrite Hcode in Hc0
      | rewrite Hcode in Ht0, Hr | rewrite Hcode in Hc0].
    + destruct (String.eqb_spec (TrimSpace query) "") as [Hq | Hq].
      * rewrite (code_of_Search_empty _ _ Hq) in Hc0. discriminate.
      * rewrite (code_of_Search_start _ _ Hq) in Hc0. discriminate.
    + destruct r0; simpl in Hc0; discriminate.
    + destruct k as [v| | | | | | | | | |]; simpl in Ht0; try contradiction.
      apply stands_returned with (v := v); simpl; auto.
      right. right. exists qVec, corpus. split; [exact Hp|].
      specialize (Hv Hh). rewrite Hv0 in Hv. injection Hv as Hv.
      specialize (Hr (m_world c) (m_index c) (eq_sym Hv) Hsw Hfw).
      simpl in Hr. exact Hr.
    + discriminate.
  - (* GetDocs *)
    injection Hstep as <-. simpl.
    apply Forall_insert; [exact Hs|]. simpl. intros query topK Ho.
    destruct (Hst query topK Ho)
      as [Hh Hc0 | r0 Hh Hq Hc0 | qVec corpus Hh Hv0 Hp Ht0 Hr | v' Hh Hc0 Hok];
      [rewrite Hcode in Hc0 | rewrite Hcode in Hc0
      | rewrite Hcode in Ht0, Hr | rewrite Hcode in Hc0].
    + destruct (String.eqb_spec (TrimSpace query) "") as [Hq | Hq].
      * rewrite (code_of_Search_empty _ _ Hq) in Hc0. discriminate.
      * rewrite (code_of_Search_start _ _ Hq) in Hc0. discriminate.
    + destruct r0; simpl in Hc0; discriminate.
    + specialize (Hv Hh). rewrite Hv0 in Hv. injection Hv as Hv.
      apply stands_reading with (qVec := qVec) (corpus := corpus); simpl; auto;
        try (simpl in Ht0; now apply Ht0).
      intros w ix Hd Hw1 Hw2.
      replace (docs (m_index c)) with (docs ix) by congruence.
      specialize (Hr w ix Hd Hw1 Hw2). simpl in Hr. exact Hr.
    + discriminate.
  - (* GetSemanticWeight *)
    injection Hstep as <-. simpl.
    apply Forall_insert; [exact Hs|]. simpl. intros query topK Ho.
    destruct (Hst query topK Ho)
      as [Hh Hc0 | r0 Hh Hq Hc0 | qVec corpus Hh Hv0 Hp Ht0 Hr | v' Hh Hc0 Hok];
      [rewrite Hcode in Hc0 | rewrite Hcode in Hc0
      | rewrite Hcode in Ht0, Hr | rewrite Hcode in Hc0].
    + destruct (String.eqb_spec (TrimSpace query) "") as [Hq | Hq].
      * rewrite (code_of_Search_empty _ _ Hq) in Hc0. discriminate.
      * rewrite (code_of_Search_start _ _ Hq) in Hc0. discriminate.
    + destruct r0; simpl in Hc0; discriminate.
    + apply stands_reading with (qVec := qVec) (corpus := corpus); simpl; auto;
        try (simpl in Ht0; now apply Ht0).
      intros w ix Hd Hw1 Hw2.
      replace (semanticWeight (m_index c)) with (semanticWeight ix) by congruence.
      specialize (Hr w ix Hd Hw1 Hw2). simpl in Hr. exact Hr.
    + discriminate.
  - (* GetFuzzyWeight *)
    injection Hstep as <-. simpl.
    apply Forall_insert; [exact Hs|]. simpl. intros query topK Ho.
    destruct (Hst query topK Ho)
      as [Hh Hc0 | r0 Hh Hq Hc0 | qVec corpus Hh Hv0 Hp Ht0 Hr | v' Hh Hc0 Hok];
      [rewrite Hcode in Hc0 | rewrite Hcode in Hc0
      | rewrite Hcode in Ht0, Hr | rewrite Hcode in Hc0].
    + destruct (String.eqb_spec (TrimSpace query) "") as [Hq | Hq].
      * rewrite (code_of_Search_empty _ _ Hq) in Hc0. discriminate.
      * rewrite (code_of_Search_start _ _ Hq) in Hc0. discriminate.
    + destruct r0; simpl in Hc0; discriminate.
    + apply stands_reading with (qVec := qVec) (corpus := corpus); simpl; auto;
        try (simpl in Ht0; now apply Ht0).
      intros w ix Hd Hw1 Hw2.
      replace (fuzzyWeight (m_index c)) with (fuzzyWeight ix) by congruence.
      specialize (Hr w ix Hd Hw1 Hw2). simpl in Hr. exact Hr.
    + discriminate.
  - (* SetDocs *)
    injection Hstep as <-. simpl.
    apply Forall_insert; [exact Hs|]. simpl. intros query topK Ho.
    destruct (Hst query topK Ho)
      as [Hh Hc0 | r0 Hh Hq Hc0 | qVec corpus Hh Hv0 Hp Ht0 Hr | v' Hh Hc0 Hok];
      [rewrite Hcode in Hc0 | rewrite Hcode in Hc0
      | rewrite Hcode in Ht0, Hr | rewrite Hcode in Hc0].
    + destruct (String.eqb_spec (TrimSpace query) "") as [Hq | Hq].
      * rewrite (code_of_Search_empty _ _ Hq) in Hc0. discriminate.
      * rewrite (code_of_Search_start _ _ Hq) in Hc0. discriminate.
    + destruct r0; simpl in Hc0; discriminate.
    + destruct Ht0.
    + discriminate.
Qed.

Lemma exec_searches_stand (calls : list call) (ix0 : Index) (schedule : list nat) :
  forall c : machine E,
    consistent calls ix0 c -> searches_stand calls ix0 c ->
    searches_stand calls ix0 (exec schedule c).
Proof.
  induction schedule as [|i schedule IH]; intros c Hc Hs; simpl; [exact Hs|].
  destruct (step i c) as [c'|] eqn:Hstep; [|now apply IH].
  apply IH; [eapply step_consistent | eapply step_searches_stand]; eauto.
Qed.

End Observation.

Section Atomicity.
Context {L : Lib} {E : Env}.

(** C5: [Rebuild] and [Search] follow the locking discipline whatever
    the provider answers: [Rebuild] makes its embedding requests holding
    no lock, then takes the exclusive lock, writes [ix.docs] once, with
    the complete new collection, and unlocks; [Search] makes its request
    holding no lock, reads [ix.docs] and scores under one read lock, and
    never writes.  Hence, in every interleaving of any calls of
    [Rebuild] and [Search]: at most one goroutine is between [Lock] and
    [Unlock], and none then holds a read lock; a goroutine about to make
    an embedding request holds no lock; a goroutine about to write
    [ix.docs] holds the exclusive lock and writes the complete corpus of
    its [Rebuild]; a goroutine about to read [ix.docs] holds a read lock
    and reads the corpus that was current when it took it; the corpus
    is at any time the initial one or the complete corpus of one of the
    calls of [Rebuild]; and a [Search] that has returned has returned
    the ranking of one such corpus, never of a mix. *)
Theorem Rebuild_atomic_for_Search :
  (forall products,
      disciplined Unlocked (Rebuild products) /\
      publishes (complete_corpus products) (Rebuild products)) /\
  (forall query topK,
      disciplined Unlocked (Search query topK) /\
      publishes (fun _ => False) (Search query topK)) /\
  (forall products w ix, Rebuild_ends products ix (run (Rebuild products) w ix)) /\
  (forall query topK w ix, Search_ends query topK w ix (run (Search query topK) w ix)) /\
  (forall (calls : list call) (w : World) (ix0 : Index) (schedule : list nat),
      map origin (threads (exec schedule (boot calls w ix0))) = calls /\
      (sum_list (map holds_write (threads (exec schedule (boot calls w ix0)))) <= 1)%nat /\
      (forall i t, threads (exec schedule (boot calls w ix0)) !! i = Some t ->
         (holds_write t = 1%nat ->
            writer (exec schedule (boot calls w ix0)) = true /\
            Forall (fun t' => held t' <> Reading)
                   (threads (exec schedule (boot calls w ix0)))) /\
         (forall text k, code t = EmbedContent text k -> held t = Unlocked) /\
         (forall ds k, code t = SetDocs ds k ->
            held t = Writing /\ may_publish (origin t) ds) /\
         (forall k, code t = GetDocs k ->
            held t = Reading /\
            view t = Some (docs (m_index (exec schedule (boot calls w ix0))))) /\
         (held t = Reading ->
            view t = Some (docs (m_index (exec schedule (boot calls w ix0))))) /\
         (forall query topK v,
            origin t = CallSearch query topK -> code t = Ret v ->
            Search_result_ok calls ix0 query topK v)) /\
      published calls ix0 (docs (m_index (exec schedule (boot calls w ix0))))).
Proof.
  split; [|split; [|split; [|split]]].
  - intros products. split; [apply Rebuild_disciplined | apply Rebuild_publishes].
  - intros query topK. split; [apply Search_disciplined | apply Search_publishes].
  - apply Rebuild_run.
  - apply Search_run.
  - intros calls w ix0 schedule.
    pose proof (exec_consistent calls ix0 schedule _ (boot_consistent calls w ix0)) as Hc.
    pose proof (exec_searches_stand calls ix0 schedule _
                  (boot_consistent calls w ix0) (boot_searches_stand calls w ix0)) as Hs.
    set (c := exec schedule (boot calls w ix0)) in *.
    split; [|split; [|split]].
    + apply (origins _ _ _ Hc).
    + rewrite (writer_counted _ _ _ Hc). destruct (writer c); lia.
    + intros i t Ht.
      pose proof (Forall_lookup_1 _ _ _ _ (discipline _ _ _ Hc) Ht) as Hd.
      pose proof (Forall_lookup_1 _ _ _ _ (writes_complete _ _ _ Hc) Ht) as Hp.
      pose proof (Forall_lookup_1 _ _ _ _ (views_current _ _ _ Hc) Ht) as Hv.
      pose proof (Forall_lookup_1 _ _ _ _ Hs Ht) as Hst.
      cbv beta in Hd, Hp, Hv, Hst. unfold disciplined in Hd.
      split; [|split; [|split; [|split; [|split]]]].
      * intros Hw. eapply writer_excludes_readers; eauto.
      * intros text k Hk. rewrite Hk in Hd. simpl in Hd. tauto.
      * intros ds k Hk. rewrite Hk in Hd, Hp. simpl in Hd, Hp. tauto.
      * intros k Hk. rewrite Hk in Hd. simpl in Hd. destruct Hd as [Hm _]. auto.
      * exact Hv.
      * intros query topK v Ho Hret.
        eapply returned_Search_ok; [apply (Hst query topK Ho) | exact Hret].
    + apply (corpus_published _ _ _ Hc).
Qed.

End Atomicity.

Lemma race_runs :
  step 1%nat (exec [0; 1; 0; 0]%nat race) = None /\
  map code (threads (exec [0; 1; 0; 0; 1; 0; 0; 0; 0; 0; 0; 1; 1; 1]%nat race))
    = [Ret (SearchReturned
              (fst (result (demo_Search "apple" 0 [inl vec_one] demo_index)), None));
       Ret (RebuildReturned None)] /\
  map P (docs (m_index (exec [0; 1; 0; 0; 1; 0; 0; 0; 0; 0; 0; 1; 1; 1]%nat race))) = [galaxy].
Proof. vm_compute. repeat split. Qed.

(** ** The scorer: symmetry of [cosine], and [max3] in any order *)

Lemma F32_mul_comm (x y : float32) : F32.mul x y = F32.mul y x.
Proof.
  unfold F32.mul, SFmul.
  destruct x as [sx|sx| |sx mx ex], y as [sy|sy| |sy my ey]; try reflexivity;
    rewrite (xorb_comm sx sy); try reflexivity.
  now rewrite (Pos.mul_comm mx my), (Z.add_comm ex ey).
Qed.

Lemma F64_mul_comm (x y : float64) : F64.mul x y = F64.mul y x.
Proof.
  unfold F64.mul, SFmul.
  destruct x as [sx|sx| |sx mx ex], y as [sy|sy| |sy my ey]; try reflexivity;
    rewrite (xorb_comm sx sy); try reflexivity.
  now rewrite (Pos.mul_comm mx my), (Z.add_comm ex ey).
Qed.

Lemma combine_swap {A B : Type} (a : list A) :
  forall b : list B, combine b a = map (fun xy => (snd xy, fst xy)) (combine a b).
Proof.
  induction a as [|x a IH]; intros [|y b]; simpl; try reflexivity.
  now rewrite IH.
Qed.

(** Swapping the two vectors swaps the two norms and keeps the dot
    product. *)
Lemma cosine_sums_swap (l : list (float32 * float32)) :
  forall dot na nb : float64,
    fold_left (cosine_step ieee) (map (fun xy => (snd xy, fst xy)) l) (dot, nb, na)
    = let '(d, x, y) := fold_left (cosine_step ieee) l (dot, na, nb) in (d, y, x).
Proof.
  induction l as [|[x y] l IH]; intros dot na nb; simpl; [reflexivity|].
  rewrite (F32_mul_comm y x). apply IH.
Qed.

(** X1: [cosine] is symmetric in its two vectors, on every input, the
    results NaN and the guarded zero included. *)
Theorem cosine_symmetric (a b : list float32) : cosine a b = cosine b a.
Proof.
  unfold cosine, cosine_gen. simpl.
  rewrite (Nat.eqb_sym (length b) (length a)).
  rewrite (orb_comm (length b =? 0)%nat (length a =? 0)%nat).
  destruct ((length a =? 0)%nat || (length b =? 0)%nat
            || negb (length a =? length b)%nat); [reflexivity|].
  unfold cosine_sums. simpl.
  rewrite (combine_swap a b).
  pose proof (cosine_sums_swap (combine a b) F64.zero F64.zero F64.zero) as H.
  simpl in H. rewrite H. clear H.
  match goal with
  | |- context [@fold_left ?A ?B ?f ?l ?i] => generalize (@fold_left A B f l i)
  end.
  intros [[dot na] nb]. simpl.
  now rewrite (F64_mul_comm (F64.sqrt nb) (F64.sqrt na)).
Qed.

Ltac compare_cases :=
  change (Pos.compare_cont Eq) with Pos.compare;
  repeat match goal with
  | |- context [Z.compare ?a ?b] => destruct (Z.compare_spec a b); simpl
  | |- context [Pos.compare ?a ?b] => destruct (Pos.compare_spec a b); simpl
  end;
  try (intros; subst; first [ reflexivity | discriminate | congruence | lia ]).

Lemma math_Max_comm (x y : float64) : math_Max x y = math_Max y x.
Proof.
  unfold math_Max, F64.gtb, SFltb, SFcompare.
  destruct x as [[]|[]| |[] ? ?], y as [[]|[]| |[] ? ?]; simpl;
    try reflexivity; compare_cases.
Qed.

Lemma math_Max_assoc (x y z : float64) :
  math_Max x (math_Max y z) = math_Max (math_Max x y) z.
Proof.
  destruct x as [[]|[]| |[] mx ex], y as [[]|[]| |[] my ey], z as [[]|[]| |[] mz ez];
    try reflexivity;
    unfold math_Max, F64.gtb, SFltb, SFcompare; simpl; compare_cases.
Qed.

(** X2: [max3] does not depend on the order of its three arguments:
    the fuzzy component is the same whichever of title, brand and
    description is compared first, with NaN, the infinities and the two
    zeros among the values. *)
Theorem max3_order_independent (a b c : float64) :
  max3 a b c = max3 a c b /\
  max3 a b c = max3 b a c /\
  max3 a b c = max3 b c a /\
  max3 a b c = max3 c a b /\
  max3 a b c = max3 c b a.
Proof.
  unfold max3.
  assert (H1 : math_Max a (math_Max b c) = math_Max a (math_Max c b))
    by now rewrite (math_Max_comm b c).
  assert (H2 : math_Max a (math_Max b c) = math_Max b (math_Max a c))
    by now rewrite !math_Max_assoc, (math_Max_comm a b).
  assert (H3 : math_Max a (math_Max b c) = math_Max b (math_Max c a))
    by now rewrite H2, (math_Max_comm a c).
  assert (H4 : math_Max a (math_Max b c) = math_Max c (math_Max a b))
    by now rewrite math_Max_assoc, (math_Max_comm _ c).
  assert (H5 : math_Max a (math_Max b c) = math_Max c (math_Max b a))
    by now rewrite H4, (math_Max_comm a b).
  auto.
Qed.

(** ** More on [Search] and [Rebuild] run alone *)

Lemma truncate_firstn (k : Z) (l : list SearchResult) :
  0 < k -> truncate k l = firstn (Z.to_nat k) l.
Proof.
  intros Hk. unfold truncate.
  destruct (Z.ltb_spec 0 k) as [_|]; [|lia].
  destruct (Z.ltb_spec k (Z.of_nat (length l))) as [|Hl]; simpl; [reflexivity|].
  symmetry. apply firstn_all2. lia.
Qed.

Lemma firstn_truncate (k k' : Z) (l : list SearchResult) :
  0 < k -> k' <= 0 \/ k <= k' ->
  firstn (Z.to_nat k) (truncate k' l) = firstn (Z.to_nat k) l.
Proof.
  intros Hk [Hk' | Hk'].
  - now rewrite truncate_all.
  - rewrite truncate_firstn by lia. rewrite firstn_firstn.
    f_equal. lia.
Qed.

Lemma embed_requests_weight_reads (ds : list productDoc) :
  embed_requests (weight_reads ds) = [].
Proof. induction ds as [|d ds IH]; simpl; auto. Qed.

Section IndexAlone.
Context {L : Lib} {E : Env}.

(** X3: a limited [Search] returns the first [k] results of the same
    search run with a larger limit or with none; the error and the
    requests made are the same. *)
Theorem Search_limit_is_prefix (query : string) (k k' : Z) (w : World) (ix : Index) :
  0 < k ->
  k' <= 0 \/ k <= k' ->
  fst (result (run (Search query k) w ix))
    = firstn (Z.to_nat k) (fst (result (run (Search query k') w ix))) /\
  snd (result (run (Search query k) w ix)) = snd (result (run (Search query k') w ix)) /\
  world (run (Search query k) w ix) = world (run (Search query k') w ix) /\
  trace (run (Search query k) w ix) = trace (run (Search query k') w ix).
Proof.
  intros Hk Hk'.
  destruct (Search_run query k w ix) as [Hq -> | err w1 Hq He -> | qVec w1 Hq He ->];
    destruct (Search_run query k' w ix)
      as [Hq' -> | err' w1' Hq' He' -> | qVec' w1' Hq' He' ->];
    simpl; try contradiction; try congruence.
  - now rewrite firstn_nil.
  - assert (err = err' /\ w1 = w1') as [<- <-] by (split; congruence).
    now rewrite firstn_nil.
  - assert (qVec = qVec' /\ w1 = w1') as [<- <-] by (split; congruence).
    rewrite firstn_truncate by assumption.
    now rewrite truncate_firstn by assumption.
Qed.

(** X4: when the provider fails to embed the query, [Search] returns no
    result and the provider's error wrapped as "embed query: ..."; it
    has made that one request and nothing else: no lock taken, the
    corpus not read, the index as it was. *)
Theorem Search_provider_failure
    (query : string) (topK : Z) (w w' : World) (ix : Index) (cause : error) :
  TrimSpace query <> "" ->
  embed_answer w (TrimSpace query) = (inr cause, w') ->
  run (Search query topK) w ix =
    {| result := ([], Some (EmbedQueryError cause)); world := w'; index := ix;
       trace := [EvEmbedContent (TrimSpace query) (inr cause)] |} /\
  Error (EmbedQueryError cause) = "embed query: " +:+ Error cause.
Proof.
  intros Hq He. split; [|reflexivity].
  destruct (Search_run query topK w ix) as [Hq' _ | err w1 _ He' -> | qVec w1 _ He' _];
    [contradiction | | congruence].
  assert (err = cause /\ w1 = w') as [-> ->] by (split; congruence).
  reflexivity.
Qed.

(** X5: for a query that does not trim to empty, [Search] makes exactly
    one embedding request, for the trimmed query, whatever the corpus
    holds; over an empty corpus it still makes it, and returns no
    result. *)
Theorem Search_one_request {HL : LibLaws L}
    (query : string) (topK : Z) (w : World) (ix : Index) :
  TrimSpace query <> "" ->
  embed_requests (trace (run (Search query topK) w ix))
    = [(TrimSpace query, fst (embed_answer w (TrimSpace query)))] /\
  world (run (Search query topK) w ix) = snd (embed_answer w (TrimSpace query)) /\
  (docs ix = [] -> fst (result (run (Search query topK) w ix)) = []).
Proof.
  intros Hq.
  destruct (Search_run query topK w ix) as [Hq' _ | err w1 _ He -> | qVec w1 _ He ->];
    [contradiction | |]; rewrite He; simpl.
  - auto.
  - split; [|split; [reflexivity|]].
    + unfold embed_requests. simpl. f_equal.
      fold (embed_requests (weight_reads (docs ix) ++ [EvRUnlock])).
      now rewrite embed_requests_app, embed_requests_weight_reads.
    + intros Hd. unfold scored. rewrite Hd. simpl.
      assert (Hs : sort_Slice by_score_desc (@nil SearchResult) = []).
      { apply Permutation_nil. symmetry. apply sort_Slice_Permutation. }
      rewrite Hs. unfold truncate.
      destruct (_ && _); [apply firstn_nil | reflexivity].
Qed.

Lemma Rebuild_succeeds_with (products : list Product) (w : World) (ix : Index) :
  result (run (Rebuild products) w ix) = None ->
  exists new : list productDoc,
    map P new = surviving products /\
    corpus_ok new /\
    trace (run (Rebuild products) w ix)
      = map request_event (map request_of new) ++ [EvLock; EvSetDocs new; EvUnlock] /\
    index (run (Rebuild products) w ix) = set_docs ix new.
Proof.
  intros Hr.
  destruct (Rebuild_run products w ix)
    as [new _ Hm Hok Ht Hi | before after p cause new Hr' _ _ _ _ _ _];
    [|congruence].
  exists new. auto.
Qed.

(** X6: a [Rebuild] that succeeds has asked the provider for one
    embedding per item whose text is not empty, in the order of the
    input, each for the trimmed join of title, brand and description;
    the corpus holds these items in that order, each with the vector the
    provider answered for it. *)
Theorem Rebuild_requests_in_order (products : list Product) (w : World) (ix : Index) :
  result (run (Rebuild products) w ix) = None ->
  embed_requests (trace (run (Rebuild products) w ix))
    = map (fun d => (joined (P d), inl (Embedding d)))
          (docs (index (run (Rebuild products) w ix))) /\
  map fst (embed_requests (trace (run (Rebuild products) w ix)))
    = map joined (surviving products) /\
  map P (docs (index (run (Rebuild products) w ix))) = surviving products.
Proof.
  intros Hr.
  destruct (Rebuild_succeeds_with products w ix Hr) as (new & Hm & Hok & Ht & Hi).
  rewrite Ht, Hi. simpl.
  rewrite embed_requests_app, embed_requests_events. simpl. rewrite app_nil_r.
  assert (Hreq : map request_of new = map (fun d => (joined (P d), inl (Embedding d))) new).
  { apply map_ext_in. intros d Hd. unfold request_of.
    unfold corpus_ok in Hok. rewrite List.Forall_forall in Hok.
    now rewrite (proj1 (Hok d Hd)). }
  rewrite Hreq. split; [reflexivity|]. split; [|exact Hm].
  rewrite <- Hm, !map_map. reflexivity.
Qed.

Lemma Rebuild_loop_any_index (products : list Product) :
  forall (docs : list productDoc) (w : World) (ix1 ix2 : Index),
    result (run (Rebuild_loop products docs) w ix1)
      = result (run (Rebuild_loop products docs) w ix2) /\
    world (run (Rebuild_loop products docs) w ix1)
      = world (run (Rebuild_loop products docs) w ix2) /\
    trace (run (Rebuild_loop products docs) w ix1)
      = trace (run (Rebuild_loop products docs) w ix2) /\
    index (run (Rebuild_loop products docs) w ix1) = ix1.
Proof.
  induction products as [|p products IH]; intros docs w ix1 ix2; simpl; [auto|].
  destruct (String.eqb (joined p) ""); [apply IH|].
  simpl. destruct (embed_answer w (joined p)) as [[values | err] w1]; simpl; [|auto].
  destruct (IH (docs ++ [{| P := p; Embedding := values; SearchText := joined p |}])
               w1 ix1 ix2) as (H1 & H2 & H3 & H4).
  now rewrite H1, H2, H3, H4.
Qed.

(** X7: [Rebuild] replaces the corpus, it does not add to it: what it
    returns, what it asks the provider and the corpus it publishes do
    not depend on the index it is called on, and it keeps the two
    weights of that index. *)
Theorem Rebuild_replaces_corpus (products : list Product) (w : World) (ix1 ix2 : Index) :
  result (run (Rebuild products) w ix1) = result (run (Rebuild products) w ix2) /\
  world (run (Rebuild products) w ix1) = world (run (Rebuild products) w ix2) /\
  trace (run (Rebuild products) w ix1) = trace (run (Rebuild products) w ix2) /\
  (result (run (Rebuild products) w ix1) = None ->
     docs (index (run (Rebuild products) w ix1))
       = docs (index (run (Rebuild products) w ix2))) /\
  semanticWeight (index (run (Rebuild products) w ix1)) = semanticWeight ix1 /\
  fuzzyWeight (index (run (Rebuild products) w ix1)) = fuzzyWeight ix1.
Proof.
  unfold Rebuild. rewrite !run_bind. simpl.
  destruct (Rebuild_loop_any_index products [] w ix1 ix2) as (H1 & H2 & H3 & H4).
  destruct (Rebuild_loop_any_index products [] w ix2 ix1) as (_ & _ & _ & H5).
  rewrite H4, H5, <- H1, <- H2, <- H3.
  destruct (result (run (Rebuild_loop products []) w ix1)) as [ds | err]; simpl.
  all: repeat split; try reflexivity; intros; discriminate.
Qed.

Lemma Rebuild_loop_nothing (products : list Product) :
  Forall (fun p => joined p = "") products ->
  forall (docs : list productDoc) (w : World) (ix : Index),
    run (Rebuild_loop products docs) w ix
      = {| result := inl docs; world := w; index := ix; trace := [] |}.
Proof.
  induction 1 as [|p products Hp _ IH]; intros docs w ix; simpl; [reflexivity|].
  rewrite Hp. simpl. apply IH.
Qed.

(** X8: a [Rebuild] of items that all have an empty text, of no item in
    particular, asks the provider nothing, returns no error and
    publishes an empty corpus: the documents that were indexed are
    gone. *)
Theorem Rebuild_of_nothing_clears (products : list Product) (w : World) (ix : Index) :
  Forall (fun p => joined p = "") products ->
  run (Rebuild products) w ix
    = {| result := None; world := w; index := set_docs ix [];
         trace := [EvLock; EvSetDocs []; EvUnlock] |}.
Proof.
  intros H. unfold Rebuild. rewrite run_bind.
  rewrite (Rebuild_loop_nothing products H). reflexivity.
Qed.

(** X9: after a [Rebuild] that succeeded, a [Search] with no limit whose
    query is not empty and gets its embedding returns each item that
    [Rebuild] kept exactly once: the products of its results are a
    permutation of the input items with a text. *)
Theorem Rebuild_then_Search_returns_all {HL : LibLaws L}
    (products : list Product) (w : World) (ix : Index)
    (query : string) (topK : Z) (w1 w2 : World) (qVec : list float32) :
  result (run (Rebuild products) w ix) = None ->
  topK <= 0 ->
  TrimSpace query <> "" ->
  embed_answer w1 (TrimSpace query) = (inl qVec, w2) ->
  Permutation
    (map product (fst (result (run (Search query topK) w1
                                   (index (run (Rebuild products) w ix))))))
    (surviving products) /\
  snd (result (run (Search query topK) w1 (index (run (Rebuild products) w ix)))) = None.
Proof.
  intros Hr Hk Hq He.
  destruct (Rebuild_succeeds_with products w ix Hr) as (new & Hm & _ & _ & Hi).
  rewrite Hi.
  destruct (Search_run query topK w1 (set_docs ix new))
    as [Hq' _ | err w3 _ He' _ | qVec' w3 _ He' ->];
    [contradiction | congruence |].
  simpl. split; [|reflexivity].
  rewrite truncate_all by assumption.
  rewrite (Permutation_map product (sort_Slice_Permutation _ _ _)).
  unfold scored. simpl. rewrite map_map, <- Hm.
  now rewrite (List.map_ext _ P (fun d => eq_refl)).
Qed.

End IndexAlone.

Lemma Search_limit_is_prefix_witness :
  0 < 1 /\ (0 <= 0 \/ 1 <= 0) /\
  fst (result (demo_Search "apple" 1 [inl vec_one] demo_index))
    = firstn 1 (fst (result (demo_Search "apple" 0 [inl vec_one] demo_index))) /\
  length (fst (result (demo_Search "apple" 0 [inl vec_one] demo_index))) = 2%nat.
Proof.
  assert (H1 : 0 < 1) by lia.
  assert (H2 : 0 <= 0 \/ 1 <= 0) by (left; lia).
  pose proof (@Search_limit_is_prefix demo_Lib scripted_Env "apple" 1 0
                (answers [inl vec_one]) demo_index H1 H2) as H.
  split; [exact H1|]. split; [exact H2|]. split; [exact (proj1 H) | reflexivity].
Defined.

Lemma Search_provider_failure_witness :
  TrimSpace (Lib := demo_Lib) " apple " <> "" /\
  demo_Search " apple " 5 [provider_down] demo_index =
    Build_outcome scripted_Env _ ([], Some (EmbedQueryError (ExternalError "unavailable")))
      (answers []) demo_index [EvEmbedContent "apple" provider_down] /\
  Error (EmbedQueryError (ExternalError "unavailable")) = "embed query: unavailable".
Proof.
  assert (H1 : TrimSpace (Lib := demo_Lib) " apple " <> "") by (vm_compute; discriminate).
  assert (H2 : embed_answer (Env := scripted_Env) (answers [provider_down])
                 (TrimSpace (Lib := demo_Lib) " apple ")
               = (inr (ExternalError "unavailable"), answers [])) by reflexivity.
  pose proof (@Search_provider_failure demo_Lib scripted_Env " apple " 5
                (answers [provider_down]) (answers []) demo_index
                (ExternalError "unavailable") H1 H2) as H.
  split; [exact H1|]. split; [exact (proj1 H) | exact (proj2 H)].
Defined.

Lemma Search_one_request_witness :
  LibLaws demo_Lib /\
  TrimSpace (Lib := demo_Lib) " apple " <> "" /\
  embed_requests (trace (demo_Search " apple " 3 [inl vec_one] (New semW fuzW)))
    = [("apple", inl vec_one)] /\
  docs (New semW fuzW) = [] /\
  fst (result (demo_Search " apple " 3 [inl vec_one] (New semW fuzW))) = [].
Proof.
  split; [exact demo_LibLaws|].
  assert (H1 : TrimSpace (Lib := demo_Lib) " apple " <> "") by (vm_compute; discriminate).
  pose proof (@Search_one_request demo_Lib scripted_Env demo_LibLaws " apple " 3
                (answers [inl vec_one]) (New semW fuzW) H1) as H.
  split; [exact H1|]. split; [exact (proj1 H)|]. split; [reflexivity|].
  exact (proj2 (proj2 H) eq_refl).
Defined.

Lemma Rebuild_requests_in_order_witness :
  result (demo_Rebuild [iphone; blank; galaxy] [inl vec_one; inl vec_minus_one]
            (New semW fuzW)) = None /\
  map fst (embed_requests
             (trace (demo_Rebuild [iphone; blank; galaxy] [inl vec_one; inl vec_minus_one]
                       (New semW fuzW))))
    = [joined (L := demo_Lib) iphone; joined (L := demo_Lib) galaxy] /\
  map Embedding (docs (index (demo_Rebuild [iphone; blank; galaxy]
                                [inl vec_one; inl vec_minus_one] (New semW fuzW))))
    = [vec_one; vec_minus_one].
Proof.
  assert (H1 : result (demo_Rebuild [iphone; blank; galaxy] [inl vec_one; inl vec_minus_one]
                         (New semW fuzW)) = None) by reflexivity.
  pose proof (@Rebuild_requests_in_order demo_Lib scripted_Env [iphone; blank; galaxy]
                (answers [inl vec_one; inl vec_minus_one]) (New semW fuzW) H1) as H.
  split; [exact H1|]. split; [exact (proj1 (proj2 H)) | reflexivity].
Defined.

Lemma Rebuild_of_nothing_clears_witness :
  Forall (fun p => joined (L := demo_Lib) p = "") [blank] /\
  length (docs demo_index) = 2%nat /\
  demo_Rebuild [blank] [] demo_index =
    Build_outcome scripted_Env _ None (answers []) (set_docs demo_index [])
      [EvLock; EvSetDocs []; EvUnlock].
Proof.
  assert (H1 : Forall (fun p => joined (L := demo_Lib) p = "") [blank])
    by (constructor; [reflexivity | constructor]).
  split; [exact H1|]. split; [reflexivity|].
  exact (@Rebuild_of_nothing_clears demo_Lib scripted_Env [blank] (answers []) demo_index H1).
Defined.

Lemma Rebuild_then_Search_returns_all_witness :
  LibLaws demo_Lib /\
  Permutation
    (map product
       (fst (result (demo_Search "apple" 0 [inl vec_one]
                       (index (demo_Rebuild [iphone; blank; galaxy]
                                 [inl vec_one; inl vec_minus_one] (New semW fuzW)))))))
    [iphone; galaxy].
Proof.
  split; [exact demo_LibLaws|].
  assert (H1 : result (demo_Rebuild [iphone; blank; galaxy] [inl vec_one; inl vec_minus_one]
                         (New semW fuzW)) = None) by reflexivity.
  assert (H2 : 0 <= 0) by lia.
  assert (H3 : TrimSpace (Lib := demo_Lib) "apple" <> "") by (vm_compute; discriminate).
  assert (H4 : embed_answer (Env := scripted_Env) (answers [inl vec_one])
                 (TrimSpace (Lib := demo_Lib) "apple")
               = (inl vec_one, answers [])) by reflexivity.
  exact (proj1 (@Rebuild_then_Search_returns_all demo_Lib scripted_Env demo_LibLaws
                  [iphone; blank; galaxy] (answers [inl vec_one; inl vec_minus_one])
                  (New semW fuzW) "apple" 0 (answers [inl vec_one]) (answers [])
                  vec_one H1 H2 H3 H4)).
Defined.

(** ** [normalize] and [RewriteQuery] *)

Section Rewriter.
Context {L : Lib}.

Lemma clean_Some (seen seen' : gset string) (s v : string) :
  clean seen s = (Some v, seen') ->
  v = TrimSpace s /\ v <> "" /\ (ToLower v ∉ seen) /\ seen' = {[ ToLower v ]} ∪ seen.
Proof.
  unfold clean.
  destruct (String.eqb_spec (TrimSpace s) "") as [He | He]; [discriminate|].
  destruct (decide (ToLower (TrimSpace s) ∈ seen)) as [Hin | Hin]; [discriminate|].
  intros [= <- <-]. auto.
Qed.

Lemma clean_None (seen seen' : gset string) (s : string) :
  clean seen s = (None, seen') ->
  seen' = seen /\ (TrimSpace s = "" \/ ToLower (TrimSpace s) ∈ seen).
Proof.
  unfold clean.
  destruct (String.eqb_spec (TrimSpace s) "") as [He | He]; [intros [= <-]; auto|].
  destruct (decide (ToLower (TrimSpace s) ∈ seen)) as [Hin | Hin];
    [intros [= <-]; auto | discriminate].
Qed.

(** What the loop over the alternatives appends to [out]. *)
Lemma normalize_alternatives_appends (alts : list string) :
  forall (seen : gset string) (out : list string),
  exists new : list string,
    normalize_alternatives seen alts out = out ++ new /\
    sublist new (map TrimSpace alts) /\
    Forall (fun v => v <> "") new /\
    Forall (fun v => ToLower v ∉ seen) new /\
    NoDup (map ToLower new) /\
    ((length out <= 2)%nat -> (length (out ++ new) <= 3)%nat) /\
    ((length (out ++ new) < 3)%nat ->
     Forall (fun a => TrimSpace a = "" \/ ToLower (TrimSpace a) ∈ seen \/
                      In (ToLower (TrimSpace a)) (map ToLower new)) alts).
Proof.
  induction alts as [|a alts IH]; intros seen out; cbn [normalize_alternatives].
  - exists []. rewrite app_nil_r.
    repeat split; auto using sublist_nil, NoDup_nil_2; simpl; lia.
  - destruct (clean seen a) as [[v|] seen'] eqn:Hc.
    + apply clean_Some in Hc. destruct Hc as (-> & Hne & Hnew & ->).
      set (v := TrimSpace a) in *.
      destruct (Nat.leb_spec 3 (length (out ++ [v]))) as [Hlen | Hlen].
      * exists [v].
        split; [reflexivity|].
        split; [apply sublist_skip, sublist_nil_l|].
        split; [now repeat constructor|].
        split; [now repeat constructor|].
        split; [apply NoDup_singleton|].
        split; [rewrite length_app; simpl; lia | lia].
      * destruct (IH ({[ ToLower v ]} ∪ seen) (out ++ [v]))
          as (new & Heq & Hsub & Hnes & Hseen & Hnd & Hle & Hall).
        exists (v :: new). rewrite Heq, <- app_assoc.
        assert (Hfresh : ~ In (ToLower v) (map ToLower new)).
        { intros Hin. apply in_map_iff in Hin. destruct Hin as (v' & Hv' & Hin).
          rewrite List.Forall_forall in Hseen. apply (Hseen v' Hin).
          rewrite Hv'. set_solver. }
        split; [reflexivity|].
        split; [now apply sublist_skip|].
        split; [now constructor|].
        split.
        { constructor; [exact Hnew|].
          eapply Forall_impl; [exact Hseen|]. simpl. intros v' Hv'. set_solver. }
        split.
        { apply NoDup_cons. split; [|exact Hnd].
          now rewrite list_elem_of_In. }
        split.
        { intros _. change (out ++ v :: new) with (out ++ ([v] ++ new)).
          rewrite app_assoc. apply Hle. lia. }
        intros Hshort.
        change (out ++ v :: new) with (out ++ ([v] ++ new)) in Hshort.
        rewrite app_assoc in Hshort.
        constructor.
        { right. right. now left. }
        eapply Forall_impl; [exact (Hall Hshort)|]. simpl.
        intros a' [Ha' | [Ha' | Ha']]; [now left | | now right; right; right].
        apply elem_of_union in Ha'. destruct Ha' as [Ha' | Ha'];
          [| now right; left].
        apply elem_of_singleton in Ha'. right. right. left. now rewrite Ha'.
    + apply clean_None in Hc. destruct Hc as [-> Hwhy].
      destruct (IH seen out) as (new & Heq & Hsub & Hnes & Hseen & Hnd & Hle & Hall).
      exists new.
      split; [exact Heq|].
      split; [now apply sublist_cons|].
      repeat (split; [assumption|]).
      intros Hshort. constructor; [tauto | auto].
Qed.

Lemma normalize_Primary (r : Rewrite) : Primary (normalize r) = TrimSpace (Primary r).
Proof.
  unfold normalize.
  destruct (clean ∅ (Primary r)) as [[p|] seen] eqn:Hc; simpl.
  - now apply clean_Some in Hc.
  - apply clean_None in Hc. destruct Hc as [_ [He | Hin]]; [now rewrite He|].
    set_solver.
Qed.

(** The set [seen] when the loop over the alternatives starts. *)
Lemma normalize_seen (r : Rewrite) :
  exists seen : gset string,
    Alternatives (normalize r) = normalize_alternatives seen (Alternatives r) [] /\
    (TrimSpace (Primary r) = "" -> seen = ∅) /\
    (TrimSpace (Primary r) <> "" -> seen = {[ ToLower (TrimSpace (Primary r)) ]}).
Proof.
  unfold normalize.
  destruct (clean ∅ (Primary r)) as [[p|] seen] eqn:Hc; simpl; exists seen.
  - apply clean_Some in Hc. destruct Hc as (-> & Hne & _ & ->).
    split; [reflexivity|]. split; [contradiction|]. intros _.
    apply union_empty_r_L.
  - apply clean_None in Hc. destruct Hc as [-> [He | Hin]];
      [|now apply not_elem_of_empty in Hin].
    split; [reflexivity|]. split; [reflexivity | contradiction].
Qed.

(** X10: [normalize] trims the primary, and returns at most three
    alternatives, none of them empty, which are trimmed alternatives of
    its input in the order of the input: it invents and reorders
    nothing. *)
Theorem normalize_alternatives_bounded (r : Rewrite) :
  Primary (normalize r) = TrimSpace (Primary r) /\
  (length (Alternatives (normalize r)) <= 3)%nat /\
  sublist (Alternatives (normalize r)) (map TrimSpace (Alternatives r)) /\
  Forall (fun v => v <> "") (Alternatives (normalize r)).
Proof.
  split; [apply normalize_Primary|].
  destruct (normalize_seen r) as (seen & -> & _).
  destruct (normalize_alternatives_appends (Alternatives r) seen [])
    as (new & -> & Hsub & Hne & _ & _ & Hle & _).
  simpl in *. split; [apply Hle; lia | auto].
Qed.

(** X11: the alternatives [normalize] returns are pairwise different
    when case is ignored, and different from the primary it returns;
    and when it returns fewer than three, nothing but the empty strings
    and such duplicates was dropped from its input. *)
Theorem normalize_removes_duplicates_only (r : Rewrite) :
  NoDup (map ToLower (Alternatives (normalize r))) /\
  (Primary (normalize r) <> "" ->
   ~ In (ToLower (Primary (normalize r))) (map ToLower (Alternatives (normalize r)))) /\
  ((length (Alternatives (normalize r)) < 3)%nat ->
   forall a, In a (Alternatives r) ->
     TrimSpace a = "" \/
     (Primary (normalize r) <> "" /\
      ToLower (TrimSpace a) = ToLower (Primary (normalize r))) \/
     In (ToLower (TrimSpace a)) (map ToLower (Alternatives (normalize r)))).
Proof.
  rewrite normalize_Primary.
  destruct (normalize_seen r) as (seen & -> & Hempty & Hone).
  destruct (normalize_alternatives_appends (Alternatives r) seen [])
    as (new & -> & _ & _ & Hseen & Hnd & _ & Hall).
  simpl in *. split; [exact Hnd|]. split.
  - intros Hp Hin. apply in_map_iff in Hin. destruct Hin as (v & Hv & Hin).
    rewrite List.Forall_forall in Hseen. apply (Hseen v Hin).
    rewrite (Hone Hp), Hv. set_solver.
  - intros Hshort a Ha.
    pose proof (Hall Hshort) as Hall'. rewrite List.Forall_forall in Hall'.
    destruct (Hall' a Ha) as [H | [H | H]]; [now left | | now right; right].
    destruct (String.eqb_spec (TrimSpace (Primary r)) "") as [Hp | Hp].
    + rewrite (Hempty Hp) in H. set_solver.
    + rewrite (Hone Hp) in H. apply elem_of_singleton in H. right. left. auto.
Qed.

Lemma normalize_alternatives_fixed (new : list string) :
  forall (seen : gset string) (out : list string),
    Forall (fun v => TrimSpace v = v /\ v <> "") new ->
    Forall (fun v => ToLower v ∉ seen) new ->
    NoDup (map ToLower new) ->
    (length (out ++ new) <= 3)%nat ->
    normalize_alternatives seen new out = out ++ new.
Proof.
  induction new as [|v new IH]; intros seen out Htrim Hseen Hnd Hlen;
    cbn [normalize_alternatives].
  - now rewrite app_nil_r.
  - inversion Htrim as [|? ? [Hv Hne] Htrim']; subst.
    inversion Hseen as [|? ? Hnew Hseen']; subst.
    apply NoDup_cons in Hnd. destruct Hnd as [Hfresh Hnd].
    unfold clean. rewrite Hv.
    destruct (String.eqb_spec v "") as [|_]; [contradiction|].
    destruct (decide (ToLower v ∈ seen)) as [|_]; [contradiction|].
    rewrite length_app in Hlen. simpl in Hlen.
    destruct (Nat.leb_spec 3 (length (out ++ [v]))) as [Hcap | Hcap].
    + rewrite length_app in Hcap. simpl in Hcap.
      destruct new; [reflexivity | simpl in Hlen; lia].
    + rewrite IH; [now rewrite <- app_assoc | exact Htrim' | | exact Hnd |].
      * rewrite List.Forall_forall in *. intros v' Hv'.
        intros Hin. apply elem_of_union in Hin. destruct Hin as [Hin | Hin].
        -- apply elem_of_singleton in Hin. apply Hfresh.
           rewrite list_elem_of_In. apply in_map_iff. eauto.
        -- now apply (Hseen' v' Hv').
      * rewrite <- app_assoc, length_app. simpl. lia.
Qed.

(** X12: [normalize] is idempotent: normalizing what it returned
    changes nothing, given that trimming a trimmed string changes
    nothing. *)
Theorem normalize_idempotent (r : Rewrite) :
  (forall s, TrimSpace (TrimSpace s) = TrimSpace s) ->
  normalize (normalize r) = normalize r.
Proof.
  intros Hidem.
  destruct (normalize_seen (normalize r)) as (seen' & Ha' & Hempty' & Hone').
  assert (Hp : Primary (normalize (normalize r)) = Primary (normalize r))
    by (rewrite !normalize_Primary; apply Hidem).
  rewrite !normalize_Primary, Hidem in Hempty', Hone'.
  assert (Ha : Alternatives (normalize (normalize r)) = Alternatives (normalize r)).
  { rewrite Ha'.
    destruct (normalize_seen r) as (seen & -> & Hempty & Hone).
    destruct (normalize_alternatives_appends (Alternatives r) seen [])
      as (new & -> & Hsub & Hne & Hseen & Hnd & Hle & _).
    simpl in *.
    assert (seen' = seen) as ->.
    { destruct (String.eqb_spec (TrimSpace (Primary r)) "") as [He | He].
      - now rewrite (Hempty He), (Hempty' He).
      - now rewrite (Hone He), (Hone' He). }
    apply (normalize_alternatives_fixed new seen []);
      [ | exact Hseen | exact Hnd | simpl; apply Hle; lia ].
    rewrite List.Forall_forall in *. intros v Hv. split; [|now apply Hne].
    rewrite <- list_elem_of_In in Hv.
    apply (elem_of_sublist _ _ _ Hv) in Hsub.
    rewrite list_elem_of_In in Hsub. apply in_map_iff in Hsub.
    destruct Hsub as (a & <- & _). apply Hidem. }
  destruct (normalize (normalize r)) as [p1 a1], (normalize r) as [p2 a2].
  simpl in Hp, Ha. now rewrite Hp, Ha.
Qed.

End Rewriter.

(** The trimming of the examples is idempotent. *)

Lemma drop_spaces_length (l : list Ascii.ascii) :
  (length (drop_spaces l) <= length l)%nat.
Proof.
  induction l as [|c l IH]; simpl; [lia|].
  destruct (ascii_space c); simpl; lia.
Qed.

Lemma drop_spaces_idempotent (l : list Ascii.ascii) :
  drop_spaces (drop_spaces l) = drop_spaces l.
Proof.
  induction l as [|c l IH]; simpl; [reflexivity|].
  destruct (ascii_space c) eqn:Hc; [exact IH|].
  simpl. now rewrite Hc.
Qed.

Lemma drop_spaces_split (l : list Ascii.ascii) :
  exists sp : list Ascii.ascii, l = sp ++ drop_spaces l.
Proof.
  induction l as [|c l [sp IH]]; simpl; [now exists []|].
  destruct (ascii_space c); [|now exists []].
  exists (c :: sp). simpl. now rewrite <- IH.
Qed.

Lemma drop_spaces_head (c : Ascii.ascii) (l : list Ascii.ascii) :
  drop_spaces (c :: l) = c :: l -> ascii_space c = false.
Proof.
  simpl. destruct (ascii_space c); [|reflexivity].
  intros H. pose proof (drop_spaces_length l) as Hl.
  rewrite H in Hl. simpl in Hl. lia.
Qed.

Lemma drop_spaces_rev (l1 : list Ascii.ascii) :
  drop_spaces l1 = l1 ->
  drop_spaces (rev (drop_spaces (rev l1))) = rev (drop_spaces (rev l1)).
Proof.
  intros H1.
  destruct (drop_spaces_split (rev l1)) as [sp Hsp].
  set (l2 := drop_spaces (rev l1)) in *.
  assert (Hl1 : l1 = rev l2 ++ rev sp)
    by (rewrite <- rev_app_distr, <- Hsp; now rewrite rev_involutive).
  destruct (rev l2) as [|c t] eqn:Hr; [reflexivity|].
  rewrite Hl1 in H1. simpl in H1. apply drop_spaces_head in H1.
  simpl. now rewrite H1.
Qed.

Lemma ascii_TrimSpace_idempotent (s : string) :
  ascii_TrimSpace (ascii_TrimSpace s) = ascii_TrimSpace s.
Proof.
  unfold ascii_TrimSpace.
  rewrite String.list_ascii_of_string_of_list_ascii.
  set (l1 := drop_spaces (String.list_ascii_of_string s)).
  rewrite (drop_spaces_rev l1) by apply drop_spaces_idempotent.
  now rewrite rev_involutive, drop_spaces_idempotent.
Qed.

Lemma normalize_idempotent_witness :
  (forall s, TrimSpace (Lib := demo_Lib) (TrimSpace (Lib := demo_Lib) s)
             = TrimSpace (Lib := demo_Lib) s) /\
  normalize (L := demo_Lib)
    {| Primary := " iPhone "; Alternatives := ["iphone"; " "; "Apple "; "apple"; "a"; "b"] |}
    = {| Primary := "iPhone"; Alternatives := ["Apple"; "a"; "b"] |} /\
  normalize (L := demo_Lib) {| Primary := "iPhone"; Alternatives := ["Apple"; "a"; "b"] |}
    = {| Primary := "iPhone"; Alternatives := ["Apple"; "a"; "b"] |}.
Proof.
  split; [exact ascii_TrimSpace_idempotent|].
  assert (H : normalize (L := demo_Lib)
                {| Primary := " iPhone ";
                   Alternatives := ["iphone"; " "; "Apple "; "apple"; "a"; "b"] |}
              = {| Primary := "iPhone"; Alternatives := ["Apple"; "a"; "b"] |})
    by (vm_compute; reflexivity).
  split; [exact H|].
  pose proof (@normalize_idempotent demo_Lib
                {| Primary := " iPhone ";
                   Alternatives := ["iphone"; " "; "Apple "; "apple"; "a"; "b"] |}
                ascii_TrimSpace_idempotent) as Hi.
  rewrite H in Hi. exact Hi.
Defined.

Section RewriterAlone.
Context {L : Lib} {E : Env}.

(** [RewriteQuery] on a query that does not trim to empty: one request
    to the model, and a result read off its answer. *)
Lemma RewriteQuery_asks (raw : string) (w : World) (ix : Index) :
  TrimSpace raw <> "" ->
  run (RewriteQuery raw) w ix =
    {| result :=
         match fst (generate_answer w [prompt; "Input: " +:+ Quote (TrimSpace raw)]) with
         | inr err => ({| Primary := ""; Alternatives := [] |}, Some err)
         | inl resp =>
             match json_Decode (extractText resp) with
             | None => ({| Primary := TrimSpace raw; Alternatives := [] |}, None)
             | Some r =>
                 (if String.eqb (Primary (normalize r)) ""
                  then {| Primary := TrimSpace raw;
                          Alternatives := Alternatives (normalize r) |}
                  else normalize r, None)
             end
         end;
       world := snd (generate_answer w [prompt; "Input: " +:+ Quote (TrimSpace raw)]);
       index := ix;
       trace := [EvGenerateContent [prompt; "Input: " +:+ Quote (TrimSpace raw)]
                   (fst (generate_answer w
                           [prompt; "Input: " +:+ Quote (TrimSpace raw)]))] |}.
Proof.
  intros Hq. unfold RewriteQuery.
  destruct (String.eqb_spec (TrimSpace raw) "") as [|_]; [contradiction|].
  simpl.
  destruct (generate_answer w _) as [[resp | err] w1]; simpl; [|reflexivity].
  destruct (json_Decode (extractText resp)) as [r|]; reflexivity.
Qed.

Lemma RewriteQuery_blank (raw : string) (w : World) (ix : Index) :
  TrimSpace raw = "" ->
  run (RewriteQuery raw) w ix =
    {| result := ({| Primary := ""; Alternatives := [] |}, Some EmptyQueryError);
       world := w; index := ix; trace := [] |}.
Proof.
  intros Hq. unfold RewriteQuery. rewrite Hq. reflexivity.
Qed.

(** What a rewrite returned without error looks like. *)
Lemma RewriteQuery_result_shape (raw : string) (w : World) (ix : Index) :
  snd (result (run (RewriteQuery raw) w ix)) = None ->
  TrimSpace raw <> "" /\
  Primary (fst (result (run (RewriteQuery raw) w ix))) <> "" /\
  (length (Alternatives (fst (result (run (RewriteQuery raw) w ix)))) <= 3)%nat /\
  Forall (fun v => v <> "") (Alternatives (fst (result (run (RewriteQuery raw) w ix)))) /\
  NoDup (map ToLower (Alternatives (fst (result (run (RewriteQuery raw) w ix))))).
Proof.
  destruct (String.eqb_spec (TrimSpace raw) "") as [Hq | Hq].
  - rewrite (RewriteQuery_blank raw w ix Hq). discriminate.
  - rewrite (RewriteQuery_asks raw w ix Hq). simpl.
    destruct (fst (generate_answer w _)) as [resp | err]; [|discriminate].
    intros _. split; [exact Hq|].
    destruct (json_Decode (extractText resp)) as [r|]; simpl.
    + destruct (normalize_seen r) as (seen & Ha & _).
      destruct (normalize_alternatives_appends (Alternatives r) seen [])
        as (new & Hnew & _ & Hne & _ & Hnd & Hle & _).
      rewrite Hnew in Ha. simpl in Ha, Hle.
      assert (Hl : (length new <= 3)%nat) by (apply Hle; lia).
      destruct (String.eqb_spec (Primary (normalize r)) "") as [Hp | Hp]; simpl;
        rewrite Ha; auto.
    + repeat split; auto using NoDup_nil_2.
Qed.

(** X13: a rewrite returned without error has a primary that is not
    empty and at most three alternatives, none empty, no two equal when
    case is ignored; when the model's answer is not the expected JSON,
    it is the trimmed query with no alternative. *)
Theorem RewriteQuery_success_shape (raw : string) (w : World) (ix : Index) :
  snd (result (run (RewriteQuery raw) w ix)) = None ->
  TrimSpace raw <> "" /\
  Primary (fst (result (run (RewriteQuery raw) w ix))) <> "" /\
  (length (Alternatives (fst (result (run (RewriteQuery raw) w ix)))) <= 3)%nat /\
  Forall (fun v => v <> "") (Alternatives (fst (result (run (RewriteQuery raw) w ix)))) /\
  NoDup (map ToLower (Alternatives (fst (result (run (RewriteQuery raw) w ix))))) /\
  (forall resp,
     fst (generate_answer w [prompt; "Input: " +:+ Quote (TrimSpace raw)]) = inl resp ->
     json_Decode (extractText resp) = None ->
     fst (result (run (RewriteQuery raw) w ix))
       = {| Primary := TrimSpace raw; Alternatives := [] |}).
Proof.
  intros Hok.
  destruct (RewriteQuery_result_shape raw w ix Hok) as (Hq & Hp & Hl & Hne & Hnd).
  repeat (split; [assumption|]).
  intros resp Hr Hd. rewrite (RewriteQuery_asks raw w ix Hq). simpl.
  now rewrite Hr, Hd.
Qed.

(** X14: [RewriteQuery] sends the model nothing for a query that trims
    to empty, and returns the error "empty query"; otherwise it sends
    one request, the instruction text and the quoted trimmed query, and
    returns the model's error as it is when the request fails.  It does
    not touch the index. *)
Theorem RewriteQuery_requests_and_errors (raw : string) (w : World) (ix : Index) :
  (TrimSpace raw = "" ->
     run (RewriteQuery raw) w ix =
       {| result := ({| Primary := ""; Alternatives := [] |}, Some EmptyQueryError);
          world := w; index := ix; trace := [] |}) /\
  (TrimSpace raw <> "" ->
     trace (run (RewriteQuery raw) w ix)
       = [EvGenerateContent [prompt; "Input: " +:+ Quote (TrimSpace raw)]
            (fst (generate_answer w [prompt; "Input: " +:+ Quote (TrimSpace raw)]))] /\
     world (run (RewriteQuery raw) w ix)
       = snd (generate_answer w [prompt; "Input: " +:+ Quote (TrimSpace raw)]) /\
     (forall err,
        fst (generate_answer w [prompt; "Input: " +:+ Quote (TrimSpace raw)]) = inr err ->
        result (run (RewriteQuery raw) w ix)
          = ({| Primary := ""; Alternatives := [] |}, Some err)) /\
     (forall resp,
        fst (generate_answer w [prompt; "Input: " +:+ Quote (TrimSpace raw)]) = inl resp ->
        snd (result (run (RewriteQuery raw) w ix)) = None)) /\
  index (run (RewriteQuery raw) w ix) = ix /\
  Error EmptyQueryError = "empty query".
Proof.
  split; [apply RewriteQuery_blank|].
  split; [|split; [apply RewriteQuery_index | reflexivity]].
  intros Hq. rewrite (RewriteQuery_asks raw w ix Hq). simpl.
  split; [reflexivity|]. split; [reflexivity|]. split.
  - intros err ->. reflexivity.
  - intros resp ->. now destruct (json_Decode (extractText resp)).
Qed.

End RewriterAlone.

Lemma RewriteQuery_success_shape_witness :
  result (run (E := scripted_Env) (RewriteQuery (L := demo_Lib) " iphnoe ")
              ([], [says "iPhone;iphone;Apple;apple"]) demo_index)
    = ({| Primary := "iPhone"; Alternatives := ["Apple"] |}, None) /\
  TrimSpace (Lib := demo_Lib) " iphnoe " <> "" /\
  (length ["Apple"] <= 3)%nat.
Proof.
  assert (H : result (run (E := scripted_Env) (RewriteQuery (L := demo_Lib) " iphnoe ")
                          ([], [says "iPhone;iphone;Apple;apple"]) demo_index)
              = ({| Primary := "iPhone"; Alternatives := ["Apple"] |}, None))
    by (vm_compute; reflexivity).
  split; [exact H|].
  pose proof (@RewriteQuery_success_shape demo_Lib scripted_Env " iphnoe "
                ([], [says "iPhone;iphone;Apple;apple"]) demo_index) as Hs.
  rewrite H in Hs. simpl in Hs.
  destruct (Hs eq_refl) as (Hq & _ & Hl & _).
  split; [exact Hq | exact Hl].
Defined.

(** ** More on the handler of [/search] *)

Lemma generate_requests_app (t1 t2 : list event) :
  generate_requests (t1 ++ t2) = generate_requests t1 ++ generate_requests t2.
Proof. unfold generate_requests. apply omap_app. Qed.

Lemma read_lock_count_app (t1 t2 : list event) :
  read_lock_count (t1 ++ t2) = (read_lock_count t1 + read_lock_count t2)%nat.
Proof. unfold read_lock_count. now rewrite List.filter_app, length_app. Qed.

Lemma generate_requests_weight_reads (ds : list productDoc) :
  generate_requests (weight_reads ds) = [].
Proof. induction ds as [|d ds IH]; simpl; auto. Qed.

Lemma read_lock_count_weight_reads (ds : list productDoc) :
  read_lock_count (weight_reads ds) = 0%nat.
Proof. induction ds as [|d ds IH]; simpl; auto. Qed.

Lemma returns_True {A : Type} (p : prog A) : returns (fun _ => True) p.
Proof. induction p; simpl; auto. Qed.

Lemma publishes_impl {A : Type} (S S' : list productDoc -> Prop) (p : prog A) :
  (forall ds, S ds -> S' ds) -> publishes S p -> publishes S' p.
Proof.
  intros HS. induction p; simpl; auto.
  intros [Hs Hp]. auto.
Qed.

Section HandlerAlone.
Context {L : Lib} {E : Env}.

Lemma Search_trace_counts (v : string) (topK : Z) (w : World) (ix : Index) :
  generate_requests (trace (run (Search v topK) w ix)) = [] /\
  (read_lock_count (trace (run (Search v topK) w ix)) <= 1)%nat /\
  (length (embed_requests (trace (run (Search v topK) w ix))) <= 1)%nat.
Proof.
  destruct (Search_run v topK w ix) as [Hq -> | err w' Hq He -> | qVec w' Hq He ->];
    simpl; auto.
  change (EvEmbedContent (TrimSpace v) (inl qVec) :: EvRLock
            :: EvGetDocs (docs ix) :: EvGetDocs (docs ix)
            :: weight_reads (docs ix) ++ [EvRUnlock])
    with ([EvEmbedContent (TrimSpace v) (inl qVec); EvRLock;
           EvGetDocs (docs ix); EvGetDocs (docs ix)]
            ++ weight_reads (docs ix) ++ [EvRUnlock]).
  rewrite !generate_requests_app, !read_lock_count_app, !embed_requests_app, !length_app.
  rewrite generate_requests_weight_reads, read_lock_count_weight_reads,
    embed_requests_weight_reads.
  simpl. auto.
Qed.

Lemma variant_trace_counts (vs : list string) (topK : Z) (ix : Index) :
  forall w : World,
    generate_requests (concat (map trace (variant_outcomes vs topK w ix))) = [] /\
    (read_lock_count (concat (map trace (variant_outcomes vs topK w ix))) <= length vs)%nat /\
    (length (embed_requests (concat (map trace (variant_outcomes vs topK w ix))))
       <= length vs)%nat.
Proof.
  induction vs as [|v vs IH]; intros w; simpl; [auto|].
  rewrite generate_requests_app, read_lock_count_app, embed_requests_app, length_app.
  destruct (Search_trace_counts v topK w ix) as (H1 & H2 & H3).
  destruct (IH (world (run (Search v topK) w ix))) as (H4 & H5 & H6).
  rewrite H1, H4. split; [reflexivity|]. lia.
Qed.

Lemma RewriteQuery_trace_counts (q : string) (w : World) (ix : Index) :
  (length (generate_requests (trace (run (RewriteQuery q) w ix))) <= 1)%nat /\
  embed_requests (trace (run (RewriteQuery q) w ix)) = [] /\
  read_lock_count (trace (run (RewriteQuery q) w ix)) = 0%nat.
Proof.
  destruct (String.eqb_spec (TrimSpace q) "") as [Hq | Hq].
  - rewrite (RewriteQuery_blank q w ix Hq). simpl. auto.
  - rewrite (RewriteQuery_asks q w ix Hq). simpl. auto.
Qed.

Lemma rewrite_used_alternatives (q : string) (w : World) (ix : Index) :
  (length (Alternatives (rewrite_used q w ix)) <= 3)%nat.
Proof.
  unfold rewrite_used.
  pose proof (RewriteQuery_result_shape q w ix) as H.
  destruct (result (run (RewriteQuery q) w ix)) as [rw [err|]]; simpl in *; [lia|].
  now destruct (H eq_refl) as (_ & _ & Hl & _).
Qed.

(** X15: one request to [/search] costs at most one request to the
    generative model and at most four embedding requests, and takes the
    read lock at most four times: the primary and at most three
    alternatives are searched. *)
Theorem handler_request_bound (q : string) (topK : Z) (w : World) (ix : Index) :
  (length (generate_requests (trace (run (search_handler q topK) w ix))) <= 1)%nat /\
  (length (embed_requests (trace (run (search_handler q topK) w ix))) <= 4)%nat /\
  (read_lock_count (trace (run (search_handler q topK) w ix)) <= 4)%nat /\
  (length (handler_outcomes q topK w ix) <= 4)%nat.
Proof.
  destruct (search_handler_run q topK w ix) as (_ & _ & ->).
  rewrite generate_requests_app, embed_requests_app, read_lock_count_app, !length_app.
  destruct (RewriteQuery_trace_counts q w ix) as (H1 & H2 & H3).
  unfold handler_outcomes.
  destruct (variant_trace_counts
              (Primary (rewrite_used q w ix) :: Alternatives (rewrite_used q w ix))
              topK ix (world (run (RewriteQuery q) w ix))) as (H4 & H5 & H6).
  pose proof (rewrite_used_alternatives q w ix) as Hl.
  rewrite variant_outcomes_length.
  rewrite H2, H3, H4. simpl in *. lia.
Qed.

Lemma flatten_sort_empty {HL : LibLaws L} (topK : Z) : flatten_sort topK ∅ = [].
Proof.
  unfold flatten_sort.
  assert (Hr : range_values ∅ = []).
  { apply Permutation_nil. symmetry.
    rewrite (range_values_Permutation ∅). now rewrite map_to_list_empty. }
  rewrite Hr.
  assert (Hs : sort_Slice by_score_desc (@nil SearchResult) = []).
  { apply Permutation_nil. symmetry. apply sort_Slice_Permutation. }
  rewrite Hs. unfold truncate.
  destruct (_ && _); [apply firstn_nil | reflexivity].
Qed.

Lemma search_handler_blank {HL : LibLaws L}
    (q : string) (topK : Z) (w : World) (ix : Index) :
  TrimSpace q = "" ->
  run (search_handler q topK) w ix =
    {| result := {| Query := q;
                    Normalized := {| Primary := q; Alternatives := [] |};
                    Results := [] |};
       world := w; index := ix; trace := [] |}.
Proof.
  intros Hq. unfold search_handler.
  rewrite run_bind, (RewriteQuery_blank q w ix Hq). simpl.
  unfold Search. rewrite Hq. simpl.
  now rewrite flatten_sort_empty.
Qed.

(** X16: for a query that trims to empty the handler contacts neither
    the generative model nor the embedding provider and takes no lock;
    it answers with no result, and reports the raw query as the
    normalized primary. *)
Theorem handler_blank_query {HL : LibLaws L}
    (q : string) (topK : Z) (w : World) (ix : Index) :
  TrimSpace q = "" ->
  run (search_handler q topK) w ix =
    {| result := {| Query := q;
                    Normalized := {| Primary := q; Alternatives := [] |};
                    Results := [] |};
       world := w; index := ix; trace := [] |} /\
  generate_requests (trace (run (search_handler q topK) w ix)) = [] /\
  embed_requests (trace (run (search_handler q topK) w ix)) = [].
Proof.
  intros Hq. rewrite (search_handler_blank q topK w ix Hq). auto.
Qed.






End HandlerAlone.

Lemma handler_blank_query_witness :
  LibLaws demo_Lib /\
  TrimSpace (Lib := demo_Lib) "  " = "" /\
  demo_handler "  " 10 ([inl vec_one], [says "iphone;apple"]) demo_index =
    Build_outcome scripted_Env _
      {| Query := "  ";
         Normalized := {| Primary := "  "; Alternatives := [] |};
         Results := [] |}
      ([inl vec_one], [says "iphone;apple"]) demo_index [].
Proof.
  split; [exact demo_LibLaws|].
  assert (H1 : TrimSpace (Lib := demo_Lib) "  " = "") by reflexivity.
  split; [exact H1|].
  exact (proj1 (@handler_blank_query demo_Lib scripted_Env demo_LibLaws "  " 10
                  ([inl vec_one], [says "iphone;apple"]) demo_index H1)).
Defined.


(** ** The locking discipline of the handlers *)

Section HandlerDiscipline.
Context {L : Lib} {SL : ServerLib}.

Lemma RewriteQuery_disciplined (raw : string) : disciplined Unlocked (RewriteQuery raw).
Proof.
  unfold disciplined, RewriteQuery.
  destruct (String.eqb (TrimSpace raw) ""); [reflexivity|].
  simpl. split; [reflexivity|].
  intros [resp | err]; simpl; [|reflexivity].
  now destruct (json_Decode (extractText resp)).
Qed.

Lemma RewriteQuery_publishes (S : list productDoc -> Prop) (raw : string) :
  publishes S (RewriteQuery raw).
Proof.
  unfold RewriteQuery.
  destruct (String.eqb (TrimSpace raw) ""); [exact I|].
  simpl. intros [resp | err]; simpl; [|exact I].
  now destruct (json_Decode (extractText resp)).
Qed.

Lemma search_alternatives_disciplined (alts : list string) (topK : Z) :
  forall best, disciplined Unlocked (search_alternatives alts topK best).
Proof.
  unfold disciplined.
  induction alts as [|alt alts IH]; intros best; simpl; [reflexivity|].
  apply disciplined_until_bind with (e' := Unlocked);
    [apply Search_disciplined | intros res; apply IH].
Qed.

Lemma search_alternatives_publishes (S : list productDoc -> Prop)
    (alts : list string) (topK : Z) :
  forall best, publishes S (search_alternatives alts topK best).
Proof.
  induction alts as [|alt alts IH]; intros best; simpl; [exact I|].
  apply publishes_bind with (Q := fun _ => True);
    [apply Search_publishes | apply returns_True | intros res _; apply IH].
Qed.

Lemma search_handler_disciplined (q : string) (topK : Z) :
  disciplined Unlocked (search_handler q topK).
Proof.
  unfold disciplined, search_handler.
  apply disciplined_until_bind with (e' := Unlocked); [apply RewriteQuery_disciplined|].
  intros r.
  apply disciplined_until_bind with (e' := Unlocked); [apply Search_disciplined|].
  intros resPrimary.
  apply disciplined_until_bind with (e' := Unlocked);
    [apply search_alternatives_disciplined | reflexivity].
Qed.

Lemma search_handler_publishes (S : list productDoc -> Prop) (q : string) (topK : Z) :
  publishes S (search_handler q topK).
Proof.
  unfold search_handler.
  apply publishes_bind with (Q := fun _ => True);
    [apply RewriteQuery_publishes | apply returns_True | intros r _].
  apply publishes_bind with (Q := fun _ => True);
    [apply Search_publishes | apply returns_True | intros resPrimary _].
  apply publishes_bind with (Q := fun _ => True);
    [apply search_alternatives_publishes | apply returns_True | intros best _].
  exact I.
Qed.

(** X18: the two handlers follow the locking discipline of the index
    whatever the provider and the model answer: they wait for neither
    while holding [ix.mu], and return holding nothing.  The handler of
    [/search] releases the read lock after each variant and never
    writes the corpus; the handler of [/reindex] writes at most the
    complete corpus of the products it decoded. *)
Theorem handlers_disciplined (query : Values) (q : string) (topK : Z) (method body : string) :
  disciplined Unlocked (search_handler q topK) /\
  publishes (fun _ => False) (search_handler q topK) /\
  disciplined Unlocked (search_endpoint query) /\
  publishes (fun _ => False) (search_endpoint query) /\
  disciplined Unlocked (reindex_handler method body) /\
  publishes (fun ds => exists products,
                 json_Decode_products body = Some products /\
                 complete_corpus (toIndexProducts products) ds)
            (reindex_handler method body).
Proof.
  split; [apply search_handler_disciplined|].
  split; [apply search_handler_publishes|].
  split; [apply search_handler_disciplined|].
  split; [apply search_handler_publishes|].
  unfold reindex_handler.
  destruct (negb (String.eqb method MethodPost)); [split; [reflexivity | exact I]|].
  destruct (json_Decode_products body) as [products|]; [|split; [reflexivity | exact I]].
  split.
  - unfold disciplined.
    apply disciplined_until_bind with (e' := Unlocked); [apply Rebuild_disciplined|].
    intros [err|]; reflexivity.
  - apply publishes_bind with (Q := fun _ => True).
    + eapply publishes_impl; [|apply Rebuild_publishes].
      intros ds Hds. exists products. auto.
    + apply returns_True.
    + intros [err|] _; exact I.
Qed.

End HandlerDiscipline.

(** ** The handlers from the request *)

Section ServerAlone.
Context {L : Lib} {SL : ServerLib} {E : Env}.

Lemma Values_Get_missing (query : Values) (key : string) :
  query !! key = None -> Values_Get query key = "".
Proof. intros H. unfold Values_Get. now rewrite H. Qed.

(** X19: when the parameter [topK] is absent, or is not an integer for
    [strconv.Atoi], the handler of [/search] runs with the limit 10 and
    returns at most ten results; when the parameter [q] is absent it
    returns none and contacts nobody. *)
Theorem search_endpoint_defaults {HL : LibLaws L}
    (query : Values) (w : World) (ix : Index) :
  TrimSpace "" = "" ->
  (query !! "topK" = None \/ Atoi (Values_Get query "topK") = None ->
     run (search_endpoint query) w ix
       = run (search_handler (Values_Get query "q") 10) w ix /\
     (length (Results (result (run (search_endpoint query) w ix))) <= 10)%nat) /\
  (query !! "q" = None ->
     Results (result (run (search_endpoint query) w ix)) = [] /\
     trace (run (search_endpoint query) w ix) = []).
Proof.
  intros Hblank. split.
  - intros Hk.
    assert (Hd : parseIntDefault (Values_Get query "topK") 10 = 10).
    { unfold parseIntDefault. destruct Hk as [Hk | Hk].
      - now rewrite (Values_Get_missing _ _ Hk).
      - rewrite Hk. now destruct (String.eqb _ _). }
    unfold search_endpoint. rewrite Hd. split; [reflexivity|].
    destruct (search_handler_run (Values_Get query "q") 10 w ix) as (-> & _ & _).
    simpl. unfold flatten_sort.
    match goal with
    | |- (length (truncate 10 ?l) <= 10)%nat =>
        pose proof (proj2 (truncate_length 10 l)) as Hl
    end.
    lia.
  - intros Hq. unfold search_endpoint.
    rewrite (Values_Get_missing _ _ Hq).
    rewrite (search_handler_blank "" _ w ix Hblank). auto.
Qed.

Lemma reindex_handler_run (body : string) (products : list models.Product)
    (w : World) (ix : Index) :
  json_Decode_products body = Some products ->
  result (run (reindex_handler MethodPost body) w ix)
    = match result (run (Rebuild (toIndexProducts products)) w ix) with
      | Some err => http_Error (Error err) StatusInternalServerError
      | None => w_WriteHeader StatusNoContent
      end /\
  world (run (reindex_handler MethodPost body) w ix)
    = world (run (Rebuild (toIndexProducts products)) w ix) /\
  index (run (reindex_handler MethodPost body) w ix)
    = index (run (Rebuild (toIndexProducts products)) w ix) /\
  trace (run (reindex_handler MethodPost body) w ix)
    = trace (run (Rebuild (toIndexProducts products)) w ix).
Proof.
  intros Hd. unfold reindex_handler. simpl. rewrite Hd.
  rewrite run_bind.
  destruct (result (run (Rebuild (toIndexProducts products)) w ix)) as [err|];
    simpl; now rewrite app_nil_r.
Qed.

(** X20: a request to [/reindex] that is not a POST, or whose body does
    not decode as a list of products, is refused with status 405 or 400
    before anything happens: no request to the provider, no lock, the
    index as it was. *)
Theorem reindex_refused_untouched (method body : string) (w : World) (ix : Index) :
  (method <> "POST" ->
     run (reindex_handler method body) w ix =
       {| result := http_Error "POST only" 405; world := w; index := ix; trace := [] |}) /\
  (json_Decode_products body = None ->
     run (reindex_handler "POST" body) w ix =
       {| result := http_Error "invalid JSON" 400; world := w; index := ix; trace := [] |}).
Proof.
  split.
  - intros Hm. unfold reindex_handler, MethodPost.
    destruct (String.eqb_spec method "POST") as [|_]; [contradiction | reflexivity].
  - intros Hd. unfold reindex_handler. simpl. now rewrite Hd.
Qed.

Lemma corpus_ok_requests (new : list productDoc) :
  corpus_ok new ->
  map fst (map request_of new) = map joined (map P new) /\
  map snd (map request_of new) = map inl (map Embedding new).
Proof.
  intros Hok. rewrite !map_map. split; [|reflexivity].
  apply map_ext_in. intros d Hd. unfold corpus_ok in Hok.
  rewrite List.Forall_forall in Hok. exact (proj1 (Hok d Hd)).
Qed.

(** X21: a POST to [/reindex] with a list of products either answers
    204, and then the corpus holds exactly the products with a text, in
    the order of the body, every embedding request answered; or answers
    500 with the message "embed product <id>: <cause>", where <id> is
    the identifier of the first product of the body whose embedding
    request failed and <cause> the error of that request: the requests
    before it are those of the products with a text that precede it, all
    answered, the failed request is the last one and carries that
    product's text, and the index is as it was. *)
Theorem reindex_replaces_or_reports (body : string) (products : list models.Product)
    (w : World) (ix : Index) :
  json_Decode_products body = Some products ->
  (result (run (reindex_handler "POST" body) w ix) = w_WriteHeader 204 /\
   map P (docs (index (run (reindex_handler "POST" body) w ix)))
     = surviving (toIndexProducts products) /\
   Forall (fun request => exists values, snd request = inl values)
          (embed_requests (trace (run (reindex_handler "POST" body) w ix))))
  \/
  (exists (before after : list models.Product) (p : models.Product) (p' : Product)
          (cause : error) (vectors : list (list float32)),
     products = before ++ p :: after /\
     toIndexProducts [p] = [p'] /\
     joined p' <> "" /\
     result (run (reindex_handler "POST" body) w ix)
       = http_Error ("embed product " +:+ pretty (models.ID p) +:+ ": " +:+ Error cause) 500 /\
     map fst (embed_requests (trace (run (reindex_handler "POST" body) w ix)))
       = map joined (surviving (toIndexProducts before)) ++ [joined p'] /\
     map snd (embed_requests (trace (run (reindex_handler "POST" body) w ix)))
       = map inl vectors ++ [inr cause] /\
     index (run (reindex_handler "POST" body) w ix) = ix).
Proof.
  intros Hd.
  destruct (reindex_handler_run body products w ix Hd) as (Hr & _ & Hi & Ht).
  unfold MethodPost in *. rewrite Hr, Hi, Ht. clear Hr Hi Ht.
  destruct (Rebuild_run (toIndexProducts products) w ix)
    as [new Hres Hm Hok Htr Hix | before' after' p' cause new Hres Hp Hj Hm Hok Htr Hix];
    rewrite Hres, Htr, Hix.
  - left. split; [reflexivity|]. split; [exact Hm|].
    rewrite embed_requests_app, embed_requests_events. simpl. rewrite app_nil_r.
    apply List.Forall_forall. intros x Hx.
    apply in_map_iff in Hx. destruct Hx as (d & <- & _). simpl. eauto.
  - right.
    unfold toIndexProducts in Hp.
    apply map_eq_app in Hp. destruct Hp as (before & rest & -> & Hb & Hrest).
    apply map_eq_cons in Hrest. destruct Hrest as (p & after & -> & Hp' & _).
    exists before, after, p, p', cause, (map Embedding new).
    split; [reflexivity|].
    split; [unfold toIndexProducts; simpl; now rewrite Hp'|].
    split; [exact Hj|].
    split; [now rewrite <- Hp'|].
    rewrite embed_requests_events, !map_app.
    destruct (corpus_ok_requests new Hok) as [Hf Hs].
    rewrite Hf, Hs, Hm. unfold toIndexProducts. rewrite Hb. auto.
Qed.

End ServerAlone.

Lemma search_endpoint_defaults_witness :
  LibLaws demo_Lib /\
  TrimSpace (Lib := demo_Lib) "" = "" /\
  Atoi (ServerLib := demo_ServerLib)
       (Values_Get {[ "q" := ["iphone"]; "topK" := ["ten"] ]} "topK") = None /\
  (length (Results (result (run (E := scripted_Env)
                              (search_endpoint (L := demo_Lib) (SL := demo_ServerLib)
                                 {[ "q" := ["iphone"]; "topK" := ["ten"] ]})
                              calm_world demo_index))) <= 10)%nat /\
  Results (result (run (E := scripted_Env)
                     (search_endpoint (L := demo_Lib) (SL := demo_ServerLib)
                        {[ "topK" := ["3"] ]})
                     calm_world demo_index)) = [].
Proof.
  split; [exact demo_LibLaws|].
  assert (H1 : TrimSpace (Lib := demo_Lib) "" = "") by reflexivity.
  assert (H2 : Atoi (ServerLib := demo_ServerLib)
                 (Values_Get {[ "q" := ["iphone"]; "topK" := ["ten"] ]} "topK") = None)
    by (vm_compute; reflexivity).
  assert (H3 : ({[ "topK" := ["3"] ]} : Values) !! "q" = None) by (vm_compute; reflexivity).
  split; [exact H1|]. split; [exact H2|].
  pose proof (@search_endpoint_defaults demo_Lib demo_ServerLib scripted_Env demo_LibLaws
                {[ "q" := ["iphone"]; "topK" := ["ten"] ]} calm_world demo_index H1) as Ha.
  pose proof (@search_endpoint_defaults demo_Lib demo_ServerLib scripted_Env demo_LibLaws
                {[ "topK" := ["3"] ]} calm_world demo_index H1) as Hb.
  split; [exact (proj2 (proj1 Ha (or_intror H2)))|].
  exact (proj1 (proj2 Hb H3)).
Defined.

Lemma reindex_replaces_or_reports_witness :
  exists products : list models.Product,
    json_Decode_products (ServerLib := demo_ServerLib) "Apple iPhone;;Galaxy"
      = Some products /\
    map models.ID products = [1%N; 2%N; 3%N] /\
    result (run (E := scripted_Env)
                (reindex_handler (L := demo_Lib) (SL := demo_ServerLib)
                   "POST" "Apple iPhone;;Galaxy")
                (answers [inl vec_one; provider_down]) demo_index)
      = http_Error "embed product 3: unavailable" 500 /\
    embed_requests
      (trace (run (E := scripted_Env)
                  (reindex_handler (L := demo_Lib) (SL := demo_ServerLib)
                     "POST" "Apple iPhone;;Galaxy")
                  (answers [inl vec_one; provider_down]) demo_index))
      = [("Apple iPhone", inl vec_one); ("Galaxy", provider_down)] /\
    (exists (before after : list models.Product) (p : models.Product) (p' : Product)
            (cause : error) (vectors : list (list float32)),
        products = before ++ p :: after /\
        toIndexProducts [p] = [p'] /\
        joined (L := demo_Lib) p' <> "" /\
        result (run (E := scripted_Env)
                    (reindex_handler (L := demo_Lib) (SL := demo_ServerLib)
                       "POST" "Apple iPhone;;Galaxy")
                    (answers [inl vec_one; provider_down]) demo_index)
          = http_Error ("embed product " +:+ pretty (models.ID p) +:+ ": " +:+ Error cause)
              500 /\
        map fst (embed_requests
                   (trace (run (E := scripted_Env)
                               (reindex_handler (L := demo_Lib) (SL := demo_ServerLib)
                                  "POST" "Apple iPhone;;Galaxy")
                               (answers [inl vec_one; provider_down]) demo_index)))
          = map (joined (L := demo_Lib))
                (surviving (L := demo_Lib) (toIndexProducts before))
              ++ [joined (L := demo_Lib) p'] /\
        map snd (embed_requests
                   (trace (run (E := scripted_Env)
                               (reindex_handler (L := demo_Lib) (SL := demo_ServerLib)
                                  "POST" "Apple iPhone;;Galaxy")
                               (answers [inl vec_one; provider_down]) demo_index)))
          = map inl vectors ++ [inr cause] /\
        index (run (E := scripted_Env)
                   (reindex_handler (L := demo_Lib) (SL := demo_ServerLib)
                      "POST" "Apple iPhone;;Galaxy")
                   (answers [inl vec_one; provider_down]) demo_index) = demo_index).
Proof.
  destruct (json_Decode_products (ServerLib := demo_ServerLib) "Apple iPhone;;Galaxy")
    as [products|] eqn:Hd; [|discriminate Hd].
  exists products.
  assert (Hids : map models.ID products = [1%N; 2%N; 3%N])
    by (injection Hd as <-; reflexivity).
  assert (Hres : result (run (E := scripted_Env)
                          (reindex_handler (L := demo_Lib) (SL := demo_ServerLib)
                             "POST" "Apple iPhone;;Galaxy")
                          (answers [inl vec_one; provider_down]) demo_index)
                 = http_Error "embed product 3: unavailable" 500)
    by (vm_compute; reflexivity).
  split; [reflexivity|]. split; [exact Hids|]. split; [exact Hres|].
  split; [vm_compute; reflexivity|].
  destruct (@reindex_replaces_or_reports demo_Lib demo_ServerLib scripted_Env
              "Apple iPhone;;Galaxy" products
              (answers [inl vec_one; provider_down]) demo_index Hd) as [[Hok _] | Hfail].
  - rewrite Hres in Hok. discriminate Hok.
  - exact Hfail.
Defined.

(** ** No interleaving gets stuck *)

Lemma sum_positive_some (f : thread -> nat) (l : list thread) :
  (0 < sum_list (map f l))%nat ->
  exists i t, l !! i = Some t /\ (0 < f t)%nat.
Proof.
  induction l as [|a l IH]; simpl; [lia|]. intros H.
  destruct (f a) as [|n] eqn:Hf.
  - destruct (IH H) as (i & t & Ht & Hp). exists (S i), t. auto.
  - exists 0%nat, a. split; [reflexivity | lia].
Qed.

Lemma returned_or_running (l : list thread) :
  Forall (fun t => exists v, code t = Ret v) l \/
  exists i t, l !! i = Some t /\ forall v, code t <> Ret v.
Proof.
  induction l as [|a l [IH | (i & t & Ht & Hr)]].
  - left. constructor.
  - destruct (code a) eqn:Hc;
      try (right; exists 0%nat, a; split; [reflexivity | rewrite Hc; discriminate]).
    left. constructor; eauto.
  - right. exists (S i), t. auto.
Qed.

Section Progress.
Context {L : Lib} {E : Env}.

(** A goroutine that holds the mutex is never waiting for it. *)
Lemma holder_steps (c : machine E) (i : nat) (t : thread) :
  threads c !! i = Some t ->
  disciplined (held t) (code t) ->
  held t <> Unlocked ->
  exists c', step i c = Some c'.
Proof.
  intros Ht Hd Hh. unfold step. rewrite Ht. unfold disciplined in Hd.
  destruct (code t); simpl in Hd; try (exfalso; tauto); eauto.
Qed.

(** With the mutex free, every goroutine that has not returned can
    move. *)
Lemma free_steps (c : machine E) (i : nat) (t : thread) :
  threads c !! i = Some t ->
  writer c = false -> readers c = 0%nat ->
  (forall v, code t <> Ret v) ->
  exists c', step i c = Some c'.
Proof.
  intros Ht Hw Hr Hrun. unfold step. rewrite Ht, Hw, Hr.
  destruct (code t) as [v| text k | parts k | | | | | | | |]; simpl; eauto.
  - now destruct (Hrun v).
  - destruct (embed_answer (m_world c) text). eauto.
  - destruct (generate_answer (m_world c) parts). eauto.
Qed.

Lemma consistent_progress (calls : list call) (ix0 : Index) (c : machine E) :
  consistent calls ix0 c ->
  Forall (fun t => exists v, code t = Ret v) (threads c) \/
  exists i c', step i c = Some c'.
Proof.
  intros Hc.
  destruct (writer c) eqn:Hw.
  - right. pose proof (writer_counted _ _ _ Hc) as Hsum. rewrite Hw in Hsum.
    destruct (sum_positive_some holds_write (threads c)) as (i & t & Ht & Hp); [lia|].
    exists i. apply (holder_steps c i t Ht).
    + exact (Forall_lookup_1 _ _ _ _ (discipline _ _ _ Hc) Ht).
    + unfold holds_write in Hp. destruct (held t); simpl in Hp; [lia | | |]; discriminate.
  - destruct (readers c) as [|n] eqn:Hr.
    + destruct (returned_or_running (threads c)) as [Hall | (i & t & Ht & Hrun)];
        [now left | right].
      exists i. now apply (free_steps c i t).
    + right. pose proof (readers_counted _ _ _ Hc) as Hsum. rewrite Hr in Hsum.
      destruct (sum_positive_some holds_read (threads c)) as (i & t & Ht & Hp); [lia|].
      exists i. apply (holder_steps c i t Ht).
      * exact (Forall_lookup_1 _ _ _ _ (discipline _ _ _ Hc) Ht).
      * unfold holds_read in Hp. destruct (held t); simpl in Hp; [lia | | |]; discriminate.
Qed.

End Progress.

(** ** An answer of the model with no text *)

Section EmptyAnswer.
Context {L : Lib} {E : Env}.

Lemma extractText_first_candidate (c : option Candidate) (rest : list (option Candidate)) :
  extractText (Some {| Candidates := c :: rest |})
    = extractText (Some {| Candidates := [c] |}).
Proof. now destruct c. Qed.

(** X23: [RewriteQuery] reads the first candidate of the model's
    response only; and when the response carries no text (no response,
    no candidate, an absent first candidate, a candidate with no content
    or with no part), it falls back to the trimmed query with no
    alternative and no error, given that the empty text does not decode
    as JSON. *)
Theorem RewriteQuery_empty_answer
    (raw : string) (w : World) (ix : Index) (resp : option GenerateContentResponse) :
  TrimSpace raw <> "" ->
  json_Decode "" = None ->
  fst (generate_answer w [prompt; "Input: " +:+ Quote (TrimSpace raw)]) = inl resp ->
  (resp = None \/
   exists r, resp = Some r /\
     (Candidates r = [] \/
      (exists rest, Candidates r = None :: rest) \/
      (exists c rest, Candidates r = Some c :: rest /\
         (CandidateContent c = None \/ CandidateContent c = Some {| Parts := [] |})))) ->
  result (run (RewriteQuery raw) w ix)
    = ({| Primary := TrimSpace raw; Alternatives := [] |}, None) /\
  (forall c rest,
     extractText (Some {| Candidates := c :: rest |})
       = extractText (Some {| Candidates := [c] |})).
Proof.
  intros Hq Hd Hr Hshape. split; [|apply extractText_first_candidate].
  rewrite (RewriteQuery_asks raw w ix Hq). simpl. rewrite Hr.
  assert (Ht : extractText resp = "").
  { destruct Hshape as [-> | (r & -> & [Hc | [(rest & Hc) | (c & rest & Hc & [Hn | Hn])]])];
      unfold extractText; try rewrite Hc; try rewrite Hn; reflexivity. }
  now rewrite Ht, Hd.
Qed.

End EmptyAnswer.

Lemma RewriteQuery_empty_answer_witness :
  TrimSpace (Lib := strict_Lib) " iphnoe " <> "" /\
  json_Decode (Lib := strict_Lib) "" = None /\
  result (run (E := scripted_Env) (RewriteQuery (L := strict_Lib) " iphnoe ")
              ([], [inl (Some {| Candidates := [] |})]) demo_index)
    = ({| Primary := "iphnoe"; Alternatives := [] |}, None).
Proof.
  assert (H1 : TrimSpace (Lib := strict_Lib) " iphnoe " <> "") by (vm_compute; discriminate).
  assert (H2 : json_Decode (Lib := strict_Lib) "" = None) by reflexivity.
  split; [exact H1|]. split; [exact H2|].
  refine (proj1 (@RewriteQuery_empty_answer strict_Lib scripted_Env " iphnoe "
                   ([], [inl (Some {| Candidates := [] |})]) demo_index
                   (Some {| Candidates := [] |}) H1 H2 eq_refl _)).
  right. exists {| Candidates := [] |}. split; [reflexivity | now left].
Defined.

(** ** Every call can run to its end *)

Lemma all_unlocked_counts (l : list thread) :
  Forall (fun t => held t = Unlocked) l ->
  sum_list (map holds_write l) = 0%nat /\ sum_list (map holds_read l) = 0%nat.
Proof.
  induction 1 as [|t l Ht _ [IHw IHr]]; simpl; [auto|].
  unfold holds_write at 1, holds_read at 1. rewrite Ht, IHw, IHr. auto.
Qed.

Section Liveness.
Context {L : Lib} {E : Env}.

Lemma exec_app (s1 s2 : list nat) :
  forall c : machine E, exec (s1 ++ s2) c = exec s2 (exec s1 c).
Proof. induction s1 as [|i s1 IH]; intros c; simpl; auto. Qed.

(** Goroutine [i] alone takes a step, then goes on alone. *)
Lemma goes_on (c c1 : machine E) (i : nat) (t1 : thread) (Q : thread -> Prop) :
  step i c = Some c1 ->
  threads c1 = <[ i := t1 ]> (threads c) ->
  (exists n t', threads (exec (replicate n i) c1) = <[ i := t' ]> (threads c1) /\ Q t') ->
  exists n t', threads (exec (replicate n i) c) = <[ i := t' ]> (threads c) /\ Q t'.
Proof.
  intros Hs Hth (n & t' & He & HQ). exists (S n), t'.
  simpl. rewrite Hs, He, Hth, list_insert_insert_eq. auto.
Qed.

(** A goroutine that holds [ix.mu] reaches, moving alone, the point
    where it has released it: nothing it does under the lock waits. *)
Lemma holder_releases (p : prog returned) :
  forall (c : machine E) (i : nat) (t : thread),
    threads c !! i = Some t -> code t = p ->
    held t <> Unlocked ->
    disciplined (held t) p ->
    exists n t',
      threads (exec (replicate n i) c) = <[ i := t' ]> (threads c) /\
      held t' = Unlocked.
Proof.
  unfold disciplined.
  induction p as [a | text k IH | parts k IH | k IH | k IH | k IH | k IH
                 | k IH | k IH | k IH | ds k IH];
    intros c i t Ht Hcode Hh Hd; simpl in Hd;
    try (exfalso; tauto);
    assert (Hi : (i < length (threads c))%nat) by (eapply lookup_lt_Some; eauto).
  - (* Unlock *)
    exists 1%nat, (continue_as t k Unlocked (view t)).
    simpl. unfold step. rewrite Ht, Hcode. auto.
  - (* RUnlock *)
    exists 1%nat, (continue_as t k Unlocked None).
    simpl. unfold step. rewrite Ht, Hcode. auto.
  - (* GetDocs *)
    eapply goes_on; [unfold step; rewrite Ht, Hcode; reflexivity | reflexivity |].
    eapply IH; [apply list_lookup_insert_eq; exact Hi | reflexivity | exact Hh |].
    simpl. rewrite (proj1 Hd). apply (proj2 Hd).
  - (* GetSemanticWeight *)
    eapply goes_on; [unfold step; rewrite Ht, Hcode; reflexivity | reflexivity |].
    eapply IH; [apply list_lookup_insert_eq; exact Hi | reflexivity | exact Hh |].
    apply Hd.
  - (* GetFuzzyWeight *)
    eapply goes_on; [unfold step; rewrite Ht, Hcode; reflexivity | reflexivity |].
    eapply IH; [apply list_lookup_insert_eq; exact Hi | reflexivity | exact Hh |].
    apply Hd.
  - (* SetDocs *)
    eapply goes_on; [unfold step; rewrite Ht, Hcode; reflexivity | reflexivity |].
    eapply IH; [apply list_lookup_insert_eq; exact Hi | reflexivity | discriminate |].
    exact (proj2 Hd).
Qed.

Section Calls.
Variable calls : list call.
Variable ix0 : Index.

Lemma consistent_length (c : machine E) :
  consistent calls ix0 c -> length (threads c) = length calls.
Proof. intros Hc. rewrite <- (origins _ _ _ Hc). now rewrite length_map. Qed.

Lemma unlocked_free (c : machine E) :
  consistent calls ix0 c ->
  Forall (fun t => held t = Unlocked) (threads c) ->
  writer c = false /\ readers c = 0%nat.
Proof.
  intros Hc Hall. destruct (all_unlocked_counts _ Hall) as [Hw Hr].
  rewrite (writer_counted _ _ _ Hc) in Hw. rewrite (readers_counted _ _ _ Hc) in Hr.
  split; [now destruct (writer c) | exact Hr].
Qed.

(** One step of a goroutine alone, then the induction hypothesis on
    what is left of its code; [rew] rewrites the conditions of the
    step. *)
Ltac alone_step IH Hc Ht Hcode Hi Hothers rew :=
  eapply goes_on;
  [ unfold step; rewrite Ht, Hcode; rew; reflexivity
  | reflexivity
  | eapply IH;
    [ eapply step_consistent;
      [exact Hc | unfold step; rewrite Ht, Hcode; rew; reflexivity]
    | apply list_lookup_insert_eq; exact Hi
    | reflexivity
    | let j := fresh "j" in
      let t' := fresh "t'" in
      let Hne := fresh "Hne" in
      intros j t' Hne; simpl; rewrite list_lookup_insert_ne by auto;
      now apply Hothers ] ].

(** With every other goroutine holding nothing, a goroutine moving
    alone reaches its return: the lock it asks for is free. *)
Lemma runs_to_return (p : prog returned) :
  forall (c : machine E) (i : nat) (t : thread),
    consistent calls ix0 c ->
    threads c !! i = Some t -> code t = p ->
    (forall j t', j <> i -> threads c !! j = Some t' -> held t' = Unlocked) ->
    exists n t',
      threads (exec (replicate n i) c) = <[ i := t' ]> (threads c) /\
      ((exists v, code t' = Ret v) /\ held t' = Unlocked).
Proof.
  induction p as [a | text k IH | parts k IH | k IH | k IH | k IH | k IH
                 | k IH | k IH | k IH | ds k IH];
    intros c i t Hc Ht Hcode Hothers;
    pose proof (Forall_lookup_1 _ _ _ _ (discipline _ _ _ Hc) Ht) as Hd;
    unfold disciplined in Hd; rewrite Hcode in Hd; simpl in Hd;
    assert (Hi : (i < length (threads c))%nat) by (eapply lookup_lt_Some; eauto);
    assert (Hfree : held t = Unlocked -> writer c = false /\ readers c = 0%nat)
      by (intros Hu; apply unlocked_free; [exact Hc|];
          apply Forall_lookup_2; intros j t' Hj;
          destruct (decide (j = i)) as [-> | Hne];
          [congruence | eauto]).
  - (* Ret *)
    exists 0%nat, t. simpl. rewrite list_insert_id by exact Ht. eauto.
  - (* EmbedContent *)
    destruct (embed_answer (m_world c) text) as [r w1] eqn:Hans.
    alone_step IH Hc Ht Hcode Hi Hothers ltac:(rewrite Hans).
  - (* GenerateContent *)
    destruct (generate_answer (m_world c) parts) as [r w1] eqn:Hans.
    alone_step IH Hc Ht Hcode Hi Hothers ltac:(rewrite Hans).
  - (* Lock *)
    destruct (Hfree (proj1 Hd)) as [Hw Hr].
    alone_step IH Hc Ht Hcode Hi Hothers ltac:(rewrite Hw, Hr).
  - (* Unlock *)
    alone_step IH Hc Ht Hcode Hi Hothers ltac:(idtac).
  - (* RLock *)
    destruct (Hfree (proj1 Hd)) as [Hw Hr].
    alone_step IH Hc Ht Hcode Hi Hothers ltac:(rewrite Hw).
  - (* RUnlock *)
    alone_step IH Hc Ht Hcode Hi Hothers ltac:(idtac).
  - (* GetDocs *)
    alone_step IH Hc Ht Hcode Hi Hothers ltac:(idtac).
  - (* GetSemanticWeight *)
    alone_step IH Hc Ht Hcode Hi Hothers ltac:(idtac).
  - (* GetFuzzyWeight *)
    alone_step IH Hc Ht Hcode Hi Hothers ltac:(idtac).
  - (* SetDocs *)
    alone_step IH Hc Ht Hcode Hi Hothers ltac:(idtac).
Qed.

(** From any state, the goroutines that hold the mutex can release it
    one after the other. *)
Lemma locks_released (k : nat) :
  forall c : machine E,
    consistent calls ix0 c ->
    exists s : list nat,
      forall j t, (j < k)%nat -> threads (exec s c) !! j = Some t -> held t = Unlocked.
Proof.
  induction k as [|k IH]; intros c Hc; [exists []; intros; lia|].
  destruct (IH c Hc) as [s Hs].
  pose proof (exec_consistent calls ix0 s c Hc) as Hc'.
  destruct (threads (exec s c) !! k) as [t|] eqn:Ht.
  - assert (Hcase : held t = Unlocked \/ held t <> Unlocked)
      by (destruct (held t); [now left | right; discriminate ..]).
    destruct Hcase as [Hu | Hh].
    + exists s. intros j t' Hj Hl.
      destruct (decide (j = k)) as [-> | Hne]; [congruence | apply (Hs j); [lia | exact Hl]].
    + destruct (holder_releases (code t) (exec s c) k t Ht eq_refl Hh) as (n & t' & Hth & Hu);
        [exact (Forall_lookup_1 _ _ _ _ (discipline _ _ _ Hc') Ht) |].
      exists (s ++ replicate n k). rewrite exec_app, Hth. intros j t0 Hj Hl.
      destruct (decide (j = k)) as [-> | Hne].
      * rewrite list_lookup_insert_eq in Hl by (eapply lookup_lt_Some; eauto). congruence.
      * rewrite list_lookup_insert_ne in Hl by auto. apply (Hs j); [lia | exact Hl].
  - exists s. intros j t' Hj Hl.
    destruct (decide (j = k)) as [-> | Hne]; [congruence | apply (Hs j); [lia | exact Hl]].
Qed.

(** With the mutex free, the goroutines can return one after the
    other. *)
Lemma calls_returned (k : nat) :
  forall c : machine E,
    consistent calls ix0 c ->
    Forall (fun t => held t = Unlocked) (threads c) ->
    exists s : list nat,
      Forall (fun t => held t = Unlocked) (threads (exec s c)) /\
      forall j t, (j < k)%nat -> threads (exec s c) !! j = Some t -> exists v, code t = Ret v.
Proof.
  induction k as [|k IH]; intros c Hc Hall; [exists []; split; [exact Hall | intros; lia]|].
  destruct (IH c Hc Hall) as (s & Hun & Hs).
  pose proof (exec_consistent calls ix0 s c Hc) as Hc'.
  destruct (threads (exec s c) !! k) as [t|] eqn:Ht.
  - destruct (runs_to_return (code t) (exec s c) k t Hc' Ht eq_refl)
      as (n & t' & Hth & Hret & Hu).
    { intros j t0 _ Hl. exact (Forall_lookup_1 _ _ _ _ Hun Hl). }
    exists (s ++ replicate n k). rewrite exec_app, Hth. split.
    + now apply Forall_insert.
    + intros j t0 Hj Hl. destruct (decide (j = k)) as [-> | Hne].
      * rewrite list_lookup_insert_eq in Hl by (eapply lookup_lt_Some; eauto).
        injection Hl as <-. exact Hret.
      * rewrite list_lookup_insert_ne in Hl by auto. apply (Hs j); [lia | exact Hl].
  - exists s. split; [exact Hun|]. intros j t' Hj Hl.
    destruct (decide (j = k)) as [-> | Hne]; [congruence | apply (Hs j); [lia | exact Hl]].
Qed.

End Calls.

Lemma calls_can_return
    (calls : list call) (w : World) (ix0 : Index) (schedule : list nat) :
  exists more : list nat,
    Forall (fun t => exists v, code t = Ret v)
           (threads (exec (schedule ++ more) (boot calls w ix0))) /\
    Forall (fun t => held t = Unlocked)
           (threads (exec (schedule ++ more) (boot calls w ix0))).
Proof.
  pose proof (exec_consistent calls ix0 schedule _ (boot_consistent calls w ix0)) as Hc.
  set (c := exec schedule (boot calls w ix0)) in *.
  destruct (locks_released calls ix0 (length calls) c Hc) as [s1 H1].
  pose proof (exec_consistent calls ix0 s1 c Hc) as Hc1.
  assert (Hun : Forall (fun t => held t = Unlocked) (threads (exec s1 c))).
  { apply Forall_lookup_2. intros j t Hl. apply (H1 j t); [|exact Hl].
    rewrite <- (consistent_length calls ix0 _ Hc1). eapply lookup_lt_Some; eauto. }
  destruct (calls_returned calls ix0 (length calls) (exec s1 c) Hc1 Hun) as (s2 & Hu2 & H2).
  pose proof (exec_consistent calls ix0 s2 _ Hc1) as Hc2.
  exists (s1 ++ s2). rewrite !exec_app. fold c. split; [|exact Hu2].
  apply Forall_lookup_2. intros j t Hl. apply (H2 j t); [|exact Hl].
  rewrite <- (consistent_length calls ix0 _ Hc2). eapply lookup_lt_Some; eauto.
Qed.

(** X22: calls of [Rebuild] and [Search] never deadlock on [ix.mu].  In
    every state that an interleaving of such calls reaches, either every
    call has returned or some goroutine can take its next step; and
    whatever the lock holders and the waiting goroutines of that state,
    some continuation of the schedule makes every call return, holding
    nothing. *)
Theorem no_deadlock (calls : list call) (w : World) (ix0 : Index) (schedule : list nat) :
  (Forall (fun t => exists v, code t = Ret v)
          (threads (exec schedule (boot calls w ix0))) \/
   exists i c', step i (exec schedule (boot calls w ix0)) = Some c') /\
  (exists more : list nat,
     Forall (fun t => exists v, code t = Ret v)
            (threads (exec (schedule ++ more) (boot calls w ix0))) /\
     Forall (fun t => held t = Unlocked)
            (threads (exec (schedule ++ more) (boot calls w ix0)))).
Proof.
  split.
  - apply (consistent_progress calls ix0).
    apply exec_consistent, boot_consistent.
  - apply calls_can_return.
Qed.

End Liveness.

(** ** The variants the handler searches *)

Lemma filter_all {A : Type} (P : A -> Prop) `{forall x, Decision (P x)} (l : list A) :
  Forall P l -> filter P l = l.
Proof.
  induction 1 as [|x l Hx _ IH]; [reflexivity|].
  rewrite filter_cons. destruct (decide (P x)); [now rewrite IH | contradiction].
Qed.

Lemma map_fixed {A : Type} (f : A -> A) (l : list A) :
  Forall (fun x => f x = x) l -> map f l = l.
Proof. induction 1 as [|x l Hx _ IH]; simpl; [reflexivity | now rewrite Hx, IH]. Qed.

Section Variants.
Context {L : Lib} {E : Env}.
Hypothesis TrimSpace_idempotent : forall s, TrimSpace (TrimSpace s) = TrimSpace s.

Lemma normalize_trimmed (r : Rewrite) :
  Forall (fun v => TrimSpace v = v /\ v <> "") (Alternatives (normalize r)).
Proof.
  destruct (normalize_seen r) as (seen & -> & _).
  destruct (normalize_alternatives_appends (Alternatives r) seen [])
    as (new & -> & Hsub & Hne & _).
  simpl. rewrite List.Forall_forall in *. intros v Hv. split; [|now apply Hne].
  rewrite <- list_elem_of_In in Hv.
  apply (elem_of_sublist _ _ _ Hv) in Hsub.
  rewrite list_elem_of_In in Hsub. apply in_map_iff in Hsub.
  destruct Hsub as (a & <- & _). apply TrimSpace_idempotent.
Qed.

Lemma rewrite_used_variants (q : string) (w : World) (ix : Index) :
  TrimSpace q <> "" ->
  Forall (fun v => TrimSpace v <> "")
         (Primary (rewrite_used q w ix) :: Alternatives (rewrite_used q w ix)) /\
  (snd (result (run (RewriteQuery q) w ix)) = None ->
   Forall (fun v => TrimSpace v = v)
          (Primary (rewrite_used q w ix) :: Alternatives (rewrite_used q w ix))).
Proof.
  intros Hq. unfold rewrite_used. rewrite (RewriteQuery_asks q w ix Hq). simpl.
  assert (Hq' : TrimSpace (TrimSpace q) <> "") by now rewrite TrimSpace_idempotent.
  destruct (fst (generate_answer w _)) as [resp | err]; simpl.
  - destruct (json_Decode (extractText resp)) as [r|]; simpl.
    + pose proof (normalize_trimmed r) as Ha.
      assert (Ha1 : Forall (fun v => TrimSpace v <> "") (Alternatives (normalize r)))
        by (eapply Forall_impl; [exact Ha|]; simpl; intros v [-> Hv]; exact Hv).
      assert (Ha2 : Forall (fun v => TrimSpace v = v) (Alternatives (normalize r)))
        by (eapply Forall_impl; [exact Ha|]; simpl; tauto).
      destruct (String.eqb_spec (Primary (normalize r)) "") as [Hp | Hp]; simpl.
      * split; [|intros _]; constructor; auto.
      * rewrite normalize_Primary in *.
        split; [|intros _]; constructor; auto.
        now rewrite TrimSpace_idempotent.
    + split; [|intros _]; repeat constructor; auto.
  - split; [repeat constructor; auto | discriminate].
Qed.

(** X24: for a query that does not trim to empty, the handler sends one
    embedding request for each variant it reports as normalized, the
    primary first and the alternatives in order, whatever became of the
    requests before; when the rewrite succeeded the requests carry the
    reported variants unchanged; given that trimming a trimmed string
    changes nothing. *)
Theorem handler_searches_every_variant (q : string) (topK : Z) (w : World) (ix : Index) :
  TrimSpace q <> "" ->
  map fst (embed_requests (trace (run (search_handler q topK) w ix)))
    = map TrimSpace
        (Primary (Normalized (result (run (search_handler q topK) w ix)))
           :: Alternatives (Normalized (result (run (search_handler q topK) w ix)))) /\
  length (embed_requests (trace (run (search_handler q topK) w ix)))
    = S (length (Alternatives (Normalized (result (run (search_handler q topK) w ix))))) /\
  (snd (result (run (RewriteQuery q) w ix)) = None ->
   map fst (embed_requests (trace (run (search_handler q topK) w ix)))
     = Primary (Normalized (result (run (search_handler q topK) w ix)))
         :: Alternatives (Normalized (result (run (search_handler q topK) w ix)))).
Proof.
  intros Hq.
  destruct (search_handler_run q topK w ix) as (-> & _ & ->). simpl Normalized.
  destruct (rewrite_used_variants q w ix Hq) as [Hne Htrim].
  assert (Hreq : map fst (embed_requests
                            (trace (run (RewriteQuery q) w ix)
                               ++ concat (map trace (handler_outcomes q topK w ix))))
                 = map TrimSpace (Primary (rewrite_used q w ix)
                                    :: Alternatives (rewrite_used q w ix))).
  { rewrite embed_requests_app.
    rewrite (proj1 (proj2 (RewriteQuery_trace_counts q w ix))), app_nil_l.
    unfold handler_outcomes. rewrite variant_requests.
    apply filter_all. apply Forall_forall. intros t Ht.
    rewrite list_elem_of_In in Ht. apply in_map_iff in Ht. destruct Ht as (v & <- & Hv).
    rewrite List.Forall_forall in Hne. now apply Hne. }
  split; [exact Hreq|]. split.
  - rewrite <- (length_map fst), Hreq, length_map. reflexivity.
  - intros Hok. rewrite Hreq. apply map_fixed, Htrim, Hok.
Qed.

End Variants.

Lemma handler_searches_every_variant_witness :
  TrimSpace (Lib := demo_Lib) " iphone " <> "" /\
  Normalized (result (demo_handler " iphone " 10 calm_world demo_index))
    = {| Primary := "iphone"; Alternatives := ["apple"] |} /\
  map fst (embed_requests (trace (demo_handler " iphone " 10 calm_world demo_index)))
    = ["iphone"; "apple"].
Proof.
  assert (H1 : TrimSpace (Lib := demo_Lib) " iphone " <> "") by (vm_compute; discriminate).
  assert (H2 : Normalized (result (demo_handler " iphone " 10 calm_world demo_index))
               = {| Primary := "iphone"; Alternatives := ["apple"] |})
    by (vm_compute; reflexivity).
  split; [exact H1|]. split; [exact H2|].
  pose proof (@handler_searches_every_variant demo_Lib scripted_Env
                ascii_TrimSpace_idempotent " iphone " 10 calm_world demo_index H1) as H.
  destruct H as (_ & _ & H).
  change (run (search_handler (L := demo_Lib) " iphone " 10) calm_world demo_index)
    with (demo_handler " iphone " 10 calm_world demo_index) in H.
  rewrite H2 in H. apply H. vm_compute. reflexivity.
Defined.
